(** * ExtHostModelViewDialog: handles, registries and outbound messages

    A shallow embedding of [src/sql/workbench/api/node/extHostModelViewDialog.ts].

    Modelling decisions.
    - Handles are JavaScript numbers that only ever hold the values
      [0, 1, 2, ...] produced by [_currentHandle += 1]; they are modelled as
      [N].  (A JavaScript number is exact on every integer below [2^53]; the
      development covers runs that allocate fewer handles than that.)
    - Objects are identified by reference.  [new] draws a fresh reference from
      [heap_next]; the fields of [DialogImpl], [TabImpl] and [ButtonImpl]
      instances live in three stores indexed by reference, so that the
      [Map]s keyed by object identity become finite maps keyed by reference.
    - A position of object type holds a reference or [undefined]
      ([None]): the source is compiled without strict null checks, so
      [undefined] inhabits [Button], [DialogTab] and [Dialog].  Reading a
      property of [undefined], or calling a method on it, raises a
      [TypeError].
    - Positions are used at their declared types: a position declared
      [Button] holds a [ButtonImpl] or [undefined], one declared [DialogTab] a
      [TabImpl] or [undefined], one declared [Dialog] a [DialogImpl] or
      [undefined].  What the JavaScript runtime does with an object of
      another class in such a position (own properties added by assignment,
      [updateContent] resolved on a [DialogImpl] met in a tab sequence, ...)
      is not modelled: a computation that meets one stops with [Unmodelled],
      which stands for no behaviour of the code.  [typed_op] and
      [typed_objects] delimit the programs that never do
      ([typed_programs_are_modelled]).
    - [this._proxy.$...] calls are one-way calls into the main thread: they
      are recorded, in order, in [sent].  [Emitter.fire] is a call into
      [vs/base/common/event]: it is recorded in [fired].
    - Every method is a computation in a state-and-exception monad [M]; a
      thrown exception keeps the mutations made before it. *)

From stdpp Require Import gmap strings list.
From Stdlib Require Import NArith Lia.

Local Open Scope string_scope.
Local Open Scope list_scope.

(** ** Values *)

Abbreviation ObjRef := positive.

(** [undefined] in a position typed as an object. *)
Abbreviation undefined := (@None _).

Definition exn := string.
Definition TypeError : exn := "TypeError".

(** Not an exception of the code: the mark of a computation that has left the
    model (an object met in a position declared for another class). *)
Definition Unmodelled : exn := "Unmodelled".

Module ButtonImpl.
(** [_label] stays [undefined] until the first assignment; the constructor
    sets [_enabled = true]. *)
Record t := mk { _label : option string; _enabled : bool }.
Definition new : t := {| _label := None; _enabled := true |}.
Definition with_label (v : option string) (o : t) : t := mk v (_enabled o).
Definition with_enabled (v : bool) (o : t) : t := mk (_label o) v.
End ButtonImpl.

Module TabImpl.
Record t := mk { title : option string; content : option string }.
Definition new : t := {| title := None; content := None |}.
Definition with_title (v : option string) (o : t) : t := mk v (content o).
Definition with_content (v : option string) (o : t) : t := mk (title o) v.
End TabImpl.

(** [content: string | DialogTab[]] *)
Inductive Content :=
| ContentText (s : string)
| ContentTabs (tabs : list (option ObjRef)).

Module DialogImpl.
Record t := mk {
    title : option string;
    content : option Content;
    okButton : option ObjRef;
    cancelButton : option ObjRef;
    customButtons : option (list (option ObjRef))
  }.
Definition new : t := mk None None None None None.
Definition with_title (v : option string) (o : t) : t :=
  mk v (content o) (okButton o) (cancelButton o) (customButtons o).
Definition with_content (v : option Content) (o : t) : t :=
  mk (title o) v (okButton o) (cancelButton o) (customButtons o).
Definition with_okButton (v : option ObjRef) (o : t) : t :=
  mk (title o) (content o) v (cancelButton o) (customButtons o).
Definition with_cancelButton (v : option ObjRef) (o : t) : t :=
  mk (title o) (content o) (okButton o) v (customButtons o).
Definition with_customButtons (v : option (list (option ObjRef))) (o : t) : t :=
  mk (title o) (content o) (okButton o) (cancelButton o) v.
End DialogImpl.

(** ** Messages to the main thread *)

Record ButtonDetails := { bd_label : option string; bd_enabled : bool }.
Record TabDetails := { td_title : option string; td_content : option string }.

Inductive ContentDetails :=
| DetailsText (s : string)
| DetailsTabs (handles : list N).

Record DialogDetails := {
  dd_title : option string;
  dd_okButton : N;
  dd_cancelButton : N;
  dd_content : option ContentDetails;
  dd_customButtons : option (list N)
}.

Inductive Message :=
| SetTabDetails (handle : N) (details : TabDetails)
| SetButtonDetails (handle : N) (details : ButtonDetails)
| SetDialogDetails (handle : N) (details : DialogDetails)
| Open (handle : N)
| Close (handle : N).

(** The only closure ever stored in [_onClickCallbacks] is the one built by
    [ButtonImpl.getOnClickCallback]: [() => this._onClick.fire()]. *)
Inductive Callback := OnClickFire (this : ObjRef).

(** ** State *)

Record State := mkState {
  _currentHandle : N;
  _dialogHandles : gmap (option ObjRef) N;
  _tabHandles : gmap (option ObjRef) N;
  _buttonHandles : gmap (option ObjRef) N;
  _onClickCallbacks : gmap N Callback;
  heap_next : ObjRef;
  dialogs : gmap ObjRef DialogImpl.t;
  tabs : gmap ObjRef TabImpl.t;
  buttons : gmap ObjRef ButtonImpl.t;
  sent : list Message;
  fired : list ObjRef
}.

Definition init : State :=
  mkState 0 ∅ ∅ ∅ ∅ 1%positive ∅ ∅ ∅ [] [].

Definition set_currentHandle (f : N → N) (st : State) : State :=
  mkState (f (_currentHandle st)) (_dialogHandles st) (_tabHandles st)
    (_buttonHandles st) (_onClickCallbacks st) (heap_next st) (dialogs st)
    (tabs st) (buttons st) (sent st) (fired st).
Definition set_dialogHandles (f : gmap (option ObjRef) N → gmap (option ObjRef) N)
    (st : State) : State :=
  mkState (_currentHandle st) (f (_dialogHandles st)) (_tabHandles st)
    (_buttonHandles st) (_onClickCallbacks st) (heap_next st) (dialogs st)
    (tabs st) (buttons st) (sent st) (fired st).
Definition set_tabHandles (f : gmap (option ObjRef) N → gmap (option ObjRef) N)
    (st : State) : State :=
  mkState (_currentHandle st) (_dialogHandles st) (f (_tabHandles st))
    (_buttonHandles st) (_onClickCallbacks st) (heap_next st) (dialogs st)
    (tabs st) (buttons st) (sent st) (fired st).
Definition set_buttonHandles (f : gmap (option ObjRef) N → gmap (option ObjRef) N)
    (st : State) : State :=
  mkState (_currentHandle st) (_dialogHandles st) (_tabHandles st)
    (f (_buttonHandles st)) (_onClickCallbacks st) (heap_next st) (dialogs st)
    (tabs st) (buttons st) (sent st) (fired st).
Definition set_onClickCallbacks (f : gmap N Callback → gmap N Callback)
    (st : State) : State :=
  mkState (_currentHandle st) (_dialogHandles st) (_tabHandles st)
    (_buttonHandles st) (f (_onClickCallbacks st)) (heap_next st) (dialogs st)
    (tabs st) (buttons st) (sent st) (fired st).
Definition set_heap_next (f : ObjRef → ObjRef) (st : State) : State :=
  mkState (_currentHandle st) (_dialogHandles st) (_tabHandles st)
    (_buttonHandles st) (_onClickCallbacks st) (f (heap_next st)) (dialogs st)
    (tabs st) (buttons st) (sent st) (fired st).
Definition set_dialogs (f : gmap ObjRef DialogImpl.t → gmap ObjRef DialogImpl.t)
    (st : State) : State :=
  mkState (_currentHandle st) (_dialogHandles st) (_tabHandles st)
    (_buttonHandles st) (_onClickCallbacks st) (heap_next st) (f (dialogs st))
    (tabs st) (buttons st) (sent st) (fired st).
Definition set_tabs (f : gmap ObjRef TabImpl.t → gmap ObjRef TabImpl.t)
    (st : State) : State :=
  mkState (_currentHandle st) (_dialogHandles st) (_tabHandles st)
    (_buttonHandles st) (_onClickCallbacks st) (heap_next st) (dialogs st)
    (f (tabs st)) (buttons st) (sent st) (fired st).
Definition set_buttons (f : gmap ObjRef ButtonImpl.t → gmap ObjRef ButtonImpl.t)
    (st : State) : State :=
  mkState (_currentHandle st) (_dialogHandles st) (_tabHandles st)
    (_buttonHandles st) (_onClickCallbacks st) (heap_next st) (dialogs st)
    (tabs st) (f (buttons st)) (sent st) (fired st).
Definition set_sent (f : list Message → list Message) (st : State) : State :=
  mkState (_currentHandle st) (_dialogHandles st) (_tabHandles st)
    (_buttonHandles st) (_onClickCallbacks st) (heap_next st) (dialogs st)
    (tabs st) (buttons st) (f (sent st)) (fired st).
Definition set_fired (f : list ObjRef → list ObjRef) (st : State) : State :=
  mkState (_currentHandle st) (_dialogHandles st) (_tabHandles st)
    (_buttonHandles st) (_onClickCallbacks st) (heap_next st) (dialogs st)
    (tabs st) (buttons st) (sent st) (f (fired st)).

(** ** The monad of methods *)

Inductive Result (A : Type) :=
| Ok (a : A)
| Throw (e : exn).
Arguments Ok {A} a.
Arguments Throw {A} e.

Definition M (A : Type) : Type := State → Result A * State.

#[export] Instance M_ret : MRet M := λ A a st, (Ok a, st).
#[export] Instance M_bind : MBind M := λ A B f m st,
  match m st with
  | (Ok a, st') => f a st'
  | (Throw e, st') => (Throw e, st')
  end.

Definition gets {A} (f : State → A) : M A := λ st, (Ok (f st), st).
Definition modify (f : State → State) : M unit := λ st, (Ok tt, f st).
Definition throw {A} (e : exn) : M A := λ st, (Throw e, st).

(** [array.forEach(f)] and [array.map(f)], left to right. *)
Fixpoint forEach {A} (f : A → M unit) (l : list A) : M unit :=
  match l with
  | [] => mret tt
  | x :: l => f x;; forEach f l
  end.

Fixpoint array_map {A B} (f : A → M B) (l : list A) : M (list B) :=
  match l with
  | [] => mret []
  | x :: l => y ← f x; ys ← array_map f l; mret (y :: ys)
  end.

(** ** Object access *)

(** [new C(...)]: a reference never handed out before. *)
Definition new_ref : M ObjRef :=
  r ← gets heap_next;
  modify (set_heap_next Pos.succ);;
  mret r.

(** The object behind the value of a position declared [Button]: the
    [ButtonImpl] it refers to.  [undefined] has no properties and no methods:
    going through it is a [TypeError].  A reference to anything but a
    [ButtonImpl] is outside the model. *)
Definition the_button (button : option ObjRef) : M (ObjRef * ButtonImpl.t) :=
  match button with
  | Some r =>
      o ← gets (λ st, buttons st !! r);
      match o with Some o => mret (r, o) | None => throw Unmodelled end
  | None => throw TypeError
  end.

(** The same for a position declared [DialogTab]. *)
Definition the_tab (tab : option ObjRef) : M (ObjRef * TabImpl.t) :=
  match tab with
  | Some r =>
      o ← gets (λ st, tabs st !! r);
      match o with Some o => mret (r, o) | None => throw Unmodelled end
  | None => throw TypeError
  end.

(** The same for a position declared [Dialog]. *)
Definition the_dialog (dialog : option ObjRef) : M (ObjRef * DialogImpl.t) :=
  match dialog with
  | Some r =>
      o ← gets (λ st, dialogs st !! r);
      match o with Some o => mret (r, o) | None => throw Unmodelled end
  | None => throw TypeError
  end.

(** Property reads [button.label], [tab.title], [dialog.content], ... *)
Definition button_get {A} (f : ButtonImpl.t → A) (button : option ObjRef) : M A :=
  '(_, o) ← the_button button; mret (f o).
Definition tab_get {A} (f : TabImpl.t → A) (tab : option ObjRef) : M A :=
  '(_, o) ← the_tab tab; mret (f o).
Definition dialog_get {A} (f : DialogImpl.t → A) (dialog : option ObjRef) : M A :=
  '(_, o) ← the_dialog dialog; mret (f o).

(** Plain field writes [tab.title = v], [dialog.content = v], ... *)
Definition tab_put (f : TabImpl.t → TabImpl.t) (tab : option ObjRef) : M unit :=
  '(r, o) ← the_tab tab; modify (set_tabs <[r := f o]>).
Definition dialog_put (f : DialogImpl.t → DialogImpl.t) (dialog : option ObjRef) : M unit :=
  '(r, o) ← the_dialog dialog; modify (set_dialogs <[r := f o]>).
Definition button_put (f : ButtonImpl.t → ButtonImpl.t) (button : option ObjRef) : M unit :=
  '(r, o) ← the_button button; modify (set_buttons <[r := f o]>).

(** ** External collaborators *)

(** [this._proxy.$method(...)]: fire and forget. *)
Definition proxy (m : Message) : M unit := modify (set_sent (λ l, (l ++ [m])%list)).

(** [this._onClick.fire()] on the emitter of button [this]. *)
Definition fire (this : ObjRef) : M unit := modify (set_fired (λ l, (l ++ [this])%list)).

(** Modelled from the spec: [nls.localize] is not in the source tree; the
    specification names "Done" and "Cancel" as the default labels and treats
    the text resource provider as an opaque source of them, so [localize]
    returns the default message it is given. *)
Definition localize (key message : string) : string := message.

(** ** ExtHostModelViewDialog *)

Definition getNewHandle : M N :=
  handle ← gets _currentHandle;
  modify (set_currentHandle (λ h, h + 1)%N);;
  mret handle.

Definition getDialogHandle (dialog : option ObjRef) : M N :=
  handle ← gets (λ st, _dialogHandles st !! dialog);
  match handle with
  | None =>
      handle ← getNewHandle;
      modify (set_dialogHandles <[dialog := handle]>);;
      mret handle
  | Some handle => mret handle
  end.

Definition getTabHandle (tab : option ObjRef) : M N :=
  handle ← gets (λ st, _tabHandles st !! tab);
  match handle with
  | None =>
      handle ← getNewHandle;
      modify (set_tabHandles <[tab := handle]>);;
      mret handle
  | Some handle => mret handle
  end.

Definition getButtonHandle (button : option ObjRef) : M N :=
  handle ← gets (λ st, _buttonHandles st !! button);
  match handle with
  | None =>
      handle ← getNewHandle;
      modify (set_buttonHandles <[button := handle]>);;
      mret handle
  | Some handle => mret handle
  end.

(** Calling the result of [Map.get]: [undefined()] is a [TypeError]. *)
Definition call (callback : option Callback) : M unit :=
  match callback with
  | Some (OnClickFire this) => fire this
  | None => throw TypeError
  end.

(** [$onButtonClick(handle)] *)
Definition onButtonClick (handle : N) : M unit :=
  callback ← gets (λ st, _onClickCallbacks st !! handle);
  call callback.

Definition updateTabContent (tab : option ObjRef) : M unit :=
  handle ← getTabHandle tab;
  title ← tab_get TabImpl.title tab;
  content ← tab_get TabImpl.content tab;
  proxy (SetTabDetails handle {| td_title := title; td_content := content |}).

Definition updateButton (button : option ObjRef) : M unit :=
  handle ← getButtonHandle button;
  label ← button_get ButtonImpl._label button;
  enabled ← button_get ButtonImpl._enabled button;
  proxy (SetButtonDetails handle {| bd_label := label; bd_enabled := enabled |}).

(** [TabImpl.updateContent()], called as [tab.updateContent()]. *)
Definition Tab_updateContent (this : option ObjRef) : M unit :=
  the_tab this;;
  updateTabContent this.

Definition updateDialogContent (dialog : option ObjRef) : M unit :=
  handle ← getDialogHandle dialog;
  tabs ← dialog_get DialogImpl.content dialog;
  match tabs with
  | Some (ContentTabs tabs) => forEach Tab_updateContent tabs
  | _ => mret tt
  end;;
  customButtons ← dialog_get DialogImpl.customButtons dialog;
  match customButtons with
  | Some customButtons => forEach updateButton customButtons
  | None => mret tt
  end;;
  okButton ← dialog_get DialogImpl.okButton dialog;
  updateButton okButton;;
  cancelButton ← dialog_get DialogImpl.cancelButton dialog;
  updateButton cancelButton;;
  title ← dialog_get DialogImpl.title dialog;
  okButton ← dialog_get DialogImpl.okButton dialog;
  okButton ← getButtonHandle okButton;
  cancelButton ← dialog_get DialogImpl.cancelButton dialog;
  cancelButton ← getButtonHandle cancelButton;
  content ← dialog_get DialogImpl.content dialog;
  content ←
    match content with
    | Some (ContentTabs tabs) =>
        handles ← array_map getTabHandle tabs; mret (Some (DetailsTabs handles))
    | Some (ContentText s) => mret (Some (DetailsText s))
    | None => mret None
    end;
  customButtons ← dialog_get DialogImpl.customButtons dialog;
  customButtons ←
    match customButtons with
    | Some customButtons =>
        handles ← array_map getButtonHandle customButtons; mret (Some handles)
    | None => mret None
    end;
  proxy (SetDialogDetails handle
    {| dd_title := title; dd_okButton := okButton; dd_cancelButton := cancelButton;
       dd_content := content; dd_customButtons := customButtons |}).

Definition open (dialog : option ObjRef) : M unit :=
  handle ← getDialogHandle dialog;
  updateDialogContent dialog;;
  proxy (Open handle).

Definition close (dialog : option ObjRef) : M unit :=
  handle ← getDialogHandle dialog;
  proxy (Close handle).

Definition registerOnClickCallback (button : option ObjRef) (callback : Callback) : M unit :=
  handle ← getButtonHandle button;
  modify (set_onClickCallbacks <[handle := callback]>).

(** ** ButtonImpl accessors *)

(** [set label(label)] *)
Definition set_label (this : option ObjRef) (label : string) : M unit :=
  button_put (ButtonImpl.with_label (Some label)) this;;
  updateButton this.

(** [set enabled(enabled)] *)
Definition set_enabled (this : option ObjRef) (enabled : bool) : M unit :=
  button_put (ButtonImpl.with_enabled enabled) this;;
  updateButton this.

(** [getOnClickCallback()] *)
Definition getOnClickCallback (this : ObjRef) : Callback := OnClickFire this.

(** ** Factories *)

Definition createButton (label : string) : M ObjRef :=
  button ← new_ref;
  modify (set_buttons <[button := ButtonImpl.new]>);;
  set_label (Some button) label;;
  handle ← getNewHandle;
  modify (set_buttonHandles <[Some button := handle]>);;
  registerOnClickCallback (Some button) (getOnClickCallback button);;
  mret button.

Definition createTab (title : string) : M ObjRef :=
  tab ← new_ref;
  modify (set_tabs <[tab := TabImpl.new]>);;
  tab_put (TabImpl.with_title (Some title)) (Some tab);;
  handle ← getNewHandle;
  modify (set_tabHandles <[Some tab := handle]>);;
  mret tab.

(** [new DialogImpl(this)]: the constructor creates both buttons. *)
Definition new_DialogImpl : M ObjRef :=
  dialog ← new_ref;
  modify (set_dialogs <[dialog := DialogImpl.new]>);;
  okButton ← createButton (localize "dialogOkLabel" "Done");
  dialog_put (DialogImpl.with_okButton (Some okButton)) (Some dialog);;
  cancelButton ← createButton (localize "dialogCancelLabel" "Cancel");
  dialog_put (DialogImpl.with_cancelButton (Some cancelButton)) (Some dialog);;
  mret dialog.

Definition createDialog (title : string) : M ObjRef :=
  dialog ← new_DialogImpl;
  dialog_put (DialogImpl.with_title (Some title)) (Some dialog);;
  handle ← getNewHandle;
  modify (set_dialogHandles <[Some dialog := handle]>);;
  mret dialog.

(** ** The methods of the model objects

    Each forwards to the extension host with [this]; calling a method on
    [undefined] is a [TypeError]. *)

Definition Dialog_open (this : option ObjRef) : M unit :=
  the_dialog this;; open this.
Definition Dialog_close (this : option ObjRef) : M unit :=
  the_dialog this;; close this.
Definition Dialog_updateContent (this : option ObjRef) : M unit :=
  the_dialog this;; updateDialogContent this.

(** ** The three registries, uniformly *)

Inductive Kind := KDialog | KTab | KButton.

#[export] Instance Kind_eq_dec : EqDecision Kind.
Proof. solve_decision. Defined.

Definition registry (k : Kind) (st : State) : gmap (option ObjRef) N :=
  match k with
  | KDialog => _dialogHandles st
  | KTab => _tabHandles st
  | KButton => _buttonHandles st
  end.

Definition set_registry (k : Kind)
    (f : gmap (option ObjRef) N → gmap (option ObjRef) N) : State → State :=
  match k with
  | KDialog => set_dialogHandles f
  | KTab => set_tabHandles f
  | KButton => set_buttonHandles f
  end.

(** The common shape of [getDialogHandle], [getTabHandle] and
    [getButtonHandle]. *)
Definition getOrAssign (k : Kind) (object : option ObjRef) : M N :=
  handle ← gets (λ st, registry k st !! object);
  match handle with
  | None =>
      handle ← getNewHandle;
      modify (set_registry k <[object := handle]>);;
      mret handle
  | Some handle => mret handle
  end.

(** ** Programs of the extension

    What an extension and the main thread can do with this class: use the
    factories, assign the public fields of the objects it got, call their
    methods, and deliver a click.  The references an extension can mention are
    those of objects that exist ([closed_op]); [typed_op], further down, asks
    in addition that each is of the class its position declares. *)

Inductive Op :=
| CreateDialog (title : string)
| CreateTab (title : string)
| CreateButton (label : string)
| DialogSetTitle (d : option ObjRef) (v : option string)
| DialogSetContent (d : option ObjRef) (v : option Content)
| DialogSetOkButton (d : option ObjRef) (v : option ObjRef)
| DialogSetCancelButton (d : option ObjRef) (v : option ObjRef)
| DialogSetCustomButtons (d : option ObjRef) (v : option (list (option ObjRef)))
| DialogOpen (d : option ObjRef)
| DialogClose (d : option ObjRef)
| DialogUpdateContent (d : option ObjRef)
| TabSetTitle (t : option ObjRef) (v : option string)
| TabSetContent (t : option ObjRef) (v : option string)
| TabUpdateContent (t : option ObjRef)
| ButtonSetLabel (b : option ObjRef) (v : string)
| ButtonSetEnabled (b : option ObjRef) (v : bool)
| OnButtonClick (handle : N).

Definition run_op (op : Op) : M unit :=
  match op with
  | CreateDialog title => createDialog title;; mret tt
  | CreateTab title => createTab title;; mret tt
  | CreateButton label => createButton label;; mret tt
  | DialogSetTitle d v => dialog_put (DialogImpl.with_title v) d
  | DialogSetContent d v => dialog_put (DialogImpl.with_content v) d
  | DialogSetOkButton d v => dialog_put (DialogImpl.with_okButton v) d
  | DialogSetCancelButton d v => dialog_put (DialogImpl.with_cancelButton v) d
  | DialogSetCustomButtons d v => dialog_put (DialogImpl.with_customButtons v) d
  | DialogOpen d => Dialog_open d
  | DialogClose d => Dialog_close d
  | DialogUpdateContent d => Dialog_updateContent d
  | TabSetTitle t v => tab_put (TabImpl.with_title v) t
  | TabSetContent t v => tab_put (TabImpl.with_content v) t
  | TabUpdateContent t => Tab_updateContent t
  | ButtonSetLabel b v => set_label b v
  | ButtonSetEnabled b v => set_enabled b v
  | OnButtonClick handle => onButtonClick handle
  end.

(** An exception thrown by one call ends that call only. *)
Fixpoint run_ops (ops : list Op) (st : State) : State :=
  match ops with
  | [] => st
  | op :: ops => run_ops ops (run_op op st).2
  end.

Definition closed (n : ObjRef) (v : option ObjRef) : bool :=
  match v with
  | Some r => bool_decide (r < n)%positive
  | None => true
  end.

Definition closed_list (n : ObjRef) (l : option (list (option ObjRef))) : bool :=
  match l with
  | Some l => forallb (closed n) l
  | None => true
  end.

Definition closed_content (n : ObjRef) (c : option Content) : bool :=
  match c with
  | Some (ContentTabs l) => forallb (closed n) l
  | _ => true
  end.

Definition closed_dialog (n : ObjRef) (o : DialogImpl.t) : bool :=
  closed_content n (DialogImpl.content o) && closed n (DialogImpl.okButton o)
  && closed n (DialogImpl.cancelButton o)
  && closed_list n (DialogImpl.customButtons o).

Definition closed_op (n : ObjRef) (op : Op) : bool :=
  match op with
  | CreateDialog _ | CreateTab _ | CreateButton _ | OnButtonClick _ => true
  | DialogSetTitle d _ | DialogOpen d | DialogClose d | DialogUpdateContent d =>
      closed n d
  | DialogSetContent d v => closed n d && closed_content n v
  | DialogSetOkButton d v | DialogSetCancelButton d v => closed n d && closed n v
  | DialogSetCustomButtons d v => closed n d && closed_list n v
  | TabSetTitle t _ | TabSetContent t _ | TabUpdateContent t => closed n t
  | ButtonSetLabel b _ | ButtonSetEnabled b _ => closed n b
  end.

Fixpoint closed_ops (ops : list Op) (st : State) : bool :=
  match ops with
  | [] => true
  | op :: ops => closed_op (heap_next st) op && closed_ops ops (run_op op st).2
  end.

Definition reachable (st : State) : Prop :=
  ∃ ops, closed_ops ops init = true ∧ run_ops ops init = st.

(** The handle getter of each registry. *)
Definition getHandle (k : Kind) : option ObjRef → M N :=
  match k with
  | KDialog => getDialogHandle
  | KTab => getTabHandle
  | KButton => getButtonHandle
  end.

(** [n] successive calls of [getNewHandle], and what they return. *)
Fixpoint allocate (n : nat) : M (list N) :=
  match n with
  | O => mret []
  | S n => handle ← getNewHandle; handles ← allocate n; mret (handle :: handles)
  end.

(** The scenario of the specification (a dialog titled "Connect" with one
    tab), with one custom button added. *)
Definition scenario_ops : list Op :=
  [CreateDialog "Connect"; CreateTab "General";
   TabSetContent (Some 4%positive) (Some "form");
   DialogSetContent (Some 1%positive) (Some (ContentTabs [Some 4%positive]));
   CreateButton "Help";
   DialogSetCustomButtons (Some 1%positive) (Some [Some 5%positive])].

Definition scenario : State := run_ops scenario_ops init.

(** Two tabs with the same fields. *)
Definition twins : State := run_ops [CreateTab "General"; CreateTab "General"] init.

(** A dialog whose tab sequence holds a tab followed by [undefined]. *)
Definition broken_ops : list Op :=
  [CreateDialog "Connect"; CreateTab "General";
   DialogSetContent (Some 1%positive)
     (Some (ContentTabs [Some 4%positive; undefined]))].

Definition broken : State := run_ops broken_ops init.

(** ** The invariant of reachable states *)

Record wf (st : State) : Prop := {
  (** every handle in a registry has been allocated *)
  wf_allocated : ∀ k v h, registry k st !! v = Some h → (h < _currentHandle st)%N;
  (** no handle stands for two objects *)
  wf_injective : ∀ k1 v1 k2 v2 h,
    registry k1 st !! v1 = Some h → registry k2 st !! v2 = Some h →
    k1 = k2 ∧ v1 = v2;
  (** every callback is registered under an allocated handle *)
  wf_callbacks : ∀ h c, _onClickCallbacks st !! h = Some c → (h < _currentHandle st)%N;
  (** every callback fires the emitter of an existing button *)
  wf_callback_target : ∀ h r,
    _onClickCallbacks st !! h = Some (OnClickFire r) → (r < heap_next st)%positive;
  (** registered objects exist *)
  wf_registered : ∀ k r h, registry k st !! Some r = Some h → (r < heap_next st)%positive;
  (** the objects a dialog refers to exist *)
  wf_dialogs : ∀ r o, dialogs st !! r = Some o → closed_dialog (heap_next st) o = true
}.

(** The invariant, at a state whose next fresh reference is [n]. *)
Definition wf_at (n : ObjRef) (st : State) : Prop := wf st ∧ heap_next st = n.

(** ** Hoare triples over [M], with one postcondition for a normal return and
    one for a thrown exception *)

Definition hoare {A} (P : State → Prop) (m : M A) (Q : A → State → Prop)
    (E : State → Prop) : Prop :=
  ∀ st, P st →
    match m st with
    | (Ok a, st') => Q a st'
    | (Throw _, st') => E st'
    end.

(** [m] keeps [I] when it returns, and leaves [E] when it throws. *)
Definition keeps {A} (I E : State → Prop) (m : M A) : Prop :=
  hoare I m (λ _, I) E.

(** [st'] differs from [st] by handles assigned on the way (and by what was
    sent): the objects, the callbacks and the registered handles are kept. *)
Record evolves (st st' : State) : Prop := {
  ev_registry : ∀ k, registry k st ⊆ registry k st';
  ev_currentHandle : (_currentHandle st ≤ _currentHandle st')%N;
  ev_onClickCallbacks : _onClickCallbacks st' = _onClickCallbacks st;
  ev_heap_next : heap_next st' = heap_next st;
  ev_dialogs : dialogs st' = dialogs st;
  ev_tabs : tabs st' = tabs st;
  ev_buttons : buttons st' = buttons st;
  ev_fired : fired st' = fired st
}.

(** What any call leaves in place: handles and callbacks once registered
    stay, and a callback registered by the call belongs to a button created
    by it. *)
Record advances (st st' : State) : Prop := {
  adv_registry : ∀ k, registry k st ⊆ registry k st';
  adv_onClickCallbacks : _onClickCallbacks st ⊆ _onClickCallbacks st';
  adv_new_callbacks : ∀ h r,
    _onClickCallbacks st' !! h = Some (OnClickFire r) →
    _onClickCallbacks st !! h = None → (heap_next st ≤ r)%positive;
  adv_currentHandle : (_currentHandle st ≤ _currentHandle st')%N;
  adv_heap_next : (heap_next st ≤ heap_next st')%positive;
  adv_buttons : ∀ r, is_Some (buttons st !! r) → is_Some (buttons st' !! r)
}.

(** ** What the messages of a synchronization look like *)

Definition handle_in (k : Kind) (st : State) (v : option ObjRef) : N :=
  default 0%N (registry k st !! v).

Definition button_details (st : State) (v : option ObjRef) : ButtonDetails :=
  match v ≫= (buttons st !!.) with
  | Some o => {| bd_label := ButtonImpl._label o; bd_enabled := ButtonImpl._enabled o |}
  | None => {| bd_label := None; bd_enabled := false |}
  end.

Definition tab_details (st : State) (v : option ObjRef) : TabDetails :=
  match v ≫= (tabs st !!.) with
  | Some o => {| td_title := TabImpl.title o; td_content := TabImpl.content o |}
  | None => {| td_title := None; td_content := None |}
  end.

Definition button_message (st : State) (v : option ObjRef) : Message :=
  SetButtonDetails (handle_in KButton st v) (button_details st v).

Definition tab_message (st : State) (v : option ObjRef) : Message :=
  SetTabDetails (handle_in KTab st v) (tab_details st v).

Definition content_tabs (c : option Content) : list (option ObjRef) :=
  match c with
  | Some (ContentTabs l) => l
  | _ => []
  end.

Definition content_details (st : State) (c : option Content) : option ContentDetails :=
  match c with
  | Some (ContentTabs l) => Some (DetailsTabs (handle_in KTab st <$> l))
  | Some (ContentText s) => Some (DetailsText s)
  | None => None
  end.

Definition dialog_details (st : State) (o : DialogImpl.t) : DialogDetails :=
  {| dd_title := DialogImpl.title o;
     dd_okButton := handle_in KButton st (DialogImpl.okButton o);
     dd_cancelButton := handle_in KButton st (DialogImpl.cancelButton o);
     dd_content := content_details st (DialogImpl.content o);
     dd_customButtons :=
       (λ l : list (option ObjRef), handle_in KButton st <$> l)
         <$> DialogImpl.customButtons o |}.

(** The children of a dialog are objects of the right class. *)
Definition is_button (st : State) (v : option ObjRef) : Prop :=
  is_Some (v ≫= (buttons st !!.)).
Definition is_tab (st : State) (v : option ObjRef) : Prop :=
  is_Some (v ≫= (tabs st !!.)).

Definition well_typed (st : State) (o : DialogImpl.t) : Prop :=
  Forall (is_tab st) (content_tabs (DialogImpl.content o))
  ∧ Forall (is_button st) (default [] (DialogImpl.customButtons o))
  ∧ is_button st (DialogImpl.okButton o)
  ∧ is_button st (DialogImpl.cancelButton o).

(** Everything [updateDialogContent] registers and sends. *)
Record synchronized (d : ObjRef) (o : DialogImpl.t) (st' : State) : Prop := {
  sync_dialog : is_Some (registry KDialog st' !! Some d);
  sync_tabs : Forall (λ v, is_Some (registry KTab st' !! v))
    (content_tabs (DialogImpl.content o));
  sync_customButtons : Forall (λ v, is_Some (registry KButton st' !! v))
    (default [] (DialogImpl.customButtons o));
  sync_okButton : is_Some (registry KButton st' !! DialogImpl.okButton o);
  sync_cancelButton : is_Some (registry KButton st' !! DialogImpl.cancelButton o)
}.

Definition children_messages (st : State) (o : DialogImpl.t) : list Message :=
  (tab_message st <$> content_tabs (DialogImpl.content o))
  ++ (button_message st <$> default [] (DialogImpl.customButtons o))
  ++ [button_message st (DialogImpl.okButton o);
      button_message st (DialogImpl.cancelButton o)].

#[export] Instance is_button_dec st v : Decision (is_button st v).
Proof. unfold is_button. apply _. Defined.
#[export] Instance is_tab_dec st v : Decision (is_tab st v).
Proof. unfold is_tab. apply _. Defined.
#[export] Instance well_typed_dec st o : Decision (well_typed st o).
Proof. unfold well_typed. apply _. Defined.

(** The values of a position at its declared type: an object of the class, or
    [undefined]. *)
Definition button_typed (st : State) (v : option ObjRef) : Prop :=
  v = undefined ∨ is_button st v.
Definition tab_typed (st : State) (v : option ObjRef) : Prop :=
  v = undefined ∨ is_tab st v.

(** The children of a dialog are values of their declared types.  Such a
    dialog is not [well_typed] exactly when one of its children is
    [undefined]. *)
Definition typed (st : State) (o : DialogImpl.t) : Prop :=
  Forall (tab_typed st) (content_tabs (DialogImpl.content o))
  ∧ Forall (button_typed st) (default [] (DialogImpl.customButtons o))
  ∧ button_typed st (DialogImpl.okButton o)
  ∧ button_typed st (DialogImpl.cancelButton o).

#[export] Instance button_typed_dec st v : Decision (button_typed st v).
Proof. unfold button_typed. apply _. Defined.
#[export] Instance tab_typed_dec st v : Decision (tab_typed st v).
Proof. unfold tab_typed. apply _. Defined.
#[export] Instance typed_dec st o : Decision (typed st o).
Proof. unfold typed. apply _. Defined.

Definition is_SetDialogDetails (m : Message) : bool :=
  match m with
  | SetDialogDetails _ _ => true
  | _ => false
  end.

(** Since [st0], only messages about tabs and buttons were sent. *)
Definition children_only (st0 st : State) : Prop :=
  ∃ msgs, sent st = sent st0 ++ msgs
    ∧ Forall (λ m, is_SetDialogDetails m = false) msgs.

(** ** Notions for the further properties *)

(** [msgs] are sent and nothing else happens. *)
Definition send_all (msgs : list Message) : State → State :=
  set_sent (λ l, l ++ msgs).

Definition is_dialog (st : State) (v : option ObjRef) : Prop :=
  is_Some (v ≫= (dialogs st !!.)).

Definition dialog_typed (st : State) (v : option ObjRef) : Prop :=
  v = undefined ∨ is_dialog st v.

(** An operation that uses every position at its declared type: the receiver
    and the objects assigned are of the declared class, or [undefined]. *)
Definition typed_op (st : State) (op : Op) : Prop :=
  match op with
  | CreateDialog _ | CreateTab _ | CreateButton _ | OnButtonClick _ => True
  | DialogSetTitle d _ | DialogOpen d | DialogClose d | DialogUpdateContent d =>
      dialog_typed st d
  | DialogSetContent d v =>
      dialog_typed st d ∧ Forall (tab_typed st) (content_tabs v)
  | DialogSetOkButton d v | DialogSetCancelButton d v =>
      dialog_typed st d ∧ button_typed st v
  | DialogSetCustomButtons d v =>
      dialog_typed st d ∧ Forall (button_typed st) (default [] v)
  | TabSetTitle t _ | TabSetContent t _ | TabUpdateContent t => tab_typed st t
  | ButtonSetLabel b _ | ButtonSetEnabled b _ => button_typed st b
  end.

Fixpoint typed_ops (ops : list Op) (st : State) : Prop :=
  match ops with
  | [] => True
  | op :: ops => typed_op st op ∧ typed_ops ops (run_op op st).2
  end.

(** Every dialog's children are values of their declared types. *)
Definition typed_objects (st : State) : Prop :=
  ∀ r o, dialogs st !! r = Some o → typed st o.

(** No operation of the run leaves the model. *)
Fixpoint modelled (ops : list Op) (st : State) : Prop :=
  match ops with
  | [] => True
  | op :: ops =>
      (run_op op st).1 ≠ Throw Unmodelled ∧ modelled ops (run_op op st).2
  end.

(** Everything [updateDialogContent] sends for dialog [d] with fields [o]. *)
Definition dialog_messages (st : State) (d : ObjRef) (o : DialogImpl.t) : list Message :=
  children_messages st o
  ++ [SetDialogDetails (handle_in KDialog st (Some d)) (dialog_details st o)].

(** What every operation respects, besides [advances]: what was sent and
    fired stays, in order; a handle or a callback stored by the operation is
    keyed by a handle allocated by it; objects stay. *)
Record grows (st st' : State) : Prop := {
  grows_advances : advances st st';
  grows_sent : sent st `prefix_of` sent st';
  grows_fired : fired st `prefix_of` fired st';
  grows_handles : ∀ k v h,
    registry k st' !! v = Some h → registry k st !! v = None →
    (_currentHandle st ≤ h)%N;
  grows_callbacks : ∀ h c,
    _onClickCallbacks st' !! h = Some c → _onClickCallbacks st !! h = None →
    (_currentHandle st ≤ h)%N;
  grows_tabs : ∀ r, is_Some (tabs st !! r) → is_Some (tabs st' !! r);
  grows_dialogs : ∀ r, is_Some (dialogs st !! r) → is_Some (dialogs st' !! r)
}.

(** What the operations other than the factories respect on top: no object
    and no callback appears. *)
Record steady (st st' : State) : Prop := {
  steady_grows : grows st st';
  steady_onClickCallbacks : _onClickCallbacks st' = _onClickCallbacks st;
  steady_heap_next : heap_next st' = heap_next st;
  steady_buttons : ∀ r, is_Some (buttons st' !! r) → is_Some (buttons st !! r);
  steady_tabs : ∀ r, is_Some (tabs st' !! r) → is_Some (tabs st !! r);
  steady_dialogs : ∀ r, is_Some (dialogs st' !! r) → is_Some (dialogs st !! r)
}.

(** Registries, callbacks and objects agree: every object has a handle, every
    button has its callback under its handle, and every callback is some
    button's, under that button's handle. *)
Record consistent (st : State) : Prop := {
  cons_wf : wf st;
  cons_dialogs : ∀ r, is_Some (dialogs st !! r) → is_Some (_dialogHandles st !! Some r);
  cons_tabs : ∀ r, is_Some (tabs st !! r) → is_Some (_tabHandles st !! Some r);
  cons_buttons : ∀ r, is_Some (buttons st !! r) →
    ∃ h, _buttonHandles st !! Some r = Some h
      ∧ _onClickCallbacks st !! h = Some (OnClickFire r);
  cons_callbacks : ∀ h r, _onClickCallbacks st !! h = Some (OnClickFire r) →
    _buttonHandles st !! Some r = Some h ∧ is_Some (buttons st !! r)
}.

Definition is_object (k : Kind) (st : State) (v : option ObjRef) : Prop :=
  match k with
  | KDialog => is_dialog st v
  | KTab => is_tab st v
  | KButton => is_button st v
  end.

Definition is_factory (op : Op) : bool :=
  match op with
  | CreateDialog _ | CreateTab _ | CreateButton _ => true
  | _ => false
  end.

(** The operations that send nothing: the plain field writes of tabs and
    dialogs, [createTab], and the delivery of a click. *)
Definition is_silent (op : Op) : bool :=
  match op with
  | CreateTab _ | DialogSetTitle _ _ | DialogSetContent _ _
  | DialogSetOkButton _ _ | DialogSetCancelButton _ _
  | DialogSetCustomButtons _ _ | TabSetTitle _ _ | TabSetContent _ _
  | OnButtonClick _ => true
  | _ => false
  end.

Definition is_click (op : Op) : bool :=
  match op with
  | OnButtonClick _ => true
  | _ => false
  end.

(** * Properties *)

(** ** Running computations *)

Lemma run_bind {A B} (m : M A) (f : A → M B) st :
  (m ≫= f) st =
  match m st with
  | (Ok a, st') => f a st'
  | (Throw e, st') => (Throw e, st')
  end.
Proof. reflexivity. Qed.

Lemma run_bind_Ok {A B} (m : M A) (f : A → M B) st a st' :
  m st = (Ok a, st') → (m ≫= f) st = f a st'.
Proof. intros H. by rewrite run_bind, H. Qed.

Lemma run_bind_Throw {A B} (m : M A) (f : A → M B) st e st' :
  m st = (Throw e, st') → (m ≫= f) st = (Throw e, st').
Proof. intros H. by rewrite run_bind, H. Qed.

Lemma getDialogHandle_eq : getDialogHandle = getOrAssign KDialog.
Proof. reflexivity. Qed.
Lemma getTabHandle_eq : getTabHandle = getOrAssign KTab.
Proof. reflexivity. Qed.
Lemma getButtonHandle_eq : getButtonHandle = getOrAssign KButton.
Proof. reflexivity. Qed.

Lemma getOrAssign_Some k v st h :
  registry k st !! v = Some h → getOrAssign k v st = (Ok h, st).
Proof. intros H. unfold getOrAssign. rewrite run_bind. cbn. by rewrite H. Qed.

Lemma getOrAssign_None k v st :
  registry k st !! v = None →
  getOrAssign k v st =
    (Ok (_currentHandle st),
     set_registry k <[v := _currentHandle st]> (set_currentHandle (λ h, h + 1)%N st)).
Proof. intros H. unfold getOrAssign. rewrite run_bind. cbn. by rewrite H. Qed.

Lemma registry_set_registry k k' f st :
  registry k (set_registry k' f st) =
  if decide (k = k') then f (registry k st) else registry k st.
Proof. by destruct k, k'. Qed.

Lemma registry_set_currentHandle k f st :
  registry k (set_currentHandle f st) = registry k st.
Proof. by destruct k. Qed.

Lemma evolves_refl st : evolves st st.
Proof. split; try reflexivity. Qed.

Lemma evolves_trans st1 st2 st3 : evolves st1 st2 → evolves st2 st3 → evolves st1 st3.
Proof.
  intros [] []. split; try congruence.
  - intros k. etrans; eauto.
  - lia.
Qed.

Lemma evolves_lookup st st' k v h :
  evolves st st' → registry k st !! v = Some h → registry k st' !! v = Some h.
Proof. intros [Hr _ _ _ _ _ _ _] H. by eapply lookup_weaken. Qed.

Lemma evolves_assign k v st :
  registry k st !! v = None →
  evolves st (set_registry k <[v := _currentHandle st]> (set_currentHandle (λ h, h + 1)%N st)).
Proof.
  intros H. split; try by destruct k.
  - intros k'. rewrite registry_set_registry, registry_set_currentHandle.
    case_decide; subst; [by apply insert_subseteq | done].
  - destruct k; cbn; lia.
Qed.

Lemma getOrAssign_run k v st :
  ∃ h st', getOrAssign k v st = (Ok h, st') ∧ evolves st st'
    ∧ registry k st' !! v = Some h ∧ sent st' = sent st.
Proof.
  destruct (registry k st !! v) as [h|] eqn:H.
  - exists h, st. rewrite (getOrAssign_Some _ _ _ h) by done.
    eauto using evolves_refl.
  - eexists _, _. rewrite getOrAssign_None by done.
    split_and!; [done | by apply evolves_assign | | by destruct k].
    rewrite registry_set_registry, decide_True by done. apply lookup_insert_eq.
Qed.

Lemma evolves_set_sent f st st' : evolves st st' → evolves st (set_sent f st').
Proof. intros []. by split. Qed.

Lemma the_button_run v st o :
  v ≫= (buttons st !!.) = Some o →
  ∃ r, v = Some r ∧ the_button v st = (Ok (r, o), st).
Proof.
  destruct v as [r|]; [|done]. cbn. intros H. exists r. split; [done|].
  unfold the_button. rewrite run_bind. cbn. by rewrite H.
Qed.

Lemma the_tab_run v st o :
  v ≫= (tabs st !!.) = Some o →
  ∃ r, v = Some r ∧ the_tab v st = (Ok (r, o), st).
Proof.
  destruct v as [r|]; [|done]. cbn. intros H. exists r. split; [done|].
  unfold the_tab. rewrite run_bind. cbn. by rewrite H.
Qed.

Lemma the_dialog_run d st o :
  dialogs st !! d = Some o → the_dialog (Some d) st = (Ok (d, o), st).
Proof. intros H. unfold the_dialog. rewrite run_bind. cbn. by rewrite H. Qed.

Lemma button_get_run {A} (f : ButtonImpl.t → A) v st o :
  v ≫= (buttons st !!.) = Some o → button_get f v st = (Ok (f o), st).
Proof.
  intros (r & -> & H)%the_button_run. unfold button_get.
  by rewrite (run_bind_Ok _ _ _ _ _ H).
Qed.

Lemma tab_get_run {A} (f : TabImpl.t → A) v st o :
  v ≫= (tabs st !!.) = Some o → tab_get f v st = (Ok (f o), st).
Proof.
  intros (r & -> & H)%the_tab_run. unfold tab_get.
  by rewrite (run_bind_Ok _ _ _ _ _ H).
Qed.

Lemma dialog_get_run {A} (f : DialogImpl.t → A) d st o :
  dialogs st !! d = Some o → dialog_get f (Some d) st = (Ok (f o), st).
Proof.
  intros H%the_dialog_run. unfold dialog_get.
  by rewrite (run_bind_Ok _ _ _ _ _ H).
Qed.

Ltac step H := rewrite (run_bind_Ok _ _ _ _ _ H).

Lemma updateButton_run v st :
  is_button st v →
  ∃ st', updateButton v st = (Ok tt, st') ∧ evolves st st'
    ∧ is_Some (registry KButton st' !! v)
    ∧ sent st' = sent st ++ [button_message st' v].
Proof.
  intros [o Ho]. unfold updateButton. rewrite getButtonHandle_eq.
  destruct (getOrAssign_run KButton v st) as (h & st1 & Hrun & Hev & Hreg & Hsent).
  step Hrun.
  assert (v ≫= (buttons st1 !!.) = Some o) as Ho1 by by rewrite (ev_buttons _ _ Hev).
  step (button_get_run ButtonImpl._label _ _ _ Ho1).
  step (button_get_run ButtonImpl._enabled _ _ _ Ho1).
  eexists. split; [reflexivity|]. split_and!.
  - by apply evolves_set_sent.
  - by exists h.
  - cbn. rewrite Hsent. do 2 f_equal.
    unfold button_message, handle_in, button_details. cbn in *.
    by rewrite Hreg, Ho1.
Qed.

Lemma Tab_updateContent_run v st :
  is_tab st v →
  ∃ st', Tab_updateContent v st = (Ok tt, st') ∧ evolves st st'
    ∧ is_Some (registry KTab st' !! v)
    ∧ sent st' = sent st ++ [tab_message st' v].
Proof.
  intros [o Ho]. unfold Tab_updateContent.
  destruct (the_tab_run _ _ _ Ho) as (r & -> & Hthe). step Hthe.
  unfold updateTabContent. rewrite getTabHandle_eq.
  destruct (getOrAssign_run KTab (Some r) st) as (h & st1 & Hrun & Hev & Hreg & Hsent).
  step Hrun.
  assert (Some r ≫= (tabs st1 !!.) = Some o) as Ho1 by by rewrite (ev_tabs _ _ Hev).
  step (tab_get_run TabImpl.title _ _ _ Ho1).
  step (tab_get_run TabImpl.content _ _ _ Ho1).
  eexists. split; [reflexivity|]. split_and!.
  - by apply evolves_set_sent.
  - by exists h.
  - cbn. rewrite Hsent. do 2 f_equal.
    unfold tab_message, handle_in, tab_details. cbn in *.
    by rewrite Hreg, Ho1.
Qed.

Lemma is_button_evolves st st' v : evolves st st' → is_button st v → is_button st' v.
Proof. intros Hev. unfold is_button. by rewrite (ev_buttons _ _ Hev). Qed.

Lemma is_tab_evolves st st' v : evolves st st' → is_tab st v → is_tab st' v.
Proof. intros Hev. unfold is_tab. by rewrite (ev_tabs _ _ Hev). Qed.

Lemma registered_evolves k st st' v :
  evolves st st' → is_Some (registry k st !! v) → is_Some (registry k st' !! v).
Proof. intros Hev [h Hh]. exists h. by eapply evolves_lookup. Qed.

Lemma handle_in_evolves k st st' v :
  evolves st st' → is_Some (registry k st !! v) → handle_in k st' v = handle_in k st v.
Proof.
  intros Hev [h Hh]. unfold handle_in.
  by rewrite Hh, (evolves_lookup _ _ _ _ _ Hev Hh).
Qed.

Lemma button_message_evolves st st' v :
  evolves st st' → is_Some (registry KButton st !! v) →
  button_message st' v = button_message st v.
Proof.
  intros Hev Hv. unfold button_message, button_details.
  by rewrite (handle_in_evolves _ _ _ _ Hev Hv), (ev_buttons _ _ Hev).
Qed.

Lemma tab_message_evolves st st' v :
  evolves st st' → is_Some (registry KTab st !! v) →
  tab_message st' v = tab_message st v.
Proof.
  intros Hev Hv. unfold tab_message, tab_details.
  by rewrite (handle_in_evolves _ _ _ _ Hev Hv), (ev_tabs _ _ Hev).
Qed.

(** A [forEach] whose body sends one message per element, keyed by a handle it
    registers. *)
Section forEach_run.
Context {A : Type} (f : A → M unit).
Context (good has : State → A → Prop) (msg : State → A → Message).
Hypothesis f_run : ∀ x st, good st x →
  ∃ st', f x st = (Ok tt, st') ∧ evolves st st' ∧ has st' x
    ∧ sent st' = sent st ++ [msg st' x].
Hypothesis good_evolves : ∀ x st st', evolves st st' → good st x → good st' x.
Hypothesis has_evolves : ∀ x st st', evolves st st' → has st x → has st' x.
Hypothesis msg_evolves : ∀ x st st', evolves st st' → has st x → msg st' x = msg st x.

Lemma forEach_run l : ∀ st,
  Forall (good st) l →
  ∃ st', forEach f l st = (Ok tt, st') ∧ evolves st st' ∧ Forall (has st') l
    ∧ sent st' = sent st ++ (msg st' <$> l).
Proof.
  induction l as [|x l IH]; intros st Hl.
  - exists st. cbn. rewrite app_nil_r. eauto using evolves_refl.
  - apply Forall_cons in Hl as [Hx Hl].
    destruct (f_run x st Hx) as (st1 & Hrun & Hev1 & Hhas & Hsent1).
    destruct (IH st1) as (st2 & Hrun2 & Hev2 & Hhas2 & Hsent2).
    { eapply Forall_impl; [exact Hl|]. eauto. }
    exists st2. cbn [forEach]. step Hrun. split_and!.
    + done.
    + by eapply evolves_trans.
    + constructor; eauto.
    + rewrite Hsent2, Hsent1, <-app_assoc. cbn.
      by rewrite (msg_evolves _ _ _ Hev2 Hhas).
Qed.
End forEach_run.

Lemma forEach_updateButton_run l st :
  Forall (is_button st) l →
  ∃ st', forEach updateButton l st = (Ok tt, st') ∧ evolves st st'
    ∧ Forall (λ v, is_Some (registry KButton st' !! v)) l
    ∧ sent st' = sent st ++ (button_message st' <$> l).
Proof.
  apply (forEach_run updateButton is_button
    (λ st v, is_Some (registry KButton st !! v)) button_message).
  - apply updateButton_run.
  - intros ???. apply is_button_evolves.
  - intros ???. apply registered_evolves.
  - intros ???. apply button_message_evolves.
Qed.

Lemma forEach_Tab_updateContent_run l st :
  Forall (is_tab st) l →
  ∃ st', forEach Tab_updateContent l st = (Ok tt, st') ∧ evolves st st'
    ∧ Forall (λ v, is_Some (registry KTab st' !! v)) l
    ∧ sent st' = sent st ++ (tab_message st' <$> l).
Proof.
  apply (forEach_run Tab_updateContent is_tab
    (λ st v, is_Some (registry KTab st !! v)) tab_message).
  - apply Tab_updateContent_run.
  - intros ???. apply is_tab_evolves.
  - intros ???. apply registered_evolves.
  - intros ???. apply tab_message_evolves.
Qed.

Lemma array_map_getOrAssign_run k l st :
  Forall (λ v, is_Some (registry k st !! v)) l →
  array_map (getOrAssign k) l st = (Ok (handle_in k st <$> l), st).
Proof.
  induction 1 as [|v l [h Hh] _ IH]; [done|].
  cbn [array_map]. step (getOrAssign_Some _ _ _ _ Hh). step IH.
  rewrite fmap_cons. unfold handle_in at 2. by rewrite Hh.
Qed.

Lemma sync_tabs_run c st :
  Forall (is_tab st) (content_tabs c) →
  ∃ st',
    match c with
    | Some (ContentTabs tabs) => forEach Tab_updateContent tabs
    | _ => mret tt
    end st = (Ok tt, st') ∧ evolves st st'
    ∧ Forall (λ v, is_Some (registry KTab st' !! v)) (content_tabs c)
    ∧ sent st' = sent st ++ (tab_message st' <$> content_tabs c).
Proof.
  destruct c as [[s|l]|]; cbn [content_tabs].
  - exists st. rewrite app_nil_r. eauto using evolves_refl.
  - apply forEach_Tab_updateContent_run.
  - exists st. rewrite app_nil_r. eauto using evolves_refl.
Qed.

Lemma sync_customButtons_run c st :
  Forall (is_button st) (default [] c) →
  ∃ st',
    match c with
    | Some customButtons => forEach updateButton customButtons
    | None => mret tt
    end st = (Ok tt, st') ∧ evolves st st'
    ∧ Forall (λ v, is_Some (registry KButton st' !! v)) (default [] c)
    ∧ sent st' = sent st ++ (button_message st' <$> default [] c).
Proof.
  destruct c as [l|]; cbn [default].
  - apply forEach_updateButton_run.
  - exists st. rewrite app_nil_r. eauto using evolves_refl.
Qed.

Lemma content_details_run c st :
  Forall (λ v, is_Some (registry KTab st !! v)) (content_tabs c) →
  match c with
  | Some (ContentTabs tabs) =>
      handles ← array_map getTabHandle tabs; mret (Some (DetailsTabs handles))
  | Some (ContentText s) => mret (Some (DetailsText s))
  | None => mret None
  end st = (Ok (content_details st c), st).
Proof.
  destruct c as [[s|l]|]; cbn [content_tabs content_details]; [done| |done].
  intros H. rewrite getTabHandle_eq. by step (array_map_getOrAssign_run _ _ _ H).
Qed.

Lemma customButtons_details_run c st :
  Forall (λ v, is_Some (registry KButton st !! v)) (default [] c) →
  match c with
  | Some customButtons =>
      handles ← array_map getButtonHandle customButtons; mret (Some handles)
  | None => mret None
  end st =
  (Ok ((λ l : list (option ObjRef), handle_in KButton st <$> l) <$> c), st).
Proof.
  destruct c as [l|]; cbn [default]; [|done].
  intros H. rewrite getButtonHandle_eq. by step (array_map_getOrAssign_run _ _ _ H).
Qed.

Lemma Forall_registered_evolves k st st' l :
  evolves st st' →
  Forall (λ v, is_Some (registry k st !! v)) l →
  Forall (λ v, is_Some (registry k st' !! v)) l.
Proof.
  intros Hev H. eapply Forall_impl; [exact H|].
  intros v. by apply registered_evolves.
Qed.

Lemma button_messages_evolves st st' l :
  evolves st st' → Forall (λ v, is_Some (registry KButton st !! v)) l →
  button_message st' <$> l = button_message st <$> l.
Proof.
  intros Hev. induction 1 as [|x l Hx _ IH]; [done|].
  by rewrite !fmap_cons, IH, (button_message_evolves _ _ _ Hev Hx).
Qed.

Lemma tab_messages_evolves st st' l :
  evolves st st' → Forall (λ v, is_Some (registry KTab st !! v)) l →
  tab_message st' <$> l = tab_message st <$> l.
Proof.
  intros Hev. induction 1 as [|x l Hx _ IH]; [done|].
  by rewrite !fmap_cons, IH, (tab_message_evolves _ _ _ Hev Hx).
Qed.

Lemma well_typed_evolves st st' o : evolves st st' → well_typed st o → well_typed st' o.
Proof.
  intros Hev (Ht & Hc & Hok & Hcancel). split_and!.
  - eapply Forall_impl; [exact Ht|]. intros v. by apply is_tab_evolves.
  - eapply Forall_impl; [exact Hc|]. intros v. by apply is_button_evolves.
  - by eapply is_button_evolves.
  - by eapply is_button_evolves.
Qed.

Lemma updateDialogContent_run d o st :
  dialogs st !! d = Some o → well_typed st o →
  ∃ st', updateDialogContent (Some d) st = (Ok tt, st') ∧ evolves st st'
    ∧ synchronized d o st'
    ∧ sent st' = sent st ++ children_messages st' o
        ++ [SetDialogDetails (handle_in KDialog st' (Some d)) (dialog_details st' o)].
Proof.
  intros Hd Hwt. unfold updateDialogContent. rewrite getDialogHandle_eq.
  destruct (getOrAssign_run KDialog (Some d) st) as (h & st0 & Hrun0 & Hev0 & Hreg0 & Hsent0).
  step Hrun0.
  assert (∀ st', evolves st st' → dialogs st' !! d = Some o) as Hd'.
  { intros st' Hev. by rewrite (ev_dialogs _ _ Hev). }
  step (dialog_get_run DialogImpl.content _ _ _ (Hd' _ Hev0)).
  destruct (sync_tabs_run (DialogImpl.content o) st0)
    as (st1 & Hrun1 & Hev1 & Hreg1 & Hsent1).
  { by apply (well_typed_evolves _ _ _ Hev0) in Hwt as (? & _). }
  step Hrun1.
  assert (evolves st st1) as Hev01 by eauto using evolves_trans.
  step (dialog_get_run DialogImpl.customButtons _ _ _ (Hd' _ Hev01)).
  destruct (sync_customButtons_run (DialogImpl.customButtons o) st1)
    as (st2 & Hrun2 & Hev2 & Hreg2 & Hsent2).
  { by apply (well_typed_evolves _ _ _ Hev01) in Hwt as (_ & ? & _). }
  step Hrun2.
  assert (evolves st st2) as Hev02 by eauto using evolves_trans.
  step (dialog_get_run DialogImpl.okButton _ _ _ (Hd' _ Hev02)).
  destruct (updateButton_run (DialogImpl.okButton o) st2)
    as (st3 & Hrun3 & Hev3 & Hreg3 & Hsent3).
  { by apply (well_typed_evolves _ _ _ Hev02) in Hwt as (_ & _ & ? & _). }
  step Hrun3.
  assert (evolves st st3) as Hev03 by eauto using evolves_trans.
  step (dialog_get_run DialogImpl.cancelButton _ _ _ (Hd' _ Hev03)).
  destruct (updateButton_run (DialogImpl.cancelButton o) st3)
    as (st4 & Hrun4 & Hev4 & Hreg4 & Hsent4).
  { by apply (well_typed_evolves _ _ _ Hev03) in Hwt as (_ & _ & _ & ?). }
  step Hrun4.
  assert (evolves st st4) as Hev04 by eauto using evolves_trans.
  assert (synchronized d o st4) as Hsync.
  { split.
    - eapply registered_evolves; [|by exists h].
      eauto using evolves_trans.
    - eapply Forall_registered_evolves; [|exact Hreg1]. eauto using evolves_trans.
    - eapply Forall_registered_evolves; [|exact Hreg2]. eauto using evolves_trans.
    - eapply registered_evolves; [exact Hev4 | exact Hreg3].
    - done. }
  step (dialog_get_run DialogImpl.title _ _ _ (Hd' _ Hev04)).
  step (dialog_get_run DialogImpl.okButton _ _ _ (Hd' _ Hev04)).
  destruct (sync_okButton _ _ _ Hsync) as [hok Hok].
  rewrite getButtonHandle_eq. step (getOrAssign_Some _ _ _ _ Hok).
  step (dialog_get_run DialogImpl.cancelButton _ _ _ (Hd' _ Hev04)).
  destruct (sync_cancelButton _ _ _ Hsync) as [hcancel Hcancel].
  step (getOrAssign_Some _ _ _ _ Hcancel).
  step (dialog_get_run DialogImpl.content _ _ _ (Hd' _ Hev04)).
  step (content_details_run _ _ (sync_tabs _ _ _ Hsync)).
  step (dialog_get_run DialogImpl.customButtons _ _ _ (Hd' _ Hev04)).
  step (customButtons_details_run _ _ (sync_customButtons _ _ _ Hsync)).
  eexists. split; [reflexivity|]. split_and!.
  - by apply evolves_set_sent.
  - by destruct Hsync.
  - set (st' := set_sent _ st4).
    assert (evolves st4 st') as Hev' by (apply evolves_set_sent, evolves_refl).
    assert (sent st' = sent st4 ++
      [SetDialogDetails (handle_in KDialog st' (Some d)) (dialog_details st' o)]) as ->.
    { assert (registry KDialog st4 !! Some d = Some h) as Hh4.
      { eapply evolves_lookup; [|exact Hreg0]. eauto using evolves_trans. }
      assert (handle_in KDialog st' (Some d) = h) as ->.
      { unfold handle_in. change (registry KDialog st') with (registry KDialog st4).
        by rewrite Hh4. }
      assert (handle_in KButton st4 (DialogImpl.okButton o) = hok) as <-.
      { unfold handle_in. by rewrite Hok. }
      assert (handle_in KButton st4 (DialogImpl.cancelButton o) = hcancel) as <-.
      { unfold handle_in. by rewrite Hcancel. }
      reflexivity. }
    assert (evolves st3 st') as Hev3' by eauto using evolves_trans.
    assert (evolves st2 st') as Hev2' by eauto using evolves_trans.
    assert (evolves st1 st') as Hev1' by eauto using evolves_trans.
    rewrite Hsent4, Hsent3, Hsent2, Hsent1, Hsent0.
    rewrite <-(tab_messages_evolves st1 st' _ Hev1' Hreg1).
    rewrite <-(button_messages_evolves st2 st' _ Hev2' Hreg2).
    rewrite <-(button_message_evolves st3 st' _ Hev3' Hreg3).
    rewrite <-(button_message_evolves st4 st' _ Hev' Hreg4).
    unfold children_messages. by rewrite <-!app_assoc.
Qed.

(** ** Rules for triples *)

Lemma hoare_bind {A B} (m : M A) (f : A → M B) P Q R E :
  hoare P m Q E → (∀ a, hoare (Q a) (f a) R E) → hoare P (m ≫= f) R E.
Proof.
  intros Hm Hf st HP. rewrite run_bind. specialize (Hm st HP).
  destruct (m st) as [[a|e] st']; [by apply Hf | done].
Qed.

Lemma hoare_conseq {A} (m : M A) (P P' : State → Prop) (Q Q' : A → State → Prop)
    (E E' : State → Prop) :
  hoare P m Q E → (∀ st, P' st → P st) → (∀ a st, Q a st → Q' a st) →
  (∀ st, E st → E' st) → hoare P' m Q' E'.
Proof.
  intros Hm HP HQ HE st H. specialize (Hm st (HP st H)).
  destruct (m st) as [[a|e] st']; eauto.
Qed.

Lemma hoare_pure {A} (φ : Prop) (m : M A) P Q E :
  (φ → hoare P m Q E) → hoare (λ st, P st ∧ φ) m Q E.
Proof. intros H st [HP Hφ]. by apply H. Qed.

Lemma keeps_bind {A B} (m : M A) (f : A → M B) I E :
  keeps I E m → (∀ a, keeps I E (f a)) → keeps I E (m ≫= f).
Proof. intros Hm Hf. by eapply hoare_bind. Qed.

Lemma keeps_ret {A} (a : A) I E : keeps I E (mret a).
Proof. by intros st H. Qed.

Lemma keeps_throw {A} e (I E : State → Prop) :
  (∀ st, I st → E st) → keeps I E (throw (A:=A) e).
Proof. intros HE st H. by apply HE. Qed.

Lemma keeps_gets {A} (f : State → A) I E : keeps I E (gets f).
Proof. by intros st H. Qed.

Lemma keeps_modify (f : State → State) (I E : State → Prop) :
  (∀ st, I st → I (f st)) → keeps I E (modify f).
Proof. intros H st HI. by apply H. Qed.

Lemma keeps_forEach {A} (f : A → M unit) l I E :
  (∀ x, x ∈ l → keeps I E (f x)) → keeps I E (forEach f l).
Proof.
  induction l as [|x l IH]; intros H; [apply keeps_ret|].
  cbn [forEach]. apply keeps_bind; [apply H; left|].
  intros _. apply IH. intros y Hy. apply H. by right.
Qed.

Lemma keeps_array_map {A B} (f : A → M B) l I E :
  (∀ x, x ∈ l → keeps I E (f x)) → keeps I E (array_map f l).
Proof.
  induction l as [|x l IH]; intros H; [apply keeps_ret|].
  cbn [array_map]. apply keeps_bind; [apply H; left|].
  intros y. apply keeps_bind; [|intros ?; apply keeps_ret].
  apply IH. intros z Hz. apply H. by right.
Qed.

Lemma hoare_bind_keeps {A B} (m : M A) (f : A → M B) I R E :
  keeps I E m → (∀ a, hoare I (f a) R E) → hoare I (m ≫= f) R E.
Proof. intros Hm Hf. by eapply hoare_bind. Qed.

(** Structural steps of a [keeps] proof; what remains are the [modify]
    steps and the calls. *)
Ltac keeps_step :=
  first
    [ apply keeps_ret | apply keeps_gets
    | apply keeps_throw; solve [eauto]
    | match goal with
      | |- keeps _ _ (mbind _ _) => apply keeps_bind; [|intros ?]
      | |- keeps _ _ (match ?x with _ => _ end) => destruct x
      end ].

(** ** Failing synchronizations send no dialog details *)

Lemma children_only_refl st : children_only st st.
Proof. exists []. by rewrite app_nil_r. Qed.

Lemma keeps_children_only_modify st0 f :
  (∀ st, sent (f st) = sent st) →
  keeps (children_only st0) (children_only st0) (modify f).
Proof.
  intros H. apply keeps_modify. intros st (msgs & Hs & Hm).
  exists msgs. by rewrite H.
Qed.

Lemma keeps_children_only_proxy st0 m :
  is_SetDialogDetails m = false →
  keeps (children_only st0) (children_only st0) (proxy m).
Proof.
  intros H. apply keeps_modify. intros st (msgs & Hs & Hm).
  exists (msgs ++ [m]). cbn. rewrite Hs, app_assoc. split; [done|].
  apply Forall_app. by repeat constructor.
Qed.

Lemma keeps_children_only_getOrAssign st0 k v :
  keeps (children_only st0) (children_only st0) (getOrAssign k v).
Proof.
  unfold getOrAssign, getNewHandle.
  repeat keeps_step; apply keeps_children_only_modify; by destruct k.
Qed.

Lemma keeps_children_only_the_button st0 v :
  keeps (children_only st0) (children_only st0) (the_button v).
Proof. unfold the_button. repeat keeps_step. Qed.
Lemma keeps_children_only_the_tab st0 v :
  keeps (children_only st0) (children_only st0) (the_tab v).
Proof. unfold the_tab. repeat keeps_step. Qed.
Lemma keeps_children_only_the_dialog st0 v :
  keeps (children_only st0) (children_only st0) (the_dialog v).
Proof. unfold the_dialog. repeat keeps_step. Qed.

Ltac keeps_children_only :=
  repeat first
    [ apply keeps_children_only_getOrAssign
    | apply keeps_children_only_the_button
    | apply keeps_children_only_the_tab
    | apply keeps_children_only_the_dialog
    | by apply keeps_children_only_proxy
    | keeps_step ].

Lemma keeps_children_only_updateButton st0 v :
  keeps (children_only st0) (children_only st0) (updateButton v).
Proof.
  unfold updateButton, button_get. rewrite getButtonHandle_eq.
  keeps_children_only.
Qed.

Lemma keeps_children_only_Tab_updateContent st0 v :
  keeps (children_only st0) (children_only st0) (Tab_updateContent v).
Proof.
  unfold Tab_updateContent, updateTabContent, tab_get. rewrite getTabHandle_eq.
  keeps_children_only.
Qed.

(** [updateDialogContent] sends the dialog's details last, and only when
    nothing before has thrown. *)
Lemma updateDialogContent_children_first d st0 :
  hoare (children_only st0) (updateDialogContent d) (λ _ _, True) (children_only st0).
Proof.
  unfold updateDialogContent, dialog_get.
  rewrite getDialogHandle_eq, getButtonHandle_eq, getTabHandle_eq.
  repeat
    (apply hoare_bind_keeps;
     [ repeat first
         [ apply keeps_children_only_updateButton
         | apply keeps_children_only_Tab_updateContent
         | apply keeps_children_only_getOrAssign
         | apply keeps_children_only_the_dialog
         | apply keeps_forEach; intros ? _
         | apply keeps_array_map; intros ? _
         | keeps_step ]
     | intros ? ]).
  by intros st H.
Qed.

Lemma updateDialogContent_Throw_children_only d st e st' :
  updateDialogContent d st = (Throw e, st') → children_only st st'.
Proof.
  intros H.
  pose proof (updateDialogContent_children_first d st st (children_only_refl st)) as Hh.
  by rewrite H in Hh.
Qed.

(** ** An [undefined] child makes the synchronization throw *)

Lemma the_button_Throw v st :
  ¬ is_button st v → ∃ e, the_button v st = (Throw e, st).
Proof.
  unfold is_button, the_button. destruct v as [r|]; [|by eexists]. cbn.
  rewrite run_bind. cbn. destruct (buttons st !! r); [|by eexists].
  intros []. by eexists.
Qed.

Lemma the_tab_Throw v st :
  ¬ is_tab st v → ∃ e, the_tab v st = (Throw e, st).
Proof.
  unfold is_tab, the_tab. destruct v as [r|]; [|by eexists]. cbn.
  rewrite run_bind. cbn. destruct (tabs st !! r); [|by eexists].
  intros []. by eexists.
Qed.

Lemma is_button_evolves_inv st st' v :
  evolves st st' → is_button st' v → is_button st v.
Proof. intros Hev. unfold is_button. by rewrite (ev_buttons _ _ Hev). Qed.

Lemma is_tab_evolves_inv st st' v :
  evolves st st' → is_tab st' v → is_tab st v.
Proof. intros Hev. unfold is_tab. by rewrite (ev_tabs _ _ Hev). Qed.

(** [updateButton(undefined)]: the handle is asked for first, then
    [undefined.label] throws. *)
Lemma updateButton_undefined st :
  updateButton undefined st = (Throw TypeError, (getButtonHandle undefined st).2).
Proof.
  unfold updateButton. rewrite run_bind, getButtonHandle_eq.
  by destruct (getOrAssign_run KButton undefined st) as (h & st1 & -> & _).
Qed.

Lemma updateButton_Throw v st :
  v = undefined →
  ∃ st', updateButton v st = (Throw TypeError, st') ∧ evolves st st'.
Proof.
  intros ->. rewrite updateButton_undefined, getButtonHandle_eq.
  destruct (getOrAssign_run KButton undefined st) as (h & st1 & -> & Hev & _).
  by exists st1.
Qed.

Lemma Tab_updateContent_undefined st :
  Tab_updateContent undefined st = (Throw TypeError, st).
Proof. reflexivity. Qed.

Lemma Tab_updateContent_Throw v st :
  v = undefined →
  ∃ st', Tab_updateContent v st = (Throw TypeError, st') ∧ evolves st st'.
Proof. intros ->. exists st. split; [done|apply evolves_refl]. Qed.

Section forEach_Throw.
Context {A : Type} (f : A → M unit) (good : State → A → Prop) (bad : A → Prop).
Context `{∀ st x, Decision (good st x)}.
Hypothesis f_run : ∀ x st, good st x →
  ∃ st', f x st = (Ok tt, st') ∧ evolves st st'.
Hypothesis f_Throw : ∀ x st, bad x →
  ∃ st', f x st = (Throw TypeError, st') ∧ evolves st st'.
Hypothesis good_evolves : ∀ x st st', evolves st st' → good st x → good st' x.
Hypothesis good_evolves_inv : ∀ x st st', evolves st st' → good st' x → good st x.

Lemma forEach_Throw l : ∀ st,
  Forall (λ x, bad x ∨ good st x) l → ¬ Forall (good st) l →
  ∃ st', forEach f l st = (Throw TypeError, st') ∧ evolves st st'.
Proof.
  induction l as [|x l IH]; intros st Ht Hl; [by destruct Hl|].
  apply Forall_cons in Ht as [Hx Ht].
  cbn [forEach]. destruct (decide (good st x)) as [Hg|Hg].
  - destruct (f_run x st Hg) as (st1 & Hrun & Hev). step Hrun.
    destruct (IH st1) as (st2 & Hrun2 & Hev2).
    { eapply Forall_impl; [exact Ht|]. intros y [?|?]; eauto. }
    { contradict Hl. constructor; [done|].
      eapply Forall_impl; [exact Hl|]. intros y. by apply good_evolves_inv. }
    exists st2. eauto using evolves_trans.
  - destruct Hx as [Hb|?]; [|done].
    destruct (f_Throw x st Hb) as (st1 & Hrun & Hev).
    exists st1. split; [|done]. by apply run_bind_Throw.
Qed.
End forEach_Throw.

Lemma updateButton_Ok v st :
  is_button st v → ∃ st', updateButton v st = (Ok tt, st') ∧ evolves st st'.
Proof. intros (st' & ? & ? & _)%updateButton_run. eauto. Qed.

Lemma Tab_updateContent_Ok v st :
  is_tab st v → ∃ st', Tab_updateContent v st = (Ok tt, st') ∧ evolves st st'.
Proof. intros (st' & ? & ? & _)%Tab_updateContent_run. eauto. Qed.

Lemma button_typed_evolves st st' v :
  evolves st st' → button_typed st v → button_typed st' v.
Proof. intros Hev [?|?]; [by left|right]. by eapply is_button_evolves. Qed.

Lemma tab_typed_evolves st st' v :
  evolves st st' → tab_typed st v → tab_typed st' v.
Proof. intros Hev [?|?]; [by left|right]. by eapply is_tab_evolves. Qed.

Lemma button_typed_not_button st v :
  button_typed st v → ¬ is_button st v → v = undefined.
Proof. by intros [?|?]. Qed.

Lemma updateDialogContent_Throw d o st :
  dialogs st !! d = Some o → typed st o → ¬ well_typed st o →
  ∃ st', updateDialogContent (Some d) st = (Throw TypeError, st').
Proof.
  intros Hd (Htt & Htc & Htok & Htcancel) Hwt.
  unfold updateDialogContent. rewrite getDialogHandle_eq.
  destruct (getOrAssign_run KDialog (Some d) st) as (h & st0 & Hrun0 & Hev0 & _).
  step Hrun0.
  assert (∀ st', evolves st st' → dialogs st' !! d = Some o) as Hd'.
  { intros st' Hev. by rewrite (ev_dialogs _ _ Hev). }
  step (dialog_get_run DialogImpl.content _ _ _ (Hd' _ Hev0)).
  destruct (decide (Forall (is_tab st0) (content_tabs (DialogImpl.content o))))
    as [Ht|Ht]; cycle 1.
  { destruct (DialogImpl.content o) as [[s|l]|]; try by destruct Ht.
    destruct (forEach_Throw Tab_updateContent is_tab (λ v, v = undefined)
      Tab_updateContent_Ok Tab_updateContent_Throw
      (λ x st st', is_tab_evolves st st' x)
      (λ x st st', is_tab_evolves_inv st st' x) l st0) as (st1 & Hrun1 & _).
    { eapply Forall_impl; [exact Htt|]. intros v. by apply tab_typed_evolves. }
    { done. }
    exists st1. by apply run_bind_Throw. }
  destruct (sync_tabs_run _ _ Ht) as (st1 & Hrun1 & Hev1 & _). step Hrun1.
  assert (evolves st st1) as Hev01 by eauto using evolves_trans.
  step (dialog_get_run DialogImpl.customButtons _ _ _ (Hd' _ Hev01)).
  destruct (decide (Forall (is_button st1) (default [] (DialogImpl.customButtons o))))
    as [Hc|Hc]; cycle 1.
  { destruct (DialogImpl.customButtons o) as [l|]; try by destruct Hc.
    destruct (forEach_Throw updateButton is_button (λ v, v = undefined)
      updateButton_Ok updateButton_Throw
      (λ x st st', is_button_evolves st st' x)
      (λ x st st', is_button_evolves_inv st st' x) l st1) as (st2 & Hrun2 & _).
    { eapply Forall_impl; [exact Htc|]. intros v. by apply button_typed_evolves. }
    { done. }
    exists st2. by apply run_bind_Throw. }
  destruct (sync_customButtons_run _ _ Hc) as (st2 & Hrun2 & Hev2 & _). step Hrun2.
  assert (evolves st st2) as Hev02 by eauto using evolves_trans.
  step (dialog_get_run DialogImpl.okButton _ _ _ (Hd' _ Hev02)).
  destruct (decide (is_button st2 (DialogImpl.okButton o))) as [Hok|Hok]; cycle 1.
  { destruct (updateButton_Throw (DialogImpl.okButton o) st2) as (st3 & Hrun3 & _).
    { eapply button_typed_not_button; [|exact Hok].
      by eapply button_typed_evolves. }
    exists st3. by apply run_bind_Throw. }
  destruct (updateButton_Ok _ _ Hok) as (st3 & Hrun3 & Hev3). step Hrun3.
  assert (evolves st st3) as Hev03 by eauto using evolves_trans.
  step (dialog_get_run DialogImpl.cancelButton _ _ _ (Hd' _ Hev03)).
  destruct (decide (is_button st3 (DialogImpl.cancelButton o))) as [Hcancel|Hcancel];
    cycle 1.
  { destruct (updateButton_Throw (DialogImpl.cancelButton o) st3) as (st4 & Hrun4 & _).
    { eapply button_typed_not_button; [|exact Hcancel].
      by eapply button_typed_evolves. }
    exists st4. by apply run_bind_Throw. }
  destruct Hwt. split_and!.
  - eapply Forall_impl; [exact Ht|]. intros v. by apply is_tab_evolves_inv.
  - eapply Forall_impl; [exact Hc|]. intros v. by apply is_button_evolves_inv.
  - eapply is_button_evolves_inv; [exact Hev02 | exact Hok].
  - eapply is_button_evolves_inv; [exact Hev03 | exact Hcancel].
Qed.

(** ** The invariant is kept *)

Lemma closed_Some n r : closed n (Some r) = true ↔ (r < n)%positive.
Proof. cbn. by rewrite bool_decide_eq_true. Qed.

Lemma closed_mono n n' v : (n ≤ n')%positive → closed n v = true → closed n' v = true.
Proof.
  destruct v as [r|]; [|done]. rewrite !closed_Some. lia.
Qed.

Lemma forallb_closed_mono n n' l :
  (n ≤ n')%positive → forallb (closed n) l = true → forallb (closed n') l = true.
Proof.
  intros Hn. rewrite !forallb_forall. intros H v Hv. eauto using closed_mono.
Qed.

Lemma closed_dialog_mono n n' o :
  (n ≤ n')%positive → closed_dialog n o = true → closed_dialog n' o = true.
Proof.
  intros Hn. unfold closed_dialog. rewrite !andb_true_iff.
  intros [[[Hc Hok] Hcancel] Hcustom]. split_and!; eauto using closed_mono.
  - destruct (DialogImpl.content o) as [[?|l]|]; cbn in *; eauto using forallb_closed_mono.
  - destruct (DialogImpl.customButtons o) as [l|]; cbn in *; eauto using forallb_closed_mono.
Qed.

Lemma wf_init : wf init.
Proof. split; try done; by intros []. Qed.

Lemma wf_set_heap_next st : wf st → wf (set_heap_next Pos.succ st).
Proof.
  intros [H1 H2 H3 H3' H4 H5]. split; cbn.
  - intros k. specialize (H1 k). by destruct k.
  - intros k1 v1 k2 v2 h. specialize (H2 k1 v1 k2 v2 h). by destruct k1, k2.
  - done.
  - intros h r Hr. apply H3' in Hr. lia.
  - intros k r h Hr. assert (r < heap_next st)%positive; [|lia].
    apply (H4 k r h). by destruct k.
  - intros r o Ho. eapply closed_dialog_mono; [|by eapply H5]. lia.
Qed.

(** Storing a fresh handle: the step [handle = getNewHandle(); map.set(key, handle)],
    whether or not the key had a handle before. *)
Lemma wf_assign k v st :
  wf st → closed (heap_next st) v = true →
  wf (set_registry k <[v := _currentHandle st]> (set_currentHandle (λ h, h + 1)%N st)).
Proof.
  intros [H1 H2 H3 H3' H4 H5] Hv.
  assert (∀ k' v' h,
    registry k' (set_registry k <[v := _currentHandle st]>
      (set_currentHandle (λ h, h + 1)%N st)) !! v' = Some h →
    (k' = k ∧ v' = v ∧ h = _currentHandle st) ∨ registry k' st !! v' = Some h) as Hcase.
  { intros k' v' h. rewrite registry_set_registry, registry_set_currentHandle.
    case_decide; [subst k'|by right].
    rewrite lookup_insert. case_decide; [|by right]. intros [= <-]. by left. }
  split.
  - intros k' v' h [(-> & -> & ->)|Hh]%Hcase.
    + destruct k; cbn; lia.
    + apply H1 in Hh. destruct k; cbn; lia.
  - intros k1 v1 k2 v2 h [(-> & -> & ->)|Hh1]%Hcase [(-> & -> & Hh)|Hh2]%Hcase.
    + done.
    + apply H1 in Hh2. lia.
    + apply H1 in Hh1. lia.
    + eauto.
  - intros h c Hc. assert (h < _currentHandle st)%N.
    { apply (H3 h c). by destruct k. }
    destruct k; cbn; lia.
  - intros h r Hr. destruct k; by apply (H3' h r).
  - intros k' r h [(-> & <- & ->)|Hh]%Hcase.
    + apply closed_Some in Hv. by destruct k.
    + apply H4 in Hh. by destruct k.
  - intros r o Ho. destruct k; by apply (H5 r o).
Qed.

(** The registries are untouched: their three clauses carry over. *)
Ltac wf_registries H1 H2 H4 :=
  try match goal with
  | |- ∀ k v h, registry k _ !! v = Some h → (h < _)%N =>
      let k := fresh in intros k; specialize (H1 k); by destruct k
  | |- ∀ k1 v1 k2 v2 h, _ → _ → _ ∧ _ =>
      let k1 := fresh in let k2 := fresh in let v1 := fresh in let v2 := fresh in
      let h := fresh in
      intros k1 v1 k2 v2 h; specialize (H2 k1 v1 k2 v2 h); by destruct k1, k2
  | |- ∀ k r h, registry k _ !! Some r = Some h → (r < _)%positive =>
      let k := fresh in intros k; specialize (H4 k); by destruct k
  end.

Lemma wf_set_sent f st : wf st → wf (set_sent f st).
Proof.
  intros [H1 H2 H3 H3' H4 H5]. split; [wf_registries H1 H2 H4..]; done.
Qed.

Lemma wf_set_fired f st : wf st → wf (set_fired f st).
Proof.
  intros [H1 H2 H3 H3' H4 H5]. split; [wf_registries H1 H2 H4..]; done.
Qed.

Lemma wf_set_buttons f st : wf st → wf (set_buttons f st).
Proof.
  intros [H1 H2 H3 H3' H4 H5]. split; [wf_registries H1 H2 H4..]; done.
Qed.

Lemma wf_set_tabs f st : wf st → wf (set_tabs f st).
Proof.
  intros [H1 H2 H3 H3' H4 H5]. split; [wf_registries H1 H2 H4..]; done.
Qed.

Lemma wf_set_dialogs r o st :
  wf st → closed_dialog (heap_next st) o = true → wf (set_dialogs <[r := o]> st).
Proof.
  intros [H1 H2 H3 H3' H4 H5] Ho. split; [wf_registries H1 H2 H4..]; [done..|].
  intros r' o'. cbn. rewrite lookup_insert. case_decide; [|by apply H5].
  by intros [= <-].
Qed.

Lemma wf_set_onClickCallbacks h r st :
  wf st → (h < _currentHandle st)%N → (r < heap_next st)%positive →
  wf (set_onClickCallbacks <[h := OnClickFire r]> st).
Proof.
  intros [H1 H2 H3 H3' H4 H5] Hh Hr. split; [wf_registries H1 H2 H4..]; [| |done].
  - intros h' c'. cbn. rewrite lookup_insert. case_decide; [by intros; subst|].
    apply H3.
  - intros h' r'. cbn. rewrite lookup_insert. case_decide; [by intros [= <-]|].
    apply H3'.
Qed.

Lemma wf_at_wf n st : wf_at n st → wf st.
Proof. by intros []. Qed.

#[local] Hint Resolve wf_at_wf : core.

Lemma getOrAssign_wf n k v :
  closed n v = true →
  hoare (wf_at n) (getOrAssign k v)
    (λ h st, wf_at n st ∧ (h < _currentHandle st)%N) wf.
Proof.
  intros Hv st [Hwf Hn]. destruct (registry k st !! v) as [h|] eqn:H.
  - rewrite (getOrAssign_Some _ _ _ h) by done.
    split; [done|]. by eapply wf_allocated.
  - rewrite getOrAssign_None by done. subst n. split; [split|].
    + by apply wf_assign.
    + by destruct k.
    + destruct k; cbn; lia.
Qed.

Lemma keeps_wf_getOrAssign n k v :
  closed n v = true → keeps (wf_at n) wf (getOrAssign k v).
Proof.
  intros Hv. eapply hoare_conseq; [by apply getOrAssign_wf|done| |done].
  by intros h st [].
Qed.

Lemma keeps_wf_modify n f :
  (∀ st, wf st → wf (f st)) → (∀ st, heap_next (f st) = heap_next st) →
  keeps (wf_at n) wf (modify f).
Proof.
  intros Hwf Hn. apply keeps_modify. intros st [? <-]. split; eauto.
Qed.

Lemma keeps_wf_proxy n m : keeps (wf_at n) wf (proxy m).
Proof. apply keeps_wf_modify; [apply wf_set_sent|done]. Qed.

Lemma keeps_wf_fire n b : keeps (wf_at n) wf (fire b).
Proof. apply keeps_wf_modify; [apply wf_set_fired|done]. Qed.

Ltac keeps_wf_basic :=
  repeat first
    [ apply keeps_wf_proxy | apply keeps_wf_fire
    | apply keeps_wf_getOrAssign; solve [auto]
    | keeps_step ].

Lemma keeps_wf_the_button n v : keeps (wf_at n) wf (the_button v).
Proof. unfold the_button. keeps_wf_basic. Qed.

Lemma keeps_wf_the_tab n v : keeps (wf_at n) wf (the_tab v).
Proof. unfold the_tab. keeps_wf_basic. Qed.

Lemma keeps_wf_the_dialog n v : keeps (wf_at n) wf (the_dialog v).
Proof. unfold the_dialog. keeps_wf_basic. Qed.

Lemma keeps_wf_button_get {A} n (f : _ → A) v : keeps (wf_at n) wf (button_get f v).
Proof.
  unfold button_get. apply keeps_bind; [apply keeps_wf_the_button|].
  intros []. apply keeps_ret.
Qed.

Lemma keeps_wf_tab_get {A} n (f : _ → A) v : keeps (wf_at n) wf (tab_get f v).
Proof.
  unfold tab_get. apply keeps_bind; [apply keeps_wf_the_tab|].
  intros []. apply keeps_ret.
Qed.

Lemma keeps_wf_button_put n f v : keeps (wf_at n) wf (button_put f v).
Proof.
  unfold button_put. apply keeps_bind; [apply keeps_wf_the_button|].
  intros []. apply keeps_wf_modify; [apply wf_set_buttons|done].
Qed.

Lemma keeps_wf_tab_put n f v : keeps (wf_at n) wf (tab_put f v).
Proof.
  unfold tab_put. apply keeps_bind; [apply keeps_wf_the_tab|].
  intros []. apply keeps_wf_modify; [apply wf_set_tabs|done].
Qed.

(** What is read from a dialog refers to existing objects. *)
Lemma the_dialog_wf n d :
  hoare (wf_at n) (the_dialog d)
    (λ p st, wf_at n st ∧ closed_dialog n p.2 = true) wf.
Proof.
  intros st [Hwf Hn]. unfold the_dialog. destruct d as [r|]; [|done].
  rewrite run_bind. cbn. destruct (dialogs st !! r) as [o|] eqn:Ho; [|done].
  cbn. split; [done|]. subst n. by eapply wf_dialogs.
Qed.

Lemma keeps_wf_dialog_get_bind {A B} n (f : DialogImpl.t → A) d (k : A → M B) :
  (∀ o, closed_dialog n o = true → keeps (wf_at n) wf (k (f o))) →
  keeps (wf_at n) wf (dialog_get f d ≫= k).
Proof.
  intros Hk st Hst. unfold dialog_get. rewrite !run_bind.
  pose proof (the_dialog_wf n d st Hst) as H.
  destruct (the_dialog d st) as [[[r o]|e] st']; cbn in *; [|done].
  destruct H as [Hst' Ho]. apply (Hk o Ho st' Hst').
Qed.

Lemma closed_dialog_fields n o :
  closed_dialog n o = true →
  closed_content n (DialogImpl.content o) = true
  ∧ closed n (DialogImpl.okButton o) = true
  ∧ closed n (DialogImpl.cancelButton o) = true
  ∧ closed_list n (DialogImpl.customButtons o) = true.
Proof. unfold closed_dialog. rewrite !andb_true_iff. tauto. Qed.

Lemma forallb_closed_elem n l (x : option ObjRef) :
  forallb (closed n) l = true → x ∈ l → closed n x = true.
Proof. rewrite forallb_forall. intros H Hx. apply H. by apply list_elem_of_In. Qed.

Lemma keeps_wf_updateButton n v :
  closed n v = true → keeps (wf_at n) wf (updateButton v).
Proof.
  intros Hv. unfold updateButton. rewrite getButtonHandle_eq.
  repeat first [ apply keeps_wf_button_get | keeps_wf_basic ].
Qed.

Lemma keeps_wf_updateTabContent n v :
  closed n v = true → keeps (wf_at n) wf (updateTabContent v).
Proof.
  intros Hv. unfold updateTabContent. rewrite getTabHandle_eq.
  repeat first [ apply keeps_wf_tab_get | keeps_wf_basic ].
Qed.

Lemma keeps_wf_Tab_updateContent n v :
  closed n v = true → keeps (wf_at n) wf (Tab_updateContent v).
Proof.
  intros Hv. unfold Tab_updateContent.
  apply keeps_bind; [apply keeps_wf_the_tab|]. intros _.
  by apply keeps_wf_updateTabContent.
Qed.

Ltac keeps_wf_dialog :=
  repeat first
    [ apply keeps_wf_dialog_get_bind;
      let o := fresh "o" in
      intros o (? & ? & ? & ?)%closed_dialog_fields
    | apply keeps_wf_updateButton; solve [eauto using forallb_closed_elem]
    | apply keeps_wf_Tab_updateContent; solve [eauto using forallb_closed_elem]
    | apply keeps_wf_getOrAssign; solve [eauto using forallb_closed_elem]
    | apply keeps_wf_proxy
    | apply keeps_forEach; intros ? ?
    | apply keeps_array_map; intros ? ?
    | match goal with
      | H : closed_content _ ?c = true |- keeps _ _ (match ?c with _ => _ end ≫= _) =>
          destruct c as [[?|?]|]; cbn in H
      | H : closed_list _ ?c = true |- keeps _ _ (match ?c with _ => _ end ≫= _) =>
          destruct c as [?|]; cbn in H
      end
    | keeps_step ].

Lemma keeps_wf_updateDialogContent n d :
  closed n d = true → keeps (wf_at n) wf (updateDialogContent d).
Proof.
  intros Hd. unfold updateDialogContent.
  rewrite getDialogHandle_eq, getButtonHandle_eq, getTabHandle_eq.
  keeps_wf_dialog.
Qed.

Lemma keeps_wf_open n d : closed n d = true → keeps (wf_at n) wf (open d).
Proof.
  intros Hd. unfold open. rewrite getDialogHandle_eq.
  repeat first [ by apply keeps_wf_updateDialogContent | keeps_wf_basic ].
Qed.

Lemma keeps_wf_close n d : closed n d = true → keeps (wf_at n) wf (close d).
Proof. intros Hd. unfold close. rewrite getDialogHandle_eq. keeps_wf_basic. Qed.

Lemma keeps_wf_set_label n v l : closed n v = true → keeps (wf_at n) wf (set_label v l).
Proof.
  intros Hv. unfold set_label.
  apply keeps_bind; [apply keeps_wf_button_put|]. intros _.
  by apply keeps_wf_updateButton.
Qed.

Lemma keeps_wf_set_enabled n v e :
  closed n v = true → keeps (wf_at n) wf (set_enabled v e).
Proof.
  intros Hv. unfold set_enabled.
  apply keeps_bind; [apply keeps_wf_button_put|]. intros _.
  by apply keeps_wf_updateButton.
Qed.

Lemma keeps_wf_onButtonClick n h : keeps (wf_at n) wf (onButtonClick h).
Proof. unfold onButtonClick, call. keeps_wf_basic. Qed.

Lemma keeps_wf_registerOnClickCallback n v r :
  closed n v = true → (r < n)%positive →
  keeps (wf_at n) wf (registerOnClickCallback v (OnClickFire r)).
Proof.
  intros Hv Hr. unfold registerOnClickCallback. rewrite getButtonHandle_eq.
  eapply hoare_bind; [by apply getOrAssign_wf|].
  intros h st [[Hwf Hn] Hh]. split; [|done].
  apply wf_set_onClickCallbacks; [done..|]. by rewrite Hn.
Qed.

Lemma keeps_wf_dialog_put n f d :
  (∀ o, closed_dialog n o = true → closed_dialog n (f o) = true) →
  keeps (wf_at n) wf (dialog_put f d).
Proof.
  intros Hf. unfold dialog_put.
  eapply hoare_bind; [apply the_dialog_wf|].
  intros [r o] st [[Hwf Hn] Ho]. split; [|done].
  apply wf_set_dialogs; [done|]. rewrite Hn. by apply Hf.
Qed.

Lemma new_ref_wf n :
  hoare (wf_at n) new_ref (λ r st, wf_at (Pos.succ n) st ∧ r = n) wf.
Proof.
  intros st [Hwf <-]. cbn. split; [|done]. split; [|done].
  by apply wf_set_heap_next.
Qed.

Lemma hoare_wf_assign_bind {B} n k v (K : N → M B) R :
  closed n v = true → (∀ h, hoare (wf_at n) (K h) R wf) →
  hoare (wf_at n)
    (handle ← getNewHandle; modify (set_registry k <[v := handle]>);; K handle) R wf.
Proof.
  intros Hv HK st [Hwf <-].
  change ((handle ← getNewHandle; modify (set_registry k <[v := handle]>);; K handle) st)
    with (K (_currentHandle st)
      (set_registry k <[v := _currentHandle st]> (set_currentHandle (λ h, h + 1)%N st))).
  apply HK. split; [by apply wf_assign|by destruct k].
Qed.

Lemma closed_succ n : closed (Pos.succ n) (Some n) = true.
Proof. apply closed_Some. lia. Qed.

#[local] Hint Resolve closed_succ : core.

Lemma createButton_wf n label :
  hoare (wf_at n) (createButton label) (λ r st, wf_at (Pos.succ n) st ∧ r = n) wf.
Proof.
  unfold createButton. eapply hoare_bind; [apply new_ref_wf|].
  intros r. apply hoare_pure. intros ->.
  apply hoare_bind_keeps; [apply keeps_wf_modify; [apply wf_set_buttons|done]|].
  intros _. apply hoare_bind_keeps; [by apply keeps_wf_set_label|].
  intros _. apply (hoare_wf_assign_bind _ KButton); [done|].
  intros h. apply hoare_bind_keeps.
  { apply keeps_wf_registerOnClickCallback; [done|lia]. }
  intros _ st Hst. by split.
Qed.

Lemma createTab_wf n title :
  hoare (wf_at n) (createTab title) (λ r st, wf_at (Pos.succ n) st ∧ r = n) wf.
Proof.
  unfold createTab. eapply hoare_bind; [apply new_ref_wf|].
  intros r. apply hoare_pure. intros ->.
  apply hoare_bind_keeps; [apply keeps_wf_modify; [apply wf_set_tabs|done]|].
  intros _. apply hoare_bind_keeps; [by apply keeps_wf_tab_put|].
  intros _. apply (hoare_wf_assign_bind _ KTab); [done|].
  intros h st Hst. by split.
Qed.

Lemma closed_dialog_with_title n v o :
  closed_dialog n o = true → closed_dialog n (DialogImpl.with_title v o) = true.
Proof. done. Qed.

Lemma closed_dialog_with_content n v o :
  closed_content n v = true → closed_dialog n o = true →
  closed_dialog n (DialogImpl.with_content v o) = true.
Proof.
  unfold closed_dialog. cbn. rewrite !andb_true_iff. tauto.
Qed.

Lemma closed_dialog_with_okButton n v o :
  closed n v = true → closed_dialog n o = true →
  closed_dialog n (DialogImpl.with_okButton v o) = true.
Proof.
  unfold closed_dialog. cbn. rewrite !andb_true_iff. tauto.
Qed.

Lemma closed_dialog_with_cancelButton n v o :
  closed n v = true → closed_dialog n o = true →
  closed_dialog n (DialogImpl.with_cancelButton v o) = true.
Proof.
  unfold closed_dialog. cbn. rewrite !andb_true_iff. tauto.
Qed.

Lemma closed_dialog_with_customButtons n v o :
  closed_list n v = true → closed_dialog n o = true →
  closed_dialog n (DialogImpl.with_customButtons v o) = true.
Proof.
  unfold closed_dialog. cbn. rewrite !andb_true_iff. tauto.
Qed.

Lemma new_DialogImpl_wf n :
  hoare (wf_at n) new_DialogImpl
    (λ r st, wf_at (Pos.succ (Pos.succ (Pos.succ n))) st ∧ r = n) wf.
Proof.
  unfold new_DialogImpl. eapply hoare_bind; [apply new_ref_wf|].
  intros r. apply hoare_pure. intros ->.
  apply hoare_bind_keeps.
  { apply keeps_modify. intros st [Hwf Hn]. split; [|done].
    by apply wf_set_dialogs. }
  intros _. eapply hoare_bind; [apply createButton_wf|].
  intros ok. apply hoare_pure. intros ->.
  apply hoare_bind_keeps.
  { apply keeps_wf_dialog_put. intros o. apply closed_dialog_with_okButton.
    apply closed_Some. lia. }
  intros _. eapply hoare_bind; [apply createButton_wf|].
  intros cancel. apply hoare_pure. intros ->.
  apply hoare_bind_keeps.
  { apply keeps_wf_dialog_put. intros o. apply closed_dialog_with_cancelButton.
    apply closed_Some. lia. }
  intros _ st Hst. by split.
Qed.

Lemma createDialog_wf n title :
  hoare (wf_at n) (createDialog title)
    (λ r st, wf_at (Pos.succ (Pos.succ (Pos.succ n))) st ∧ r = n) wf.
Proof.
  unfold createDialog. eapply hoare_bind; [apply new_DialogImpl_wf|].
  intros r. apply hoare_pure. intros ->.
  apply hoare_bind_keeps.
  { apply keeps_wf_dialog_put. intros o. apply closed_dialog_with_title. }
  intros _. apply (hoare_wf_assign_bind _ KDialog); [apply closed_Some; lia|].
  intros h st Hst. by split.
Qed.

Lemma hoare_forget {A} n (m : M A) (Q : A → State → Prop) :
  hoare (wf_at n) m Q wf → (∀ a st, Q a st → wf st) →
  hoare (wf_at n) (m;; mret tt) (λ _, wf) wf.
Proof.
  intros Hm HQ. eapply hoare_bind; [exact Hm|].
  intros a st Hst. cbn. eauto.
Qed.

Lemma run_op_wf n op :
  closed_op n op = true → hoare (wf_at n) (run_op op) (λ _, wf) wf.
Proof.
  assert (∀ m : M unit, keeps (wf_at n) wf m → hoare (wf_at n) m (λ _, wf) wf) as Hk.
  { intros m Hm. eapply hoare_conseq; [exact Hm|done| |done]. by intros _ st []. }
  destruct op; cbn [closed_op run_op]; rewrite ?andb_true_iff; intros Hop.
  - eapply hoare_forget; [apply createDialog_wf|]. by intros r st [[] _].
  - eapply hoare_forget; [apply createTab_wf|]. by intros r st [[] _].
  - eapply hoare_forget; [apply createButton_wf|]. by intros r st [[] _].
  - apply Hk, keeps_wf_dialog_put. intros o. apply closed_dialog_with_title.
  - destruct Hop as [Hd Hv]. apply Hk, keeps_wf_dialog_put.
    intros o. by apply closed_dialog_with_content.
  - destruct Hop as [Hd Hv]. apply Hk, keeps_wf_dialog_put.
    intros o. by apply closed_dialog_with_okButton.
  - destruct Hop as [Hd Hv]. apply Hk, keeps_wf_dialog_put.
    intros o. by apply closed_dialog_with_cancelButton.
  - destruct Hop as [Hd Hv]. apply Hk, keeps_wf_dialog_put.
    intros o. by apply closed_dialog_with_customButtons.
  - apply Hk. unfold Dialog_open.
    apply keeps_bind; [apply keeps_wf_the_dialog|]. intros _. by apply keeps_wf_open.
  - apply Hk. unfold Dialog_close.
    apply keeps_bind; [apply keeps_wf_the_dialog|]. intros _. by apply keeps_wf_close.
  - apply Hk. unfold Dialog_updateContent.
    apply keeps_bind; [apply keeps_wf_the_dialog|]. intros _.
    by apply keeps_wf_updateDialogContent.
  - apply Hk, keeps_wf_tab_put.
  - apply Hk, keeps_wf_tab_put.
  - by apply Hk, keeps_wf_Tab_updateContent.
  - by apply Hk, keeps_wf_set_label.
  - by apply Hk, keeps_wf_set_enabled.
  - apply Hk, keeps_wf_onButtonClick.
Qed.

Lemma wf_run_op op st :
  wf st → closed_op (heap_next st) op = true → wf (run_op op st).2.
Proof.
  intros Hwf Hop.
  pose proof (run_op_wf _ op Hop st (conj Hwf eq_refl)) as H.
  by destruct (run_op op st) as [[[]|e] st'].
Qed.

Lemma wf_run_ops ops : ∀ st,
  wf st → closed_ops ops st = true → wf (run_ops ops st).
Proof.
  induction ops as [|op ops IH]; intros st Hwf Hops; [done|].
  cbn in Hops. apply andb_true_iff in Hops as [Hop Hops].
  cbn [run_ops]. apply IH; [by apply wf_run_op|done].
Qed.

Lemma reachable_wf st : reachable st → wf st.
Proof. intros (ops & Hops & <-). apply wf_run_ops; [apply wf_init|done]. Qed.

(** ** The factories, step by step *)

Lemma createButton_run label st :
  _buttonHandles st !! Some (heap_next st) = None →
  createButton label st =
    (Ok (heap_next st),
     mkState (_currentHandle st + 1 + 1)%N (_dialogHandles st) (_tabHandles st)
       (<[Some (heap_next st) := (_currentHandle st + 1)%N]>
          (<[Some (heap_next st) := _currentHandle st]> (_buttonHandles st)))
       (<[(_currentHandle st + 1)%N := OnClickFire (heap_next st)]> (_onClickCallbacks st))
       (Pos.succ (heap_next st)) (dialogs st) (tabs st)
       (<[heap_next st := ButtonImpl.mk (Some label) true]>
          (<[heap_next st := ButtonImpl.new]> (buttons st)))
       (sent st ++ [SetButtonDetails (_currentHandle st)
          {| bd_label := Some label; bd_enabled := true |}])
       (fired st)).
Proof.
  intros Hfresh. destruct st as [c dh th bh cb n ds ts bs s f]. cbn in *.
  unfold createButton, new_ref, set_label, button_put, the_button, updateButton,
    button_get, the_button, getButtonHandle, getNewHandle, registerOnClickCallback,
    getButtonHandle, getNewHandle, proxy.
  unfold mbind, M_bind, mret, M_ret, modify, gets, throw. cbn.
  rewrite lookup_insert_eq. cbn. rewrite Hfresh. cbn.
  repeat (rewrite lookup_insert_eq; cbn). reflexivity.
Qed.

(** ** Registered handles and callbacks stay *)

Lemma advances_refl st : advances st st.
Proof. split; try reflexivity; [|done]. intros h r H1 H2. congruence. Qed.

Lemma advances_trans st1 st2 st3 :
  advances st1 st2 → advances st2 st3 → advances st1 st3.
Proof.
  intros [Hr1 Hc1 Hn1 Hh1 Hp1 Hb1] [Hr2 Hc2 Hn2 Hh2 Hp2 Hb2]. split.
  - intros k. etrans; eauto.
  - etrans; eauto.
  - intros h r H3 H1. destruct (_onClickCallbacks st2 !! h) as [c|] eqn:H2.
    + apply (Hn1 h r); [|done].
      rewrite <-H3, H2. symmetry. by eapply lookup_weaken.
    + specialize (Hn2 h r H3 H2). lia.
  - lia.
  - lia.
  - eauto.
Qed.

Lemma evolves_advances st st' : evolves st st' → advances st st'.
Proof.
  intros [Hr Hc Hcb Hn _ _ Hb _]. split; [done| | |done| |].
  - by rewrite Hcb.
  - rewrite Hcb. congruence.
  - by rewrite Hn.
  - by rewrite Hb.
Qed.

Lemma keeps_advances_modify st0 f :
  (∀ st, advances st (f st)) →
  keeps (advances st0) (advances st0) (modify f).
Proof.
  intros H. apply keeps_modify. intros st Hst. eauto using advances_trans.
Qed.

Lemma advances_set_sent f st : advances st (set_sent f st).
Proof. apply evolves_advances, evolves_set_sent, evolves_refl. Qed.

Lemma advances_set_fired f st : advances st (set_fired f st).
Proof. split; [by intros []|done|cbn; congruence|done..]. Qed.

Lemma advances_set_buttons r o st : advances st (set_buttons <[r := o]> st).
Proof.
  split; [by intros []|done|cbn; congruence|done..|].
  intros r' Hr'. cbn. rewrite lookup_insert. by case_decide.
Qed.

Lemma advances_set_tabs f st : advances st (set_tabs f st).
Proof. split; [by intros []|done|cbn; congruence|done..]. Qed.

Lemma advances_set_dialogs f st : advances st (set_dialogs f st).
Proof. split; [by intros []|done|cbn; congruence|done..]. Qed.

Lemma keeps_advances_getOrAssign st0 k v :
  keeps (advances st0) (advances st0) (getOrAssign k v).
Proof.
  intros st Hst. destruct (getOrAssign_run k v st) as (h & st' & -> & Hev & _).
  eauto using advances_trans, evolves_advances.
Qed.

Ltac keeps_advances :=
  repeat first
    [ apply keeps_advances_getOrAssign
    | apply keeps_advances_modify;
      first [ apply advances_set_sent | apply advances_set_fired
            | apply advances_set_buttons | apply advances_set_tabs
            | apply advances_set_dialogs ]
    | apply keeps_forEach; intros ? _
    | apply keeps_array_map; intros ? _
    | match goal with
      | |- keeps _ _ (let '(_, _) := ?x in _) => destruct x
      | |- keeps _ _ (mbind (λ '(_, _), _) _) => apply keeps_bind; [|intros []]
      end
    | keeps_step ].

Lemma keeps_advances_run_op st0 op :
  match op with CreateDialog _ | CreateTab _ | CreateButton _ => False | _ => True end →
  keeps (advances st0) (advances st0) (run_op op).
Proof.
  destruct op; intros []; cbn [run_op];
    unfold Dialog_open, Dialog_close, Dialog_updateContent, open, close,
      updateDialogContent, Tab_updateContent, updateTabContent, set_label,
      set_enabled, updateButton, onButtonClick, call, fire, proxy,
      dialog_put, tab_put, button_put, dialog_get, tab_get, button_get,
      the_dialog, the_tab, the_button;
    rewrite ?getDialogHandle_eq, ?getButtonHandle_eq, ?getTabHandle_eq;
    keeps_advances.
Qed.

Lemma createTab_run title st :
  createTab title st =
    (Ok (heap_next st),
     mkState (_currentHandle st + 1)%N (_dialogHandles st)
       (<[Some (heap_next st) := _currentHandle st]> (_tabHandles st))
       (_buttonHandles st) (_onClickCallbacks st) (Pos.succ (heap_next st))
       (dialogs st)
       (<[heap_next st := TabImpl.mk (Some title) None]>
          (<[heap_next st := TabImpl.new]> (tabs st)))
       (buttons st) (sent st) (fired st)).
Proof.
  destruct st as [c dh th bh cb n ds ts bs s f]. cbn.
  unfold createTab, new_ref, tab_put, the_tab, getNewHandle.
  unfold mbind, M_bind, mret, M_ret, modify, gets, throw. cbn.
  by rewrite lookup_insert_eq.
Qed.

Lemma createDialog_run title st :
  let n := heap_next st in
  let n1 := Pos.succ n in
  let n2 := Pos.succ n1 in
  let c := _currentHandle st in
  _buttonHandles st !! Some n1 = None →
  _buttonHandles st !! Some n2 = None →
  createDialog title st =
    (Ok n,
     mkState (c + 1 + 1 + 1 + 1 + 1)%N
       (<[Some n := (c + 1 + 1 + 1 + 1)%N]> (_dialogHandles st))
       (_tabHandles st)
       (<[Some n2 := (c + 1 + 1 + 1)%N]> (<[Some n2 := (c + 1 + 1)%N]>
          (<[Some n1 := (c + 1)%N]> (<[Some n1 := c]> (_buttonHandles st)))))
       (<[(c + 1 + 1 + 1)%N := OnClickFire n2]>
          (<[(c + 1)%N := OnClickFire n1]> (_onClickCallbacks st)))
       (Pos.succ n2)
       (<[n := DialogImpl.mk (Some title) None (Some n1) (Some n2) None]>
          (<[n := DialogImpl.mk None None (Some n1) (Some n2) None]>
             (<[n := DialogImpl.mk None None (Some n1) None None]>
                (<[n := DialogImpl.new]> (dialogs st)))))
       (tabs st)
       (<[n2 := ButtonImpl.mk (Some "Cancel") true]> (<[n2 := ButtonImpl.new]>
          (<[n1 := ButtonImpl.mk (Some "Done") true]> (<[n1 := ButtonImpl.new]>
             (buttons st)))))
       (sent st ++
          [SetButtonDetails c {| bd_label := Some "Done"; bd_enabled := true |}] ++
          [SetButtonDetails (c + 1 + 1)%N
             {| bd_label := Some "Cancel"; bd_enabled := true |}])
       (fired st)).
Proof.
  intros n n1 n2 c H1 H2. subst n n1 n2 c.
  destruct st as [c dh th bh cb n ds ts bs s f]. cbn in *.
  unfold createDialog, new_DialogImpl, new_ref, dialog_put, the_dialog,
    getNewHandle, localize.
  unfold mbind, M_bind, mret, M_ret, modify, gets, throw. cbn -[createButton].
  rewrite createButton_run by done. cbn -[createButton].
  rewrite lookup_insert_eq. cbn -[createButton].
  rewrite createButton_run; cbn -[createButton]; cycle 1.
  { rewrite !lookup_insert_ne by (intros [=]; lia). done. }
  repeat (rewrite lookup_insert_eq; cbn). by rewrite <-app_assoc.
Qed.


Lemma wf_fresh_ref k r st :
  wf st → (heap_next st ≤ r)%positive → registry k st !! Some r = None.
Proof.
  intros Hwf Hr. destruct (registry k st !! Some r) as [h|] eqn:H; [|done].
  apply (wf_registered _ Hwf) in H. lia.
Qed.

Lemma wf_fresh_handle h st :
  wf st → (_currentHandle st ≤ h)%N → _onClickCallbacks st !! h = None.
Proof.
  intros Hwf Hh. destruct (_onClickCallbacks st !! h) as [c|] eqn:H; [|done].
  apply (wf_callbacks _ Hwf) in H. lia.
Qed.

Lemma insert_subseteq_fresh `{Countable K} {A} (m1 m2 : gmap K A) i x :
  m1 !! i = None → m1 ⊆ m2 → m1 ⊆ <[i := x]> m2.
Proof.
  intros Hi Hm. apply map_subseteq_spec. intros j y Hj.
  rewrite lookup_insert_ne by congruence. by eapply lookup_weaken.
Qed.

Lemma advances_createButton label st :
  wf st → advances st (createButton label st).2.
Proof.
  intros Hwf. rewrite createButton_run by (apply (wf_fresh_ref KButton); [done|lia]).
  pose proof (wf_fresh_ref KButton (heap_next st) st Hwf ltac:(lia)) as Hb.
  cbn in Hb |- *. split; cbn.
  - intros []; cbn; [done|done|].
    do 2 (apply insert_subseteq_fresh; [done|]). done.
  - apply insert_subseteq_fresh; [|done]. apply wf_fresh_handle; [done|lia].
  - intros h r. rewrite lookup_insert. case_decide; [|congruence].
    intros [= <-]. lia.
  - lia.
  - lia.
  - intros r Hr. rewrite !lookup_insert. by repeat case_decide.
Qed.

Lemma advances_createTab title st :
  wf st → advances st (createTab title st).2.
Proof.
  intros Hwf. rewrite createTab_run.
  pose proof (wf_fresh_ref KTab (heap_next st) st Hwf ltac:(lia)) as Hb.
  cbn in Hb |- *. split; cbn.
  - intros []; cbn; [done| |done]. by apply insert_subseteq_fresh.
  - done.
  - congruence.
  - lia.
  - lia.
  - done.
Qed.

Lemma advances_createDialog title st :
  wf st → advances st (createDialog title st).2.
Proof.
  intros Hwf.
  pose proof (wf_fresh_ref KButton (Pos.succ (heap_next st)) st Hwf ltac:(lia)) as H1.
  pose proof (wf_fresh_ref KButton (Pos.succ (Pos.succ (heap_next st))) st Hwf
    ltac:(lia)) as H2.
  pose proof (wf_fresh_ref KDialog (heap_next st) st Hwf ltac:(lia)) as H0.
  rewrite createDialog_run by done. cbn in H0, H1, H2 |- *. split; cbn.
  - intros []; cbn; [|done|].
    + by apply insert_subseteq_fresh.
    + do 4 (apply insert_subseteq_fresh; [done|]). done.
  - do 2 (apply insert_subseteq_fresh; [apply wf_fresh_handle; [done|lia]|]). done.
  - intros h r. rewrite !lookup_insert. repeat case_decide; try congruence.
    + intros [= <-]. lia.
    + intros [= <-]. lia.
  - lia.
  - lia.
  - intros r Hr. rewrite !lookup_insert. by repeat case_decide.
Qed.

Lemma advances_run_op op st : wf st → advances st (run_op op st).2.
Proof.
  intros Hwf.
  assert (match op with
          | CreateDialog _ | CreateTab _ | CreateButton _ => False
          | _ => True
          end → advances st (run_op op st).2) as Hother.
  { intros Hop.
    pose proof (keeps_advances_run_op st op Hop st (advances_refl st)) as H.
    by destruct (run_op op st) as [[[]|e] st']. }
  destruct op; try by apply Hother.
  - pose proof (advances_createDialog title st Hwf) as H. cbn [run_op].
    rewrite run_bind. by destruct (createDialog title st) as [[r|e] st'].
  - pose proof (advances_createTab title st Hwf) as H. cbn [run_op].
    rewrite run_bind. by destruct (createTab title st) as [[r|e] st'].
  - pose proof (advances_createButton label st Hwf) as H. cbn [run_op].
    rewrite run_bind. by destruct (createButton label st) as [[r|e] st'].
Qed.

Lemma advances_run_ops ops : ∀ st,
  wf st → closed_ops ops st = true → advances st (run_ops ops st).
Proof.
  induction ops as [|op ops IH]; intros st Hwf Hops; [apply advances_refl|].
  cbn in Hops. apply andb_true_iff in Hops as [Hop Hops]. cbn [run_ops].
  eapply advances_trans; [by apply advances_run_op|].
  apply IH; [by apply wf_run_op|done].
Qed.

Lemma advances_lookup st st' k v h :
  advances st st' → registry k st !! v = Some h → registry k st' !! v = Some h.
Proof. intros [Hr _ _ _ _] H. by eapply lookup_weaken. Qed.

Lemma getHandle_eq k : getHandle k = getOrAssign k.
Proof. by destruct k. Qed.

Lemma reachable_scenario : reachable scenario.
Proof. exists scenario_ops. split; [by vm_compute|]. unfold scenario. reflexivity. Qed.

Lemma wf_set_currentHandle st : wf st → wf (set_currentHandle (λ h, h + 1)%N st).
Proof.
  intros [H1 H2 H3 H3' H4 H5]. split; [|wf_registries H1 H2 H4..|]; try done.
  - intros k v h Hh. assert (h < _currentHandle st)%N.
    { apply (H1 k v h). by destruct k. }
    cbn. lia.
  - intros h c Hc. apply H3 in Hc. cbn. lia.
Qed.

Lemma getNewHandle_run st :
  getNewHandle st = (Ok (_currentHandle st), set_currentHandle (λ h, h + 1)%N st).
Proof. reflexivity. Qed.

Lemma allocate_run n : ∀ st,
  allocate n st =
    (Ok ((λ i, (_currentHandle st + N.of_nat i)%N) <$> seq 0 n),
     set_currentHandle (λ h, h + N.of_nat n)%N st).
Proof.
  induction n as [|n IH]; intros st.
  - destruct st. unfold set_currentHandle, mret, M_ret. cbn.
    by rewrite N.add_0_r.
  - cbn [allocate]. step (getNewHandle_run st). step (IH (set_currentHandle (λ h, h + 1)%N st)).
    unfold mret, M_ret. cbn [seq].
    rewrite fmap_cons, <-fmap_S_seq, <-list_fmap_compose. f_equal.
    + f_equal. f_equal; [cbn; lia|].
      apply list_fmap_ext. intros _ i _. cbn. lia.
    + destruct st. unfold set_currentHandle. cbn. f_equal. lia.
Qed.

(** * The claims *)

(** ** Handle allocation *)

(** C6. The handle allocator starts at 0 and returns strictly increasing
    values: from the initial state, [n] successive calls of [getNewHandle]
    return [0, 1, ..., n-1] (so the call number [i+1] returns [i]); from any
    state, of two calls in a run of successive calls the earlier returns the
    smaller handle; and a call made after any further operations of the
    extension returns a larger handle than one made before them. *)
Theorem getNewHandle_strictly_increasing :
  (∀ n, (allocate n init).1 = Ok (N.of_nat <$> seq 0 n))
  ∧ (∀ st n handles i j hi hj,
       (allocate n st).1 = Ok handles → (i < j)%nat →
       handles !! i = Some hi → handles !! j = Some hj → (hi < hj)%N)
  ∧ (∀ st ops h1 st1 h2 st2,
       wf st → getNewHandle st = (Ok h1, st1) → closed_ops ops st1 = true →
       getNewHandle (run_ops ops st1) = (Ok h2, st2) → (h1 < h2)%N).
Proof.
  split_and!.
  - intros n. rewrite allocate_run. cbn. f_equal.
  - intros st n handles i j hi hj. rewrite allocate_run. cbn. intros [= <-] Hij.
    rewrite !list_lookup_fmap.
    intros (x & Hx & ->)%fmap_Some (y & Hy & ->)%fmap_Some.
    apply lookup_seq in Hx as [-> _]. apply lookup_seq in Hy as [-> _]. lia.
  - intros st ops h1 st1 h2 st2 Hwf [= <- <-] Hops [= <- _].
    pose proof (advances_run_ops ops _ (wf_set_currentHandle st Hwf) Hops) as Hadv.
    apply adv_currentHandle in Hadv. cbn in Hadv. lia.
Qed.

Lemma getNewHandle_strictly_increasing_witness :
  (allocate 6 init).1 = Ok [0; 1; 2; 3; 4; 5]%N ∧ (3 < 5)%N ∧ (0 < 3)%N.
Proof.
  destruct getNewHandle_strictly_increasing as (Hseq & Hpair & Hlater).
  split_and!.
  - apply (Hseq 6%nat).
  - apply (Hpair init 6%nat [0; 1; 2; 3; 4; 5]%N 3%nat 5%nat); [done|lia|done|done].
  - apply (Hlater init [CreateButton "Help"] 0%N
      (set_currentHandle (λ h, h + 1)%N init) 3%N
      (set_currentHandle (λ h, h + 1)%N
         (run_ops [CreateButton "Help"] (set_currentHandle (λ h, h + 1)%N init)))).
    + apply wf_init.
    + reflexivity.
    + by vm_compute.
    + by vm_compute.
Defined.

(** ** The registries *)

(** What holds of get-or-assign, for each of the three registries: a call
    made right after another returns the same handle and changes nothing,
    and so does a call made after any further operations of the extension,
    none of which overwrites the entry of an object that exists. *)
Lemma getHandle_idempotent k object st :
  ∃ handle st1,
    getHandle k object st = (Ok handle, st1)
    ∧ getHandle k object st1 = (Ok handle, st1)
    ∧ ∀ ops, wf st1 → closed_ops ops st1 = true →
        getHandle k object (run_ops ops st1) = (Ok handle, run_ops ops st1).
Proof.
  rewrite getHandle_eq.
  destruct (getOrAssign_run k object st) as (h & st1 & Hrun & _ & Hreg & _).
  exists h, st1. split_and!; [done|by apply getOrAssign_Some|].
  intros ops Hwf Hops. apply getOrAssign_Some.
  eapply advances_lookup; [by apply advances_run_ops|done].
Qed.

Lemma getHandle_idempotent_witness :
  getHandle KTab (Some 4%positive) (run_ops [DialogOpen (Some 1%positive)] scenario)
  = (Ok 5%N, run_ops [DialogOpen (Some 1%positive)] scenario).
Proof.
  destruct (getHandle_idempotent KTab (Some 4%positive) scenario)
    as (h & st1 & H1 & _ & Hlater).
  vm_compute in H1. injection H1 as <- <-.
  apply (Hlater [DialogOpen (Some 1%positive)]).
  - apply reachable_wf, reachable_scenario.
  - vm_compute. reflexivity.
Defined.

(** C7. Two distinct objects get distinct handles, whatever their fields:
    the registries are keyed by the reference, and a handle is stored for one
    key only.  This holds across the three registries as well. *)
Theorem getHandle_distinct k1 object1 k2 object2 st :
  wf st → (k1, object1) ≠ (k2, object2) →
  ∃ handle1 st1 handle2 st2,
    getHandle k1 object1 st = (Ok handle1, st1)
    ∧ getHandle k2 object2 st1 = (Ok handle2, st2)
    ∧ handle1 ≠ handle2.
Proof.
  intros Hwf Hne. rewrite !getHandle_eq.
  destruct (registry k1 st !! object1) as [h1|] eqn:H1.
  - exists h1, st. rewrite (getOrAssign_Some _ _ _ h1) by done.
    destruct (registry k2 st !! object2) as [h2|] eqn:H2.
    + exists h2, st. rewrite (getOrAssign_Some _ _ _ h2) by done.
      split_and!; [done..|]. intros ->.
      destruct (wf_injective _ Hwf _ _ _ _ _ H1 H2). congruence.
    + eexists _, _. rewrite getOrAssign_None by done.
      split_and!; [done..|].
      apply (wf_allocated _ Hwf) in H1. lia.
  - eexists _, _. rewrite getOrAssign_None by done.
    set (st1 := set_registry k1 _ _).
    assert (∀ h, registry k2 st1 !! object2 = Some h →
      (h < _currentHandle st)%N) as Hold.
    { intros h. unfold st1.
      rewrite registry_set_registry, registry_set_currentHandle.
      case_decide as Hk; [subst k2|by apply wf_allocated].
      rewrite lookup_insert_ne by congruence. by apply wf_allocated. }
    destruct (registry k2 st1 !! object2) as [h2|] eqn:H2.
    + exists h2, st1. rewrite (getOrAssign_Some _ _ _ h2) by done.
      split_and!; [done..|].
      specialize (Hold h2 eq_refl). lia.
    + eexists _, _. rewrite getOrAssign_None by done.
      split_and!; [done..|].
      unfold st1. destruct k1; cbn; lia.
Qed.

Lemma getHandle_distinct_witness :
  tabs twins !! 1%positive = tabs twins !! 2%positive
  ∧ ∃ handle1 st1 handle2 st2,
      getHandle KTab (Some 1%positive) twins = (Ok handle1, st1)
      ∧ getHandle KTab (Some 2%positive) st1 = (Ok handle2, st2)
      ∧ handle1 ≠ handle2.
Proof.
  split; [by vm_compute|].
  apply (getHandle_distinct KTab (Some 1%positive) KTab (Some 2%positive) twins).
  - apply reachable_wf. exists [CreateTab "General"; CreateTab "General"].
    split; [by vm_compute|]. unfold twins. reflexivity.
  - intros [=].
Defined.

(** C2 (the code departs from it). [createButton] stores a handle for the
    new button twice.  At the initial state, for the label "Done": once
    [button.label = label] has run, the registry maps the button to handle 0
    and the button has been announced to the main thread under 0; on return
    the registry maps it to handle 1. *)
Theorem createButton_assigns_two_handles :
  let button := 1%positive in
  let after_label :=
    (set_label (Some button) "Done"
       (set_buttons <[button := ButtonImpl.new]> (set_heap_next Pos.succ init))).2 in
  let after_create := (createButton "Done" init).2 in
  (createButton "Done" init).1 = Ok button
  ∧ _buttonHandles after_label !! Some button = Some 0%N
  ∧ sent after_label =
      [SetButtonDetails 0 {| bd_label := Some "Done"; bd_enabled := true |}]
  ∧ _buttonHandles after_create !! Some button = Some 1%N
  ∧ sent after_create = sent after_label.
Proof. by vm_compute. Qed.

(** C5 (the code departs from it, by the defect of C2). The calls of
    [getButtonHandle] for one button do not all return the same handle.
    Within [createButton("Done")] at the initial state: the first call for
    the new button, made by [updateButton] when the label setter runs, finds
    no entry, stores handle 0 and returns it, and a call made right then
    returns 0 again; [createButton] then overwrites the entry, so that the
    call made by [registerOnClickCallback], and every call made once
    [createButton] has returned, returns 1. *)
Theorem createButton_getButtonHandle_not_idempotent :
  let button := Some 1%positive in
  let created :=
    set_buttons <[1%positive := ButtonImpl.new]> (set_heap_next Pos.succ init) in
  let in_setter :=
    (button_put (ButtonImpl.with_label (Some "Done")) button created).2 in
  let first := getButtonHandle button in_setter in
  let after_label := (set_label button "Done" created).2 in
  let at_register :=
    (modify (set_buttonHandles <[button := 1%N]>) (getNewHandle after_label).2).2 in
  let after_create := (createButton "Done" init).2 in
  _buttonHandles in_setter !! button = None
  ∧ first.1 = Ok 0%N
  ∧ updateButton button in_setter =
      proxy (SetButtonDetails 0 {| bd_label := Some "Done"; bd_enabled := true |})
        first.2
  ∧ (updateButton button in_setter).2 = after_label
  ∧ getButtonHandle button after_label = (Ok 0%N, after_label)
  ∧ (getNewHandle after_label).1 = Ok 1%N
  ∧ getButtonHandle button at_register = (Ok 1%N, at_register)
  ∧ registerOnClickCallback button (getOnClickCallback 1%positive) at_register
    = (Ok tt, after_create)
  ∧ getButtonHandle button after_create = (Ok 1%N, after_create).
Proof. by vm_compute. Qed.

(** ** Click dispatch *)

(** C3 (as stated, refuted). A click for a handle without callback does not
    raise [UnknownHandleError]: at the initial state nothing is registered
    for handle 0, and [$onButtonClick(0)] throws something else. *)
Lemma onButtonClick_unregistered_not_UnknownHandleError :
  _onClickCallbacks init !! 0%N = None
  ∧ (onButtonClick 0 init).1 ≠ Throw "UnknownHandleError".
Proof. split; [done|]. by vm_compute. Qed.

(** C3 (amended). A click for a handle with a registered callback calls that
    callback exactly once: the emitter of the button it belongs to fires
    once, and nothing else changes.  A click for a handle with no callback
    throws a [TypeError] out of [$onButtonClick] (the call of [undefined]),
    fires nothing and changes nothing. *)
Theorem onButtonClick_dispatch handle st :
  onButtonClick handle st =
    match _onClickCallbacks st !! handle with
    | Some (OnClickFire button) => (Ok tt, set_fired (λ l, l ++ [button]) st)
    | None => (Throw TypeError, st)
    end.
Proof.
  unfold onButtonClick. rewrite run_bind. cbn.
  by destruct (_onClickCallbacks st !! handle) as [[b]|].
Qed.

(** ** Buttons *)

Lemma button_put_run f b o st :
  buttons st !! b = Some o →
  button_put f (Some b) st = (Ok tt, set_buttons <[b := f o]> st).
Proof.
  intros Ho. unfold button_put.
  destruct (the_button_run (Some b) st o Ho) as (r & [= <-] & Hthe).
  by step Hthe.
Qed.

Lemma set_label_run b o label st :
  buttons st !! b = Some o →
  ∃ handle st',
    set_label (Some b) label st = (Ok tt, st')
    ∧ _buttonHandles st ⊆ _buttonHandles st'
    ∧ _buttonHandles st' !! Some b = Some handle
    ∧ buttons st' !! b = Some (ButtonImpl.with_label (Some label) o)
    ∧ sent st' = sent st ++
        [SetButtonDetails handle
           {| bd_label := Some label; bd_enabled := ButtonImpl._enabled o |}].
Proof.
  intros Ho. unfold set_label.
  step (button_put_run (ButtonImpl.with_label (Some label)) _ _ _ Ho).
  set (st1 := set_buttons _ st).
  assert (buttons st1 !! b = Some (ButtonImpl.with_label (Some label) o)) as Ho1.
  { apply lookup_insert_eq. }
  destruct (updateButton_run (Some b) st1) as (st' & Hrun & Hev & [h Hh] & Hsent).
  { by eexists. }
  exists h, st'. split_and!; [done| |done| |].
  - apply (ev_registry _ _ Hev KButton).
  - by rewrite (ev_buttons _ _ Hev).
  - rewrite Hsent. unfold button_message, handle_in, button_details.
    cbn in Hh |- *. by rewrite Hh, (ev_buttons _ _ Hev), Ho1.
Qed.

Lemma set_enabled_run b o enabled st :
  buttons st !! b = Some o →
  ∃ handle st',
    set_enabled (Some b) enabled st = (Ok tt, st')
    ∧ _buttonHandles st ⊆ _buttonHandles st'
    ∧ _buttonHandles st' !! Some b = Some handle
    ∧ buttons st' !! b = Some (ButtonImpl.with_enabled enabled o)
    ∧ sent st' = sent st ++
        [SetButtonDetails handle
           {| bd_label := ButtonImpl._label o; bd_enabled := enabled |}].
Proof.
  intros Ho. unfold set_enabled.
  step (button_put_run (ButtonImpl.with_enabled enabled) _ _ _ Ho).
  set (st1 := set_buttons _ st).
  assert (buttons st1 !! b = Some (ButtonImpl.with_enabled enabled o)) as Ho1.
  { apply lookup_insert_eq. }
  destruct (updateButton_run (Some b) st1) as (st' & Hrun & Hev & [h Hh] & Hsent).
  { by eexists. }
  exists h, st'. split_and!; [done| |done| |].
  - apply (ev_registry _ _ Hev KButton).
  - by rewrite (ev_buttons _ _ Hev).
  - rewrite Hsent. unfold button_message, handle_in, button_details.
    cbn in Hh |- *. by rewrite Hh, (ev_buttons _ _ Hev), Ho1.
Qed.

(** C8. Every assignment to [label] or [enabled] of a button stores the value
    and sends exactly one [setButtonDetails], keyed by the handle the registry
    holds for the button and carrying the new value next to the other field;
    two assignments in a row send two messages, in order. *)
Theorem button_setters_send_one_message button o st :
  buttons st !! button = Some o →
  (∀ label, ∃ handle st',
     set_label (Some button) label st = (Ok tt, st')
     ∧ _buttonHandles st ⊆ _buttonHandles st'
     ∧ _buttonHandles st' !! Some button = Some handle
     ∧ buttons st' !! button = Some (ButtonImpl.with_label (Some label) o)
     ∧ sent st' = sent st ++
         [SetButtonDetails handle
            {| bd_label := Some label; bd_enabled := ButtonImpl._enabled o |}])
  ∧ (∀ enabled, ∃ handle st',
     set_enabled (Some button) enabled st = (Ok tt, st')
     ∧ _buttonHandles st ⊆ _buttonHandles st'
     ∧ _buttonHandles st' !! Some button = Some handle
     ∧ buttons st' !! button = Some (ButtonImpl.with_enabled enabled o)
     ∧ sent st' = sent st ++
         [SetButtonDetails handle
            {| bd_label := ButtonImpl._label o; bd_enabled := enabled |}])
  ∧ (∀ enabled1 enabled2, ∃ handle st',
     (set_enabled (Some button) enabled1;; set_enabled (Some button) enabled2) st
       = (Ok tt, st')
     ∧ _buttonHandles st' !! Some button = Some handle
     ∧ sent st' = sent st ++
         [SetButtonDetails handle
            {| bd_label := ButtonImpl._label o; bd_enabled := enabled1 |};
          SetButtonDetails handle
            {| bd_label := ButtonImpl._label o; bd_enabled := enabled2 |}]).
Proof.
  intros Ho. split_and!.
  - intros label. by apply set_label_run.
  - intros enabled. by apply set_enabled_run.
  - intros e1 e2.
    destruct (set_enabled_run button o e1 st Ho)
      as (h1 & st1 & Hrun1 & _ & Hh1 & Ho1 & Hsent1).
    destruct (set_enabled_run button _ e2 st1 Ho1)
      as (h2 & st2 & Hrun2 & Hsub & Hh2 & _ & Hsent2).
    exists h2, st2. step Hrun1. split_and!; [done..|].
    rewrite Hsent2, Hsent1, <-app_assoc. cbn.
    by rewrite (lookup_weaken _ _ _ _ Hh1 Hsub) in Hh2; injection Hh2 as ->.
Qed.

Lemma button_setters_send_one_message_witness :
  ∃ handle st',
    (set_enabled (Some 5%positive) false;; set_enabled (Some 5%positive) true) scenario
      = (Ok tt, st')
    ∧ _buttonHandles st' !! Some 5%positive = Some handle
    ∧ sent st' = sent scenario ++
        [SetButtonDetails handle {| bd_label := Some "Help"; bd_enabled := false |};
         SetButtonDetails handle {| bd_label := Some "Help"; bd_enabled := true |}].
Proof.
  apply (button_setters_send_one_message 5%positive
    (ButtonImpl.mk (Some "Help") true) scenario).
  by vm_compute.
Defined.

(** ** Dialogs *)

(** C10. [createDialog(title)] returns a dialog with the given title whose
    [okButton] is a button labelled "Done" and whose [cancelButton] is a
    button labelled "Cancel", both enabled, and it has stored a handle for
    the dialog itself before returning. *)
Theorem createDialog_defaults title st :
  wf st →
  ∃ dialog okButton cancelButton handle st',
    createDialog title st = (Ok dialog, st')
    ∧ dialogs st' !! dialog =
        Some (DialogImpl.mk (Some title) None (Some okButton) (Some cancelButton) None)
    ∧ buttons st' !! okButton = Some (ButtonImpl.mk (Some "Done") true)
    ∧ buttons st' !! cancelButton = Some (ButtonImpl.mk (Some "Cancel") true)
    ∧ okButton ≠ cancelButton
    ∧ _dialogHandles st !! Some dialog = None
    ∧ _dialogHandles st' !! Some dialog = Some handle.
Proof.
  intros Hwf.
  pose proof (wf_fresh_ref KButton (Pos.succ (heap_next st)) st Hwf ltac:(lia)) as H1.
  pose proof (wf_fresh_ref KButton (Pos.succ (Pos.succ (heap_next st))) st Hwf
    ltac:(lia)) as H2.
  pose proof (wf_fresh_ref KDialog (heap_next st) st Hwf ltac:(lia)) as H0.
  eexists _, _, _, _, _. rewrite createDialog_run by done. cbn in H0 |- *.
  split_and!; [reflexivity| | | | |done|]; cbn.
  - apply lookup_insert_eq.
  - rewrite lookup_insert_ne by lia. rewrite lookup_insert_ne by lia.
    apply lookup_insert_eq.
  - apply lookup_insert_eq.
  - lia.
  - apply lookup_insert_eq.
Qed.

Lemma createDialog_defaults_witness :
  ∃ dialog okButton cancelButton handle st',
    createDialog "Connect" init = (Ok dialog, st')
    ∧ dialogs st' !! dialog =
        Some (DialogImpl.mk (Some "Connect") None (Some okButton) (Some cancelButton) None)
    ∧ buttons st' !! okButton = Some (ButtonImpl.mk (Some "Done") true)
    ∧ buttons st' !! cancelButton = Some (ButtonImpl.mk (Some "Cancel") true)
    ∧ okButton ≠ cancelButton
    ∧ _dialogHandles init !! Some dialog = None
    ∧ _dialogHandles st' !! Some dialog = Some handle.
Proof. apply (createDialog_defaults "Connect" init), wf_init. Defined.

(** C1. [open(dialog)], for a dialog whose children are tabs and buttons,
    sends in this order: one [setTabDetails] per tab of [content] (when
    [content] is a tab sequence), one [setButtonDetails] per custom button
    (when [customButtons] is present), one for [okButton], one for
    [cancelButton], then the single [setDialogDetails], then [open] with the
    dialog's handle.  Every message is keyed by the handle the registries hold
    on return, and these are the handles the dialog's details refer to; the
    objects themselves are unchanged. *)
Theorem open_children_before_parent dialog o st :
  dialogs st !! dialog = Some o → well_typed st o →
  ∃ st',
    open (Some dialog) st = (Ok tt, st')
    ∧ evolves st st'
    ∧ synchronized dialog o st'
    ∧ sent st' = sent st
        ++ (tab_message st' <$> content_tabs (DialogImpl.content o))
        ++ (button_message st' <$> default [] (DialogImpl.customButtons o))
        ++ [button_message st' (DialogImpl.okButton o);
            button_message st' (DialogImpl.cancelButton o);
            SetDialogDetails (handle_in KDialog st' (Some dialog)) (dialog_details st' o);
            Open (handle_in KDialog st' (Some dialog))].
Proof.
  intros Hd Hwt. unfold open. rewrite getDialogHandle_eq.
  destruct (getOrAssign_run KDialog (Some dialog) st)
    as (h & st0 & Hrun0 & Hev0 & Hreg0 & Hsent0).
  step Hrun0.
  destruct (updateDialogContent_run dialog o st0)
    as (st1 & Hrun1 & Hev1 & Hsync & Hsent1).
  { by rewrite (ev_dialogs _ _ Hev0). }
  { by eapply well_typed_evolves. }
  step Hrun1. eexists. split; [reflexivity|].
  set (st' := set_sent _ st1).
  assert (evolves st1 st') as Hev' by apply evolves_set_sent, evolves_refl.
  assert (synchronized dialog o st') as Hsync' by by destruct Hsync.
  split_and!; [eauto using evolves_trans|done|].
  assert (handle_in KDialog st' (Some dialog) = h) as ->.
  { unfold handle_in.
    by rewrite (evolves_lookup _ _ _ _ _ (evolves_trans _ _ _ Hev1 Hev') Hreg0). }
  change (sent st') with (sent st1 ++ [Open h]).
  rewrite Hsent1, Hsent0. unfold children_messages.
  rewrite <-(tab_messages_evolves st1 st' _ Hev' (sync_tabs _ _ _ Hsync)).
  rewrite <-(button_messages_evolves st1 st' _ Hev' (sync_customButtons _ _ _ Hsync)).
  rewrite <-(button_message_evolves st1 st' _ Hev' (sync_okButton _ _ _ Hsync)).
  rewrite <-(button_message_evolves st1 st' _ Hev' (sync_cancelButton _ _ _ Hsync)).
  assert (handle_in KDialog st1 (Some dialog) = h) as ->.
  { unfold handle_in. by rewrite (evolves_lookup _ _ _ _ _ Hev1 Hreg0). }
  rewrite <-!app_assoc. reflexivity.
Qed.

Lemma open_children_before_parent_witness :
  let o := DialogImpl.mk (Some "Connect") (Some (ContentTabs [Some 4%positive]))
    (Some 2%positive) (Some 3%positive) (Some [Some 5%positive]) in
  ∃ st',
    open (Some 1%positive) scenario = (Ok tt, st')
    ∧ evolves scenario st'
    ∧ synchronized 1%positive o st'
    ∧ sent st' = sent scenario
        ++ (tab_message st' <$> [Some 4%positive])
        ++ (button_message st' <$> [Some 5%positive])
        ++ [button_message st' (Some 2%positive);
            button_message st' (Some 3%positive);
            SetDialogDetails (handle_in KDialog st' (Some 1%positive)) (dialog_details st' o);
            Open (handle_in KDialog st' (Some 1%positive))].
Proof.
  intros o. apply (open_children_before_parent 1%positive o scenario).
  - by vm_compute.
  - apply (bool_decide_unpack _). by vm_compute.
Defined.

(** The scenario, evaluated: what [open] adds to the messages already sent
    by the factories. *)
Example scenario_open_sent :
  sent (open (Some 1%positive) scenario).2 = sent scenario ++
    [SetTabDetails 5 {| td_title := Some "General"; td_content := Some "form" |};
     SetButtonDetails 7 {| bd_label := Some "Help"; bd_enabled := true |};
     SetButtonDetails 1 {| bd_label := Some "Done"; bd_enabled := true |};
     SetButtonDetails 3 {| bd_label := Some "Cancel"; bd_enabled := true |};
     SetDialogDetails 4
       {| dd_title := Some "Connect"; dd_okButton := 1; dd_cancelButton := 3;
          dd_content := Some (DetailsTabs [5%N]);
          dd_customButtons := Some [7%N] |};
     Open 4].
Proof. by vm_compute. Qed.

(** C9. When the synchronization of a child fails, [updateDialogContent]
    throws before it sends the dialog's details.  For a dialog whose children
    are values of their declared types, a child fails to synchronize exactly
    when it is [undefined] (a tab of [content], a custom button, [okButton] or
    [cancelButton]): then the call throws the [TypeError] of that child, and
    of the messages it has sent by then none is a [setDialogDetails]. *)
Theorem updateDialogContent_aborts_before_parent dialog o st :
  dialogs st !! dialog = Some o → typed st o → ¬ well_typed st o →
  ∃ st',
    updateDialogContent (Some dialog) st = (Throw TypeError, st')
    ∧ children_only st st'.
Proof.
  intros Hd Ht Hwt.
  destruct (updateDialogContent_Throw dialog o st Hd Ht Hwt) as [st' Hrun].
  exists st'. split; [done|]. by eapply updateDialogContent_Throw_children_only.
Qed.

Lemma updateDialogContent_aborts_before_parent_witness :
  ∃ st',
    updateDialogContent (Some 1%positive) broken = (Throw TypeError, st')
    ∧ children_only broken st'.
Proof.
  apply (updateDialogContent_aborts_before_parent 1%positive
    (DialogImpl.mk (Some "Connect") (Some (ContentTabs [Some 4%positive; undefined]))
       (Some 2%positive) (Some 3%positive) None) broken).
  - by vm_compute.
  - apply (bool_decide_unpack _). by vm_compute.
  - apply (bool_decide_unpack _). by vm_compute.
Defined.

(** The failing dialog, evaluated: the tab before [undefined] is
    synchronized, then the call throws. *)
Example broken_updateDialogContent :
  (updateDialogContent (Some 1%positive) broken).1 = Throw TypeError
  ∧ sent (updateDialogContent (Some 1%positive) broken).2 = sent broken ++
      [SetTabDetails 5 {| td_title := Some "General"; td_content := None |}].
Proof. by vm_compute. Qed.

(** C4. [createButton(label)] sends exactly one message, the initial
    [setButtonDetails], keyed by a handle [h0] that is smaller than the
    handle [h1] it then stores in the registry and registers the click
    callback under; nothing is registered under [h0].  After any further
    operations of the extension the registry still holds [h1] for the button,
    [h1] is the only handle a click can carry to reach the button, and a
    synchronization of the button sends [setButtonDetails] keyed by [h1]. *)
Theorem createButton_initial_handle_stale label st ops :
  wf st → closed_ops ops (createButton label st).2 = true →
  ∃ button h0 h1 st1,
    createButton label st = (Ok button, st1)
    ∧ sent st1 = sent st ++
        [SetButtonDetails h0 {| bd_label := Some label; bd_enabled := true |}]
    ∧ (h0 < h1)%N
    ∧ _buttonHandles st1 !! Some button = Some h1
    ∧ _onClickCallbacks st1 !! h1 = Some (OnClickFire button)
    ∧ _onClickCallbacks st1 !! h0 = None
    ∧ let st2 := run_ops ops st1 in
      _buttonHandles st2 !! Some button = Some h1
      ∧ _onClickCallbacks st2 !! h1 = Some (OnClickFire button)
      ∧ (∀ h, _onClickCallbacks st2 !! h = Some (OnClickFire button) → h = h1)
      ∧ ∃ details st3,
          updateButton (Some button) st2 = (Ok tt, st3)
          ∧ sent st3 = sent st2 ++ [SetButtonDetails h1 details].
Proof.
  intros Hwf.
  pose proof (wf_fresh_ref KButton (heap_next st) st Hwf ltac:(lia)) as Hb.
  pose proof (wf_run_op (CreateButton label) st Hwf eq_refl) as Hwf1.
  cbn [run_op] in Hwf1. rewrite run_bind in Hwf1.
  rewrite createButton_run in Hwf1 |- * by done.
  set (st1 := mkState _ _ _ _ _ _ _ _ _ _ _) in *. cbn [snd] in Hwf1 |- *.
  intros Hops. exists (heap_next st), (_currentHandle st), (_currentHandle st + 1)%N, st1.
  assert (_buttonHandles st1 !! Some (heap_next st) = Some (_currentHandle st + 1)%N)
    as Hh1 by apply lookup_insert_eq.
  assert (_onClickCallbacks st1 !! (_currentHandle st + 1)%N
    = Some (OnClickFire (heap_next st))) as Hc1 by apply lookup_insert_eq.
  assert (_onClickCallbacks st !! _currentHandle st = None) as Hc0.
  { apply wf_fresh_handle; [done|lia]. }
  do 2 (split; [done|]). split; [lia|]. do 2 (split; [done|]). split.
  { cbn. rewrite lookup_insert_ne by lia. done. }
  pose proof (advances_run_ops ops st1 Hwf1 Hops) as Hadv.
  cbn zeta. set (st2 := run_ops ops st1) in *.
  assert (_buttonHandles st2 !! Some (heap_next st) = Some (_currentHandle st + 1)%N)
    as Hh2 by apply (advances_lookup _ _ KButton _ _ Hadv Hh1).
  split_and!.
  - done.
  - by eapply lookup_weaken; [|apply (adv_onClickCallbacks _ _ Hadv)].
  - intros h Hh. destruct (_onClickCallbacks st1 !! h) as [c|] eqn:Hc.
    + assert (c = OnClickFire (heap_next st)) as ->.
      { pose proof (lookup_weaken _ _ _ _ Hc (adv_onClickCallbacks _ _ Hadv)).
        congruence. }
      revert Hc. cbn. rewrite lookup_insert. case_decide; [done|].
      intros Hc%(wf_callback_target _ Hwf). lia.
    + pose proof (adv_new_callbacks _ _ Hadv h _ Hh Hc) as Hle. cbn in Hle. lia.
  - destruct (updateButton_run (Some (heap_next st)) st2)
      as (st3 & Hrun & Hev & _ & Hsent).
    { apply (adv_buttons _ _ Hadv). cbn. rewrite lookup_insert_eq. by eexists. }
    eexists _, st3. split; [done|]. rewrite Hsent. unfold button_message, handle_in.
    by rewrite (evolves_lookup _ _ KButton _ _ Hev Hh2).
Qed.

Lemma createButton_initial_handle_stale_witness :
  ∃ button h0 h1 st1,
    createButton "Help" init = (Ok button, st1)
    ∧ sent st1 = sent init ++
        [SetButtonDetails h0 {| bd_label := Some "Help"; bd_enabled := true |}]
    ∧ (h0 < h1)%N
    ∧ _buttonHandles st1 !! Some button = Some h1
    ∧ _onClickCallbacks st1 !! h1 = Some (OnClickFire button)
    ∧ _onClickCallbacks st1 !! h0 = None
    ∧ let st2 := run_ops [ButtonSetEnabled (Some 1%positive) false; CreateDialog "Connect"] st1 in
      _buttonHandles st2 !! Some button = Some h1
      ∧ _onClickCallbacks st2 !! h1 = Some (OnClickFire button)
      ∧ (∀ h, _onClickCallbacks st2 !! h = Some (OnClickFire button) → h = h1)
      ∧ ∃ details st3,
          updateButton (Some button) st2 = (Ok tt, st3)
          ∧ sent st3 = sent st2 ++ [SetButtonDetails h1 details].
Proof.
  apply (createButton_initial_handle_stale "Help" init
    [ButtonSetEnabled (Some 1%positive) false; CreateDialog "Connect"]).
  - apply wf_init.
  - by vm_compute.
Defined.

(** * Further invariants *)

(** ** What every operation respects *)

Lemma grows_refl st : grows st st.
Proof.
  split; try done; [apply advances_refl|congruence..].
Qed.

Lemma grows_trans st1 st2 st3 : grows st1 st2 → grows st2 st3 → grows st1 st3.
Proof.
  intros [Ha1 Hs1 Hf1 Hh1 Hc1 Ht1 Hd1] [Ha2 Hs2 Hf2 Hh2 Hc2 Ht2 Hd2].
  pose proof (adv_currentHandle _ _ Ha1) as Hle.
  split.
  - by eapply advances_trans.
  - by etrans.
  - by etrans.
  - intros k v h H3 H1. destruct (registry k st2 !! v) as [h2|] eqn:H2.
    + apply (Hh1 k v h); [|done].
      by rewrite <-H3, (advances_lookup _ _ _ _ _ Ha2 H2).
    + specialize (Hh2 k v h H3 H2). lia.
  - intros h c H3 H1. destruct (_onClickCallbacks st2 !! h) as [c2|] eqn:H2.
    + apply (Hc1 h c2); [done|done].
    + specialize (Hc2 h c H3 H2). lia.
  - eauto.
  - eauto.
Qed.

Lemma steady_intro st st' :
  (∀ k, registry k st ⊆ registry k st') →
  (∀ k v h, registry k st' !! v = Some h → registry k st !! v = None →
     (_currentHandle st ≤ h)%N) →
  (_currentHandle st ≤ _currentHandle st')%N →
  _onClickCallbacks st' = _onClickCallbacks st →
  heap_next st' = heap_next st →
  sent st `prefix_of` sent st' → fired st `prefix_of` fired st' →
  (∀ r, is_Some (buttons st' !! r) ↔ is_Some (buttons st !! r)) →
  (∀ r, is_Some (tabs st' !! r) ↔ is_Some (tabs st !! r)) →
  (∀ r, is_Some (dialogs st' !! r) ↔ is_Some (dialogs st !! r)) →
  steady st st'.
Proof.
  intros Hr Hh Hc Hcb Hn Hs Hf Hb Ht Hd.
  split; [split; [split|..]|..]; try done.
  - by rewrite Hcb.
  - rewrite Hcb. congruence.
  - by rewrite Hn.
  - intros r ?. by apply Hb.
  - rewrite Hcb. congruence.
  - intros r ?. by apply Ht.
  - intros r ?. by apply Hd.
  - intros r ?. by apply Hb.
  - intros r ?. by apply Ht.
  - intros r ?. by apply Hd.
Qed.

Lemma steady_frame st st' :
  (∀ k, registry k st' = registry k st) →
  _currentHandle st' = _currentHandle st →
  _onClickCallbacks st' = _onClickCallbacks st →
  heap_next st' = heap_next st →
  sent st `prefix_of` sent st' → fired st `prefix_of` fired st' →
  (∀ r, is_Some (buttons st' !! r) ↔ is_Some (buttons st !! r)) →
  (∀ r, is_Some (tabs st' !! r) ↔ is_Some (tabs st !! r)) →
  (∀ r, is_Some (dialogs st' !! r) ↔ is_Some (dialogs st !! r)) →
  steady st st'.
Proof.
  intros Hr Hc. intros. apply steady_intro; try done.
  - intros k. by rewrite Hr.
  - intros k v h. rewrite Hr. congruence.
  - by rewrite Hc.
Qed.

Lemma steady_refl st : steady st st.
Proof. apply steady_intro; try done; congruence. Qed.

Lemma steady_trans st1 st2 st3 : steady st1 st2 → steady st2 st3 → steady st1 st3.
Proof.
  intros [Hg1 Hc1 Hn1 Hb1 Ht1 Hd1] [Hg2 Hc2 Hn2 Hb2 Ht2 Hd2].
  split; [by eapply grows_trans|congruence|congruence|eauto..].
Qed.

Lemma keeps_steady_modify st0 f :
  (∀ st, steady st (f st)) → keeps (steady st0) (steady st0) (modify f).
Proof.
  intros H. apply keeps_modify. intros st Hst. eauto using steady_trans.
Qed.

Lemma keeps_steady_proxy st0 m : keeps (steady st0) (steady st0) (proxy m).
Proof.
  apply keeps_steady_modify. intros st.
  apply steady_frame; try done; try by intros [].
  by apply prefix_app_r.
Qed.

Lemma keeps_steady_fire st0 b : keeps (steady st0) (steady st0) (fire b).
Proof.
  apply keeps_steady_modify. intros st.
  apply steady_frame; try done; try by intros [].
  by apply prefix_app_r.
Qed.

Lemma steady_assign k v st :
  registry k st !! v = None →
  steady st (set_registry k <[v := _currentHandle st]>
    (set_currentHandle (λ h, h + 1)%N st)).
Proof.
  intros Hv. apply steady_intro; try by destruct k.
  - apply (ev_registry _ _ (evolves_assign k v st Hv)).
  - intros k' v' h. rewrite registry_set_registry, registry_set_currentHandle.
    case_decide; [subst k'|congruence].
    rewrite lookup_insert. case_decide; [|congruence]. intros [= <-]. lia.
  - destruct k; cbn; lia.
Qed.

Lemma keeps_steady_getOrAssign st0 k v :
  keeps (steady st0) (steady st0) (getOrAssign k v).
Proof.
  intros st Hst. destruct (registry k st !! v) as [h|] eqn:H.
  - by rewrite (getOrAssign_Some _ _ _ h).
  - rewrite getOrAssign_None by done. eauto using steady_trans, steady_assign.
Qed.

Lemma keeps_steady_the_button st0 v : keeps (steady st0) (steady st0) (the_button v).
Proof. unfold the_button. repeat keeps_step. Qed.
Lemma keeps_steady_the_tab st0 v : keeps (steady st0) (steady st0) (the_tab v).
Proof. unfold the_tab. repeat keeps_step. Qed.
Lemma keeps_steady_the_dialog st0 v : keeps (steady st0) (steady st0) (the_dialog v).
Proof. unfold the_dialog. repeat keeps_step. Qed.

Lemma is_Some_insert_present `{Countable K} {A} (m : gmap K A) i x j :
  is_Some (m !! i) → (is_Some (<[i := x]> m !! j) ↔ is_Some (m !! j)).
Proof.
  intros Hi. rewrite lookup_insert. case_decide; [subst|done]. naive_solver.
Qed.

Lemma keeps_steady_button_put st0 f v : keeps (steady st0) (steady st0) (button_put f v).
Proof.
  intros st Hst. unfold button_put. rewrite run_bind.
  destruct (decide (is_button st v)) as [[o Ho]|Hv].
  - destruct (the_button_run v st o Ho) as (r & -> & ->). cbn in Ho |- *.
    eapply steady_trans; [done|].
    apply steady_frame; try done; try by intros [].
    intros r'. cbn. by apply is_Some_insert_present.
  - by destruct (the_button_Throw v st Hv) as [e ->].
Qed.

Lemma keeps_steady_tab_put st0 f v : keeps (steady st0) (steady st0) (tab_put f v).
Proof.
  intros st Hst. unfold tab_put. rewrite run_bind.
  destruct (decide (is_tab st v)) as [[o Ho]|Hv].
  - destruct (the_tab_run v st o Ho) as (r & -> & ->). cbn in Ho |- *.
    eapply steady_trans; [done|].
    apply steady_frame; try done; try by intros [].
    intros r'. cbn. by apply is_Some_insert_present.
  - by destruct (the_tab_Throw v st Hv) as [e ->].
Qed.

Lemma the_dialog_Throw v st :
  ¬ is_dialog st v → ∃ e, the_dialog v st = (Throw e, st).
Proof.
  unfold is_dialog, the_dialog. destruct v as [r|]; [|by eexists]. cbn.
  rewrite run_bind. cbn. destruct (dialogs st !! r); [|by eexists].
  intros []. by eexists.
Qed.

Lemma keeps_steady_dialog_put st0 f v : keeps (steady st0) (steady st0) (dialog_put f v).
Proof.
  intros st Hst. unfold dialog_put. rewrite run_bind.
  destruct (decide (is_Some (v ≫= (dialogs st !!.)))) as [[o Ho]|Hv].
  - destruct v as [r|]; [|done]. cbn in Ho.
    rewrite (the_dialog_run r st o Ho). cbn.
    eapply steady_trans; [done|].
    apply steady_frame; try done; try by intros [].
    intros r'. cbn. by apply is_Some_insert_present.
  - by destruct (the_dialog_Throw v st Hv) as [e ->].
Qed.

Ltac keeps_steady :=
  repeat first
    [ apply keeps_steady_getOrAssign
    | apply keeps_steady_proxy | apply keeps_steady_fire
    | apply keeps_steady_button_put | apply keeps_steady_tab_put
    | apply keeps_steady_dialog_put
    | apply keeps_steady_the_button | apply keeps_steady_the_tab
    | apply keeps_steady_the_dialog
    | apply keeps_forEach; intros ? _
    | apply keeps_array_map; intros ? _
    | match goal with
      | |- keeps _ _ (mbind (λ '(_, _), _) _) => apply keeps_bind; [|intros []]
      end
    | keeps_step ].

Lemma keeps_steady_run_op st0 op :
  is_factory op = false → keeps (steady st0) (steady st0) (run_op op).
Proof.
  destruct op; intros [=]; cbn [run_op];
    unfold Dialog_open, Dialog_close, Dialog_updateContent, open, close,
      updateDialogContent, Tab_updateContent, updateTabContent, set_label,
      set_enabled, updateButton, onButtonClick, call,
      dialog_get, tab_get, button_get;
    rewrite ?getDialogHandle_eq, ?getButtonHandle_eq, ?getTabHandle_eq;
    keeps_steady.
Qed.

Lemma steady_run_op op st : is_factory op = false → steady st (run_op op st).2.
Proof.
  intros Hop.
  pose proof (keeps_steady_run_op st op Hop st (steady_refl st)) as H.
  by destruct (run_op op st) as [[[]|e] st'].
Qed.

Lemma steady_grows_of st st' : steady st st' → grows st st'.
Proof. by intros []. Qed.

Lemma wf_createButton label st : wf st → wf (createButton label st).2.
Proof.
  intros Hwf. pose proof (wf_run_op (CreateButton label) st Hwf eq_refl) as H.
  cbn [run_op] in H. rewrite run_bind in H.
  by destruct (createButton label st) as [[r|e] st'].
Qed.

Lemma grows_createButton label st : wf st → grows st (createButton label st).2.
Proof.
  intros Hwf. pose proof (advances_createButton label st Hwf) as Hadv.
  pose proof (wf_fresh_ref KButton (heap_next st) st Hwf ltac:(lia)) as Hb.
  rewrite createButton_run in Hadv |- * by done. cbn [snd] in *.
  split; cbn; try done.
  - by apply prefix_app_r.
  - intros [] v h; cbn; try congruence.
    rewrite !lookup_insert. repeat case_decide; try congruence.
    intros [= <-]. lia.
  - intros h c. rewrite lookup_insert. case_decide; [|congruence].
    intros [= <-]. lia.
Qed.

Lemma grows_createTab title st : wf st → grows st (createTab title st).2.
Proof.
  intros Hwf. pose proof (advances_createTab title st Hwf) as Hadv.
  rewrite createTab_run in Hadv |- *. cbn [snd] in *.
  split; cbn; try done.
  - intros [] v h; cbn; try congruence.
    rewrite !lookup_insert. case_decide; [|congruence]. intros [= <-]. lia.
  - congruence.
  - intros r Hr. rewrite !lookup_insert. by repeat case_decide.
Qed.

(** [createDialog] is two [createButton]s and then only touches the dialog. *)
Lemma createDialog_as_buttons title st :
  let n := heap_next st in
  let n1 := Pos.succ n in
  let n2 := Pos.succ n1 in
  let st2 := (createButton "Cancel"
    (createButton "Done" (set_heap_next Pos.succ st)).2).2 in
  _buttonHandles st !! Some n1 = None →
  _buttonHandles st !! Some n2 = None →
  (createDialog title st).2 =
    set_registry KDialog <[Some n := _currentHandle
        (set_dialogs <[n := DialogImpl.mk (Some title) None (Some n1) (Some n2) None]>
        (set_dialogs <[n := DialogImpl.mk None None (Some n1) (Some n2) None]>
        (set_dialogs <[n := DialogImpl.mk None None (Some n1) None None]>
        (set_dialogs <[n := DialogImpl.new]> st2))))]>
      (set_currentHandle (λ h, h + 1)%N
        (set_dialogs <[n := DialogImpl.mk (Some title) None (Some n1) (Some n2) None]>
        (set_dialogs <[n := DialogImpl.mk None None (Some n1) (Some n2) None]>
        (set_dialogs <[n := DialogImpl.mk None None (Some n1) None None]>
        (set_dialogs <[n := DialogImpl.new]> st2))))).
Proof.
  intros n n1 n2 st2 H1 H2. subst st2.
  rewrite createDialog_run by done.
  rewrite (createButton_run "Done") by done. cbn [snd].
  rewrite (createButton_run "Cancel"); cycle 1.
  { cbn. rewrite !lookup_insert_ne by (intros [=]; lia). done. }
  cbn. by rewrite <-app_assoc.
Qed.

Lemma grows_set_heap_next st : grows st (set_heap_next Pos.succ st).
Proof.
  split; cbn; try done.
  - split; cbn; try done; try (by intros []); try congruence; lia.
  - intros [] v h; cbn; congruence.
  - congruence.
Qed.

Lemma grows_set_dialogs r o st : grows st (set_dialogs <[r := o]> st).
Proof.
  split; cbn; try done.
  - apply advances_set_dialogs.
  - intros [] v h; cbn; congruence.
  - congruence.
  - intros r' Hr'. rewrite lookup_insert. by case_decide.
Qed.

Lemma grows_assign k v st :
  registry k st !! v = None →
  grows st (set_registry k <[v := _currentHandle st]>
    (set_currentHandle (λ h, h + 1)%N st)).
Proof. intros Hv. by apply steady_grows_of, steady_assign. Qed.

Lemma grows_createDialog title st : wf st → grows st (createDialog title st).2.
Proof.
  intros Hwf.
  pose proof (wf_fresh_ref KButton (Pos.succ (heap_next st)) st Hwf ltac:(lia)) as H1.
  pose proof (wf_fresh_ref KButton (Pos.succ (Pos.succ (heap_next st))) st Hwf
    ltac:(lia)) as H2.
  pose proof (wf_fresh_ref KDialog (heap_next st) st Hwf ltac:(lia)) as H0.
  rewrite createDialog_as_buttons by done.
  pose proof (wf_set_heap_next st Hwf) as Hwf0.
  pose proof (wf_createButton "Done" _ Hwf0) as Hwf1.
  eapply grows_trans; [apply grows_set_heap_next|].
  eapply grows_trans; [by apply grows_createButton|].
  eapply grows_trans; [by apply grows_createButton|].
  do 4 (eapply grows_trans; [apply grows_set_dialogs|]).
  apply grows_assign.
  rewrite (createButton_run "Done") by done. cbn [snd].
  rewrite (createButton_run "Cancel"); [done|].
  cbn. rewrite !lookup_insert_ne by (intros [=]; lia). done.
Qed.

Lemma grows_run_op op st : wf st → grows st (run_op op st).2.
Proof.
  intros Hwf. destruct (is_factory op) eqn:Hop.
  - destruct op; try done; cbn [run_op]; rewrite run_bind.
    + pose proof (grows_createDialog title st Hwf).
      by destruct (createDialog title st) as [[r|e] st'].
    + pose proof (grows_createTab title st Hwf).
      by destruct (createTab title st) as [[r|e] st'].
    + pose proof (grows_createButton label st Hwf).
      by destruct (createButton label st) as [[r|e] st'].
  - by apply steady_grows_of, steady_run_op.
Qed.

Lemma grows_run_ops ops : ∀ st,
  wf st → closed_ops ops st = true → grows st (run_ops ops st).
Proof.
  induction ops as [|op ops IH]; intros st Hwf Hops; [apply grows_refl|].
  cbn in Hops. apply andb_true_iff in Hops as [Hop Hops]. cbn [run_ops].
  eapply grows_trans; [by apply grows_run_op|].
  apply IH; [by apply wf_run_op|done].
Qed.

(** ** Registries, callbacks and objects agree *)

Lemma consistent_init : consistent init.
Proof.
  split; [apply wf_init|..]; cbn; intros *; rewrite ?lookup_empty;
    try by intros [].
  done.
Qed.

Lemma consistent_steady st st' :
  consistent st → steady st st' → wf st' → consistent st'.
Proof.
  intros [Hwf Hd Ht Hb Hc] Hst Hwf'.
  pose proof (grows_advances _ _ (steady_grows _ _ Hst)) as Hadv.
  split; [done|..].
  - intros r Hr%(steady_dialogs _ _ Hst)%Hd. destruct Hr as [h Hh].
    exists h. by apply (advances_lookup _ _ KDialog _ _ Hadv).
  - intros r Hr%(steady_tabs _ _ Hst)%Ht. destruct Hr as [h Hh].
    exists h. by apply (advances_lookup _ _ KTab _ _ Hadv).
  - intros r Hr%(steady_buttons _ _ Hst)%Hb. destruct Hr as (h & Hh & Hcb).
    exists h. split; [by apply (advances_lookup _ _ KButton _ _ Hadv)|].
    by rewrite (steady_onClickCallbacks _ _ Hst).
  - intros h r. rewrite (steady_onClickCallbacks _ _ Hst).
    intros [Hh Hr]%Hc. split; [by apply (advances_lookup _ _ KButton _ _ Hadv)|].
    by apply (adv_buttons _ _ Hadv).
Qed.

Lemma consistent_createButton label st :
  consistent st → consistent (createButton label st).2.
Proof.
  intros [Hwf Hd Ht Hb Hc].
  pose proof (wf_createButton label st Hwf) as Hwf'.
  pose proof (wf_fresh_ref KButton (heap_next st) st Hwf ltac:(lia)) as Hf.
  cbn in Hf. rewrite createButton_run in Hwf' |- * by done. cbn [snd] in *.
  split; [done|exact Hd|exact Ht|..]; cbn.
  - intros r. destruct (decide (r = heap_next st)) as [->|Hne].
    + intros _. eexists. split; apply lookup_insert_eq.
    + rewrite !lookup_insert_ne by done. intros (h & Hh & Hcb)%Hb.
      exists h. split; [by rewrite !lookup_insert_ne by congruence|].
      rewrite lookup_insert_ne; [done|]. apply (wf_callbacks _ Hwf) in Hcb. lia.
  - intros h r. rewrite lookup_insert. case_decide as Hh.
    + intros [= <-]. subst h. split; [apply lookup_insert_eq|].
      rewrite lookup_insert_eq. by eexists.
    + intros [Hr Ho]%Hc. split.
      * rewrite !lookup_insert_ne; [done|congruence..].
      * rewrite !lookup_insert. by repeat case_decide.
Qed.

Lemma consistent_createTab title st :
  consistent st → consistent (createTab title st).2.
Proof.
  intros [Hwf Hd Ht Hb Hc].
  pose proof (wf_run_op (CreateTab title) st Hwf eq_refl) as Hwf'.
  cbn [run_op] in Hwf'. rewrite run_bind in Hwf'.
  rewrite createTab_run in Hwf' |- *. cbn [snd] in *.
  split; [done|exact Hd| |exact Hb|exact Hc]; cbn.
  intros r. destruct (decide (r = heap_next st)) as [->|Hne].
  - intros _. rewrite lookup_insert_eq. by eexists.
  - rewrite !lookup_insert_ne by congruence. apply Ht.
Qed.

Lemma consistent_set_heap_next st :
  consistent st → consistent (set_heap_next Pos.succ st).
Proof. intros [Hwf Hd Ht Hb Hc]. split; [by apply wf_set_heap_next|done..]. Qed.

(** A dialog is stored together with a fresh handle for it. *)
Lemma consistent_add_dialog r o st :
  consistent st → (r < heap_next st)%positive →
  closed_dialog (heap_next st) o = true →
  consistent (set_registry KDialog <[Some r := _currentHandle st]>
    (set_currentHandle (λ h, h + 1)%N (set_dialogs <[r := o]> st))).
Proof.
  intros [Hwf Hd Ht Hb Hc] Hr Ho. split.
  - apply (wf_assign KDialog (Some r) (set_dialogs <[r := o]> st)).
    + by apply wf_set_dialogs.
    + by apply closed_Some.
  - intros r'. cbn. rewrite !lookup_insert.
    repeat case_decide; try congruence; eauto.
  - exact Ht.
  - exact Hb.
  - exact Hc.
Qed.

Lemma set_dialogs_insert_insert r a b st :
  set_dialogs <[r := a]> (set_dialogs <[r := b]> st) = set_dialogs <[r := a]> st.
Proof. unfold set_dialogs. cbn. f_equal. apply insert_insert_eq. Qed.

Lemma heap_next_createButton label st :
  wf st → heap_next (createButton label st).2 = Pos.succ (heap_next st).
Proof.
  intros Hwf. rewrite createButton_run; [done|].
  apply (wf_fresh_ref KButton); [done|lia].
Qed.

Lemma consistent_createDialog title st :
  consistent st → consistent (createDialog title st).2.
Proof.
  intros Hst. pose proof (cons_wf _ Hst) as Hwf.
  pose proof (wf_fresh_ref KButton (Pos.succ (heap_next st)) st Hwf ltac:(lia)) as H1.
  pose proof (wf_fresh_ref KButton (Pos.succ (Pos.succ (heap_next st))) st Hwf
    ltac:(lia)) as H2.
  rewrite createDialog_as_buttons by done.
  rewrite !set_dialogs_insert_insert.
  pose proof (consistent_set_heap_next st Hst) as Hst0.
  pose proof (consistent_createButton "Done" _ Hst0) as Hst1.
  pose proof (consistent_createButton "Cancel" _ Hst1) as Hst2.
  assert (heap_next (createButton "Cancel"
    (createButton "Done" (set_heap_next Pos.succ st)).2).2
    = Pos.succ (Pos.succ (Pos.succ (heap_next st)))) as Hn.
  { rewrite !heap_next_createButton; [done|by apply cons_wf..]. }
  apply (consistent_add_dialog (heap_next st)
    (DialogImpl.mk (Some title) None (Some (Pos.succ (heap_next st)))
       (Some (Pos.succ (Pos.succ (heap_next st)))) None) _ Hst2).
  - rewrite Hn. lia.
  - rewrite Hn. unfold closed_dialog. cbn.
    rewrite !andb_true_iff, !bool_decide_eq_true. lia.
Qed.

Lemma consistent_run_op op st :
  consistent st → closed_op (heap_next st) op = true → consistent (run_op op st).2.
Proof.
  intros Hst Hop. destruct (is_factory op) eqn:Hf.
  - destruct op; try done; cbn [run_op]; rewrite run_bind.
    + pose proof (consistent_createDialog title st Hst).
      by destruct (createDialog title st) as [[r|e] st'].
    + pose proof (consistent_createTab title st Hst).
      by destruct (createTab title st) as [[r|e] st'].
    + pose proof (consistent_createButton label st Hst).
      by destruct (createButton label st) as [[r|e] st'].
  - eapply consistent_steady; [done|by apply steady_run_op|].
    apply wf_run_op; [by apply cons_wf|done].
Qed.

Lemma consistent_run_ops ops : ∀ st,
  consistent st → closed_ops ops st = true → consistent (run_ops ops st).
Proof.
  induction ops as [|op ops IH]; intros st Hst Hops; [done|].
  cbn in Hops. apply andb_true_iff in Hops as [Hop Hops]. cbn [run_ops].
  apply IH; [by apply consistent_run_op|done].
Qed.

Lemma reachable_consistent st : reachable st → consistent st.
Proof.
  intros (ops & Hops & <-). apply consistent_run_ops; [apply consistent_init|done].
Qed.

(** ** Synchronizing what is already registered *)

Lemma send_all_app a b st : send_all b (send_all a st) = send_all (a ++ b) st.
Proof. unfold send_all, set_sent. cbn. f_equal. by rewrite app_assoc. Qed.

Lemma send_all_nil st : send_all [] st = st.
Proof. destruct st. unfold send_all, set_sent. cbn. by rewrite app_nil_r. Qed.

(** Run a step at the state the goal has reached. *)
Ltac here k :=
  match goal with
  | |- mbind _ _ ?s = _ => k s
  end.

Lemma updateButton_exact v o h st :
  v ≫= (buttons st !!.) = Some o → registry KButton st !! v = Some h →
  updateButton v st = (Ok tt, send_all [button_message st v] st).
Proof.
  intros Ho Hh. unfold updateButton. rewrite getButtonHandle_eq.
  step (getOrAssign_Some _ _ _ _ Hh).
  step (button_get_run ButtonImpl._label _ _ _ Ho).
  step (button_get_run ButtonImpl._enabled _ _ _ Ho).
  unfold button_message, handle_in, button_details. by rewrite Hh, Ho.
Qed.

Lemma Tab_updateContent_exact v o h st :
  v ≫= (tabs st !!.) = Some o → registry KTab st !! v = Some h →
  Tab_updateContent v st = (Ok tt, send_all [tab_message st v] st).
Proof.
  intros Ho Hh. unfold Tab_updateContent.
  destruct (the_tab_run _ _ _ Ho) as (r & -> & Hthe). step Hthe.
  unfold updateTabContent. rewrite getTabHandle_eq.
  step (getOrAssign_Some _ _ _ _ Hh).
  step (tab_get_run TabImpl.title _ _ _ Ho).
  step (tab_get_run TabImpl.content _ _ _ Ho).
  unfold tab_message, handle_in, tab_details. by rewrite Hh, Ho.
Qed.

Lemma forEach_updateButton_exact l : ∀ st,
  Forall (is_button st) l →
  Forall (λ v, is_Some (registry KButton st !! v)) l →
  forEach updateButton l st = (Ok tt, send_all (button_message st <$> l) st).
Proof.
  induction l as [|v l IH]; intros st Hl Hr.
  - cbn. by rewrite send_all_nil.
  - apply Forall_cons in Hl as [[o Ho] Hl]. apply Forall_cons in Hr as [[h Hh] Hr].
    cbn [forEach]. step (updateButton_exact _ _ _ _ Ho Hh).
    rewrite (IH (send_all [button_message st v] st)) by done.
    by rewrite send_all_app.
Qed.

Lemma forEach_Tab_updateContent_exact l : ∀ st,
  Forall (is_tab st) l →
  Forall (λ v, is_Some (registry KTab st !! v)) l →
  forEach Tab_updateContent l st = (Ok tt, send_all (tab_message st <$> l) st).
Proof.
  induction l as [|v l IH]; intros st Hl Hr.
  - cbn. by rewrite send_all_nil.
  - apply Forall_cons in Hl as [[o Ho] Hl]. apply Forall_cons in Hr as [[h Hh] Hr].
    cbn [forEach]. step (Tab_updateContent_exact _ _ _ _ Ho Hh).
    rewrite (IH (send_all [tab_message st v] st)) by done.
    by rewrite send_all_app.
Qed.

Lemma updateDialogContent_exact d o st :
  dialogs st !! d = Some o → well_typed st o → synchronized d o st →
  updateDialogContent (Some d) st = (Ok tt, send_all (dialog_messages st d o) st).
Proof.
  intros Hd (Ht & Hc & [ok Hok] & [cancel Hcancel]) [[h Hh] Hst Hsc [hok Hhok] [hcancel Hhcancel]].
  unfold updateDialogContent. rewrite getDialogHandle_eq, getButtonHandle_eq.
  step (getOrAssign_Some _ _ _ _ Hh).
  step (dialog_get_run DialogImpl.content _ _ _ Hd).
  set (m1 := tab_message st <$> content_tabs (DialogImpl.content o)).
  assert (match DialogImpl.content o with
          | Some (ContentTabs tabs) => forEach Tab_updateContent tabs
          | _ => mret tt
          end st = (Ok tt, send_all m1 st)) as Hrun1.
  { subst m1. destruct (DialogImpl.content o) as [[s|l]|]; cbn [content_tabs] in *.
    - by rewrite send_all_nil.
    - by apply forEach_Tab_updateContent_exact.
    - by rewrite send_all_nil. }
  step Hrun1.
  here ltac:(fun s => step (dialog_get_run DialogImpl.customButtons d s o Hd)).
  set (m2 := button_message st <$> default [] (DialogImpl.customButtons o)).
  assert (match DialogImpl.customButtons o with
          | Some customButtons => forEach updateButton customButtons
          | None => mret tt
          end (send_all m1 st) = (Ok tt, send_all (m1 ++ m2) st)) as Hrun2.
  { subst m2. destruct (DialogImpl.customButtons o) as [l|]; cbn [default] in *.
    - rewrite (forEach_updateButton_exact l (send_all m1 st)) by done.
      by rewrite send_all_app.
    - by rewrite app_nil_r. }
  step Hrun2.
  here ltac:(fun s => step (dialog_get_run DialogImpl.okButton d s o Hd)).
  here ltac:(fun s =>
    step (updateButton_exact (DialogImpl.okButton o) ok hok s Hok Hhok)).
  rewrite send_all_app.
  here ltac:(fun s => step (dialog_get_run DialogImpl.cancelButton d s o Hd)).
  here ltac:(fun s =>
    step (updateButton_exact (DialogImpl.cancelButton o) cancel hcancel s Hcancel Hhcancel)).
  rewrite send_all_app.
  here ltac:(fun s => step (dialog_get_run DialogImpl.title d s o Hd)).
  here ltac:(fun s => step (dialog_get_run DialogImpl.okButton d s o Hd)).
  here ltac:(fun s => step (getOrAssign_Some KButton (DialogImpl.okButton o) s hok Hhok)).
  here ltac:(fun s => step (dialog_get_run DialogImpl.cancelButton d s o Hd)).
  here ltac:(fun s =>
    step (getOrAssign_Some KButton (DialogImpl.cancelButton o) s hcancel Hhcancel)).
  here ltac:(fun s => step (dialog_get_run DialogImpl.content d s o Hd)).
  here ltac:(fun s => step (content_details_run (DialogImpl.content o) s Hst)).
  here ltac:(fun s => step (dialog_get_run DialogImpl.customButtons d s o Hd)).
  here ltac:(fun s => step (customButtons_details_run (DialogImpl.customButtons o) s Hsc)).
  change (proxy ?m ?s) with (Ok tt, send_all [m] s). rewrite send_all_app.
  assert (dialog_details st o =
    {| dd_title := DialogImpl.title o; dd_okButton := hok; dd_cancelButton := hcancel;
       dd_content := content_details st (DialogImpl.content o);
       dd_customButtons :=
         (λ l : list (option ObjRef), handle_in KButton st <$> l)
           <$> DialogImpl.customButtons o |}) as Hdetails.
  { unfold dialog_details, handle_in. by rewrite Hhok, Hhcancel. }
  assert (dialog_messages st d o =
    (((m1 ++ m2) ++ [button_message st (DialogImpl.okButton o)])
       ++ [button_message st (DialogImpl.cancelButton o)])
      ++ [SetDialogDetails h (dialog_details st o)]) as ->.
  { unfold dialog_messages, children_messages, handle_in. rewrite Hh. cbn [default].
    by rewrite <-!app_assoc. }
  rewrite Hdetails. reflexivity.
Qed.

Lemma open_exact d o st :
  dialogs st !! d = Some o → well_typed st o → synchronized d o st →
  open (Some d) st =
    (Ok tt, send_all (dialog_messages st d o ++ [Open (handle_in KDialog st (Some d))]) st).
Proof.
  intros Hd Hwt Hsync. destruct (sync_dialog _ _ _ Hsync) as [h Hh].
  unfold open. rewrite getDialogHandle_eq.
  step (getOrAssign_Some _ _ _ _ Hh).
  step (updateDialogContent_exact d o st Hd Hwt Hsync).
  change (proxy ?m ?s) with (Ok tt, send_all [m] s). rewrite send_all_app.
  unfold handle_in. by rewrite Hh.
Qed.

Lemma consistent_synchronized d o st :
  consistent st → dialogs st !! d = Some o → well_typed st o → synchronized d o st.
Proof.
  intros Hst Hd (Ht & Hc & Hok & Hcancel).
  assert (∀ v, is_button st v → is_Some (registry KButton st !! v)) as Hb.
  { intros [r|] Hr; [|by destruct Hr].
    destruct (cons_buttons _ Hst r Hr) as (h & Hh & _). by exists h. }
  split.
  - apply (cons_dialogs _ Hst). by eexists.
  - eapply Forall_impl; [exact Ht|]. intros [r|] Hr; [|by destruct Hr].
    by apply (cons_tabs _ Hst).
  - eapply Forall_impl; [exact Hc|]. done.
  - by apply Hb.
  - by apply Hb.
Qed.

Lemma onButtonClick_Some h b st :
  _onClickCallbacks st !! h = Some (OnClickFire b) →
  onButtonClick h st = (Ok tt, set_fired (λ l, l ++ [b]) st).
Proof. intros H. unfold onButtonClick. rewrite run_bind. cbn. by rewrite H. Qed.

Lemma onButtonClick_None h st :
  _onClickCallbacks st !! h = None → onButtonClick h st = (Throw TypeError, st).
Proof. intros H. unfold onButtonClick. rewrite run_bind. cbn. by rewrite H. Qed.

(** * Further properties *)

(** ** Reachable states *)

(** X1. In every reachable state a handle stored for one object is stored
    for no other, be it in the same registry or in another, and it is below
    the counter, so that no later allocation returns it. *)
Theorem reachable_handles_distinct k1 v1 k2 v2 h st :
  reachable st → (k1, v1) ≠ (k2, v2) → registry k1 st !! v1 = Some h →
  registry k2 st !! v2 ≠ Some h ∧ (h < _currentHandle st)%N.
Proof.
  intros Hwf%reachable_wf Hne H1. split; [|by eapply wf_allocated].
  intros H2. destruct (wf_injective _ Hwf _ _ _ _ _ H1 H2). congruence.
Qed.

Lemma reachable_handles_distinct_witness :
  registry KDialog scenario !! Some 1%positive ≠ Some 1%N
  ∧ (1 < _currentHandle scenario)%N.
Proof.
  apply (reachable_handles_distinct KButton (Some 2%positive) KDialog (Some 1%positive)
    1%N scenario).
  - apply reachable_scenario.
  - intros [=].
  - by vm_compute.
Defined.

(** X2. In every reachable state, that is between two operations of the
    extension, each dialog, tab and button has a handle in its registry:
    asking for the handle of an object there returns it and changes
    nothing. *)
Theorem reachable_getHandle_unchanged k v st :
  reachable st → is_object k st v → ∃ h, getHandle k v st = (Ok h, st).
Proof.
  intros Hst%reachable_consistent Hv. rewrite getHandle_eq.
  assert (is_Some (registry k st !! v)) as [h Hh].
  { destruct v as [r|]; [|by destruct k, Hv]. destruct k; cbn in Hv |- *.
    - by apply (cons_dialogs _ Hst).
    - by apply (cons_tabs _ Hst).
    - destruct (cons_buttons _ Hst r Hv) as (h & Hh & _). by exists h. }
  exists h. by apply getOrAssign_Some.
Qed.

Lemma reachable_getHandle_unchanged_witness :
  ∃ h, getHandle KTab (Some 4%positive) scenario = (Ok h, scenario).
Proof.
  apply (reachable_getHandle_unchanged KTab (Some 4%positive) scenario).
  - apply reachable_scenario.
  - apply (bool_decide_unpack _). by vm_compute.
Defined.

(** X3. In every reachable state a click carrying the handle the registry
    holds for a button fires the emitter of that button, once, and that
    handle is the only one that reaches the button. *)
Theorem reachable_click_reaches_button b o st :
  reachable st → buttons st !! b = Some o →
  ∃ h,
    _buttonHandles st !! Some b = Some h
    ∧ onButtonClick h st = (Ok tt, set_fired (λ l, l ++ [b]) st)
    ∧ ∀ h', _onClickCallbacks st !! h' = Some (OnClickFire b) → h' = h.
Proof.
  intros Hst%reachable_consistent Hb.
  destruct (cons_buttons _ Hst b) as (h & Hh & Hc); [by eexists|].
  exists h. split_and!; [done|by apply onButtonClick_Some|].
  intros h' [Hh' _]%(cons_callbacks _ Hst). congruence.
Qed.

Lemma reachable_click_reaches_button_witness :
  ∃ h,
    _buttonHandles scenario !! Some 5%positive = Some h
    ∧ onButtonClick h scenario = (Ok tt, set_fired (λ l, l ++ [5%positive]) scenario)
    ∧ ∀ h', _onClickCallbacks scenario !! h' = Some (OnClickFire 5%positive) → h' = h.
Proof.
  apply (reachable_click_reaches_button 5%positive (ButtonImpl.mk (Some "Help") true)
    scenario).
  - apply reachable_scenario.
  - by vm_compute.
Defined.

(** X4. In every reachable state a click that is delivered without
    exception carried the handle of an existing button, and all it did was
    fire that button's emitter. *)
Theorem reachable_click_Ok_is_button h st st' :
  reachable st → onButtonClick h st = (Ok tt, st') →
  ∃ b,
    _buttonHandles st !! Some b = Some h
    ∧ is_Some (buttons st !! b)
    ∧ st' = set_fired (λ l, l ++ [b]) st.
Proof.
  intros Hst%reachable_consistent.
  destruct (_onClickCallbacks st !! h) as [[b]|] eqn:Hc.
  - rewrite (onButtonClick_Some _ _ _ Hc). intros [= <-].
    destruct (cons_callbacks _ Hst _ _ Hc). by exists b.
  - by rewrite (onButtonClick_None _ _ Hc).
Qed.

Lemma reachable_click_Ok_is_button_witness :
  ∃ b,
    _buttonHandles scenario !! Some b = Some 3%N
    ∧ is_Some (buttons scenario !! b)
    ∧ set_fired (λ l, l ++ [3%positive]) scenario = set_fired (λ l, l ++ [b]) scenario.
Proof.
  apply (reachable_click_Ok_is_button 3%N scenario).
  - apply reachable_scenario.
  - by vm_compute.
Defined.

(** X5. The handle under which [createButton] announces the new button is
    dead: after any further operations it is in no registry, and a click
    carrying it throws a [TypeError] and changes nothing. *)
Theorem createButton_first_handle_dead label st ops :
  wf st → closed_ops ops (createButton label st).2 = true →
  let h0 := _currentHandle st in
  let st2 := run_ops ops (createButton label st).2 in
  (∀ k v, registry k st2 !! v ≠ Some h0)
  ∧ onButtonClick h0 st2 = (Throw TypeError, st2).
Proof.
  intros Hwf Hops h0 st2. subst h0 st2.
  pose proof (wf_createButton label st Hwf) as Hwf1.
  pose proof (grows_run_ops ops _ Hwf1 Hops) as Hg.
  pose proof (wf_fresh_ref KButton (heap_next st) st Hwf ltac:(lia)) as Hb.
  revert Hg. rewrite createButton_run by done. cbn [snd].
  set (st1 := mkState _ _ _ _ _ _ _ _ _ _ _). set (st2 := run_ops ops st1).
  intros Hg.
  assert (∀ k v, registry k st1 !! v ≠ Some (_currentHandle st)) as Hdead1.
  { intros k v Hv. assert (registry k st !! v = Some (_currentHandle st)) as Hold.
    { destruct k; cbn in Hv |- *; [done|done|]. revert Hv.
      rewrite !lookup_insert. repeat case_decide; try done; intros [=]; lia. }
    apply (wf_allocated _ Hwf) in Hold. lia. }
  split.
  - intros k v Hv. destruct (registry k st1 !! v) as [h|] eqn:H1.
    + apply (Hdead1 k v). rewrite H1, <-Hv. symmetry.
      by apply (advances_lookup _ _ _ _ _ (grows_advances _ _ Hg)).
    + pose proof (grows_handles _ _ Hg k v _ Hv H1) as Hle. cbn in Hle. lia.
  - apply onButtonClick_None.
    destruct (_onClickCallbacks st2 !! _currentHandle st) as [c|] eqn:H2; [|done].
    destruct (_onClickCallbacks st1 !! _currentHandle st) as [c1|] eqn:H1.
    + revert H1. cbn. rewrite lookup_insert_ne by lia.
      intros H1%(wf_callbacks _ Hwf). lia.
    + pose proof (grows_callbacks _ _ Hg _ _ H2 H1) as Hle. cbn in Hle. lia.
Qed.

Lemma createButton_first_handle_dead_witness :
  let st2 := run_ops [CreateDialog "Connect"; DialogOpen (Some 2%positive)]
    (createButton "Help" init).2 in
  (∀ k v, registry k st2 !! v ≠ Some 0%N)
  ∧ onButtonClick 0 st2 = (Throw TypeError, st2).
Proof.
  apply (createButton_first_handle_dead "Help" init
    [CreateDialog "Connect"; DialogOpen (Some 2%positive)]).
  - apply wf_init.
  - by vm_compute.
Defined.

(** ** Dialogs *)

(** X6. In every reachable state, opening or re-synchronizing a dialog
    whose children are tabs and buttons allocates and registers nothing: the
    state changes by the messages sent and by nothing else.  [open()] sends
    the children's details, the dialog's details and [open];
    [updateContent()] sends the same without [open]. *)
Theorem reachable_open_only_sends d o st :
  reachable st → dialogs st !! d = Some o → well_typed st o →
  Dialog_open (Some d) st =
    (Ok tt, send_all (dialog_messages st d o ++ [Open (handle_in KDialog st (Some d))]) st)
  ∧ Dialog_updateContent (Some d) st = (Ok tt, send_all (dialog_messages st d o) st).
Proof.
  intros Hst%reachable_consistent Hd Hwt.
  pose proof (consistent_synchronized d o st Hst Hd Hwt) as Hsync.
  unfold Dialog_open, Dialog_updateContent. split.
  - step (the_dialog_run d st o Hd). by apply open_exact.
  - step (the_dialog_run d st o Hd). by apply updateDialogContent_exact.
Qed.

Lemma reachable_open_only_sends_witness :
  let o := DialogImpl.mk (Some "Connect") (Some (ContentTabs [Some 4%positive]))
    (Some 2%positive) (Some 3%positive) (Some [Some 5%positive]) in
  Dialog_open (Some 1%positive) scenario =
    (Ok tt, send_all (dialog_messages scenario 1%positive o
       ++ [Open (handle_in KDialog scenario (Some 1%positive))]) scenario)
  ∧ Dialog_updateContent (Some 1%positive) scenario =
      (Ok tt, send_all (dialog_messages scenario 1%positive o) scenario).
Proof.
  intros o. apply (reachable_open_only_sends 1%positive o scenario).
  - apply reachable_scenario.
  - by vm_compute.
  - apply (bool_decide_unpack _). by vm_compute.
Defined.

Lemma close_exact d h st :
  registry KDialog st !! d = Some h → close d st = (Ok tt, send_all [Close h] st).
Proof.
  intros Hh. unfold close. rewrite getDialogHandle_eq.
  by step (getOrAssign_Some _ _ _ _ Hh).
Qed.

(** X7. In every reachable state [open()] followed by [close()] on a
    dialog sends [open] and then [close] with the same handle, the one the
    dialog's details were keyed by, and [close] sends nothing else. *)
Theorem reachable_open_then_close d o st :
  reachable st → dialogs st !! d = Some o → well_typed st o →
  (Dialog_open (Some d);; Dialog_close (Some d)) st =
    (Ok tt,
     send_all (dialog_messages st d o
       ++ [Open (handle_in KDialog st (Some d)); Close (handle_in KDialog st (Some d))])
       st).
Proof.
  intros Hst%reachable_consistent Hd Hwt.
  pose proof (consistent_synchronized d o st Hst Hd Hwt) as Hsync.
  destruct (sync_dialog _ _ _ Hsync) as [h Hh].
  assert (Dialog_open (Some d) st =
    (Ok tt, send_all (dialog_messages st d o ++ [Open h]) st)) as Hopen.
  { unfold Dialog_open. step (the_dialog_run d st o Hd).
    rewrite (open_exact d o st Hd Hwt Hsync). unfold handle_in. by rewrite Hh. }
  step Hopen. unfold Dialog_close.
  here ltac:(fun s => step (the_dialog_run d s o Hd)).
  match goal with
  | |- close _ ?s = _ => rewrite (close_exact (Some d) h s Hh)
  end.
  rewrite send_all_app, <-app_assoc. unfold handle_in. by rewrite Hh.
Qed.

Lemma reachable_open_then_close_witness :
  let o := DialogImpl.mk (Some "Connect") (Some (ContentTabs [Some 4%positive]))
    (Some 2%positive) (Some 3%positive) (Some [Some 5%positive]) in
  (Dialog_open (Some 1%positive);; Dialog_close (Some 1%positive)) scenario =
    (Ok tt,
     send_all (dialog_messages scenario 1%positive o
       ++ [Open (handle_in KDialog scenario (Some 1%positive));
           Close (handle_in KDialog scenario (Some 1%positive))])
       scenario).
Proof.
  intros o. apply (reachable_open_then_close 1%positive o scenario).
  - apply reachable_scenario.
  - by vm_compute.
  - apply (bool_decide_unpack _). by vm_compute.
Defined.

(** X8. [close(dialog)] never throws and performs no synchronization: in any
    state and for any argument, also a dialog that was never opened or
    [undefined], it sends exactly one [close], keyed by the handle the
    registry then holds for the argument, and leaves the objects, the
    callbacks and the handles already registered as they are. *)
Theorem close_sends_close_only d st :
  ∃ h st',
    close d st = (Ok tt, st')
    ∧ evolves st st'
    ∧ registry KDialog st' !! d = Some h
    ∧ sent st' = sent st ++ [Close h].
Proof.
  unfold close. rewrite getDialogHandle_eq.
  destruct (getOrAssign_run KDialog d st) as (h & st1 & Hrun & Hev & Hh & Hsent).
  exists h, (send_all [Close h] st1). step Hrun. split_and!.
  - done.
  - by apply evolves_set_sent.
  - done.
  - cbn. by rewrite Hsent.
Qed.

(** ** Tabs *)

(** X9. [createTab(title)] sends nothing: it stores the title, leaves the
    content [undefined], and stores for the new tab the one handle it
    allocates; the first [updateContent()] of the tab is keyed by that
    handle. *)
Theorem createTab_registers_silently title st :
  wf st →
  ∃ tab st',
    createTab title st = (Ok tab, st')
    ∧ sent st' = sent st
    ∧ tabs st' !! tab = Some (TabImpl.mk (Some title) None)
    ∧ _tabHandles st !! Some tab = None
    ∧ _tabHandles st' !! Some tab = Some (_currentHandle st)
    ∧ _currentHandle st' = (_currentHandle st + 1)%N
    ∧ Tab_updateContent (Some tab) st' =
        (Ok tt,
         send_all [SetTabDetails (_currentHandle st)
           {| td_title := Some title; td_content := None |}] st').
Proof.
  intros Hwf. pose proof (wf_fresh_ref KTab (heap_next st) st Hwf ltac:(lia)) as Hf.
  eexists _, _. rewrite createTab_run. split; [reflexivity|].
  set (st' := mkState _ _ _ _ _ _ _ _ _ _ _).
  assert (tabs st' !! heap_next st = Some (TabImpl.mk (Some title) None)) as Ho
    by apply lookup_insert_eq.
  assert (_tabHandles st' !! Some (heap_next st) = Some (_currentHandle st)) as Hh
    by apply lookup_insert_eq.
  split_and!; [done..|].
  rewrite (Tab_updateContent_exact (Some (heap_next st)) _ _ st' Ho Hh).
  unfold tab_message, handle_in, tab_details.
  change (registry KTab st') with (_tabHandles st').
  change (Some (heap_next st) ≫= (tabs st' !!.)) with (tabs st' !! heap_next st).
  by rewrite Hh, Ho.
Qed.

Lemma createTab_registers_silently_witness :
  ∃ tab st',
    createTab "General" scenario = (Ok tab, st')
    ∧ sent st' = sent scenario
    ∧ tabs st' !! tab = Some (TabImpl.mk (Some "General") None)
    ∧ _tabHandles scenario !! Some tab = None
    ∧ _tabHandles st' !! Some tab = Some (_currentHandle scenario)
    ∧ _currentHandle st' = (_currentHandle scenario + 1)%N
    ∧ Tab_updateContent (Some tab) st' =
        (Ok tt,
         send_all [SetTabDetails (_currentHandle scenario)
           {| td_title := Some "General"; td_content := None |}] st').
Proof.
  apply (createTab_registers_silently "General" scenario).
  apply reachable_wf, reachable_scenario.
Defined.

(** X10. [updateContent()] of a tab sends exactly one [setTabDetails] with
    the tab's current title and content, keyed by the handle the registry
    holds for the tab on return; the objects and the handles already
    registered stay as they are. *)
Theorem Tab_updateContent_sends_one_message tab o st :
  tabs st !! tab = Some o →
  ∃ h st',
    Tab_updateContent (Some tab) st = (Ok tt, st')
    ∧ evolves st st'
    ∧ _tabHandles st' !! Some tab = Some h
    ∧ sent st' = sent st ++
        [SetTabDetails h
           {| td_title := TabImpl.title o; td_content := TabImpl.content o |}].
Proof.
  intros Ho.
  destruct (Tab_updateContent_run (Some tab) st) as (st' & Hrun & Hev & [h Hh] & Hsent).
  { by eexists. }
  exists h, st'. split_and!; [done..|].
  rewrite Hsent. unfold tab_message, handle_in, tab_details. cbn in Hh |- *.
  by rewrite Hh, (ev_tabs _ _ Hev), Ho.
Qed.

Lemma Tab_updateContent_sends_one_message_witness :
  ∃ h st',
    Tab_updateContent (Some 4%positive) scenario = (Ok tt, st')
    ∧ evolves scenario st'
    ∧ _tabHandles st' !! Some 4%positive = Some h
    ∧ sent st' = sent scenario ++
        [SetTabDetails h {| td_title := Some "General"; td_content := Some "form" |}].
Proof.
  apply (Tab_updateContent_sends_one_message 4%positive
    (TabImpl.mk (Some "General") (Some "form")) scenario).
  by vm_compute.
Defined.

Lemma tab_put_run f t o st :
  tabs st !! t = Some o → tab_put f (Some t) st = (Ok tt, set_tabs <[t := f o]> st).
Proof.
  intros Ho. unfold tab_put.
  destruct (the_tab_run (Some t) st o Ho) as (r & [= <-] & Hthe). by step Hthe.
Qed.

(** X11. Assignments to the fields of a tab are not synchronized one by
    one: after [tab.title = ...] and [tab.content = ...] nothing has been
    sent, and the [updateContent()] that follows sends a single
    [setTabDetails] carrying both new values. *)
Theorem tab_writes_sent_together tab o h title content st :
  tabs st !! tab = Some o → _tabHandles st !! Some tab = Some h →
  (tab_put (TabImpl.with_title title) (Some tab);;
   tab_put (TabImpl.with_content content) (Some tab)) st =
    (Ok tt, set_tabs <[tab := TabImpl.mk title content]> st)
  ∧ (tab_put (TabImpl.with_title title) (Some tab);;
     tab_put (TabImpl.with_content content) (Some tab);;
     Tab_updateContent (Some tab)) st =
    (Ok tt,
     send_all [SetTabDetails h {| td_title := title; td_content := content |}]
       (set_tabs <[tab := TabImpl.mk title content]> st)).
Proof.
  intros Ho Hh.
  assert ((tab_put (TabImpl.with_title title) (Some tab);;
           tab_put (TabImpl.with_content content) (Some tab)) st =
    (Ok tt, set_tabs <[tab := TabImpl.mk title content]> st)) as Hput.
  { step (tab_put_run (TabImpl.with_title title) tab o st Ho).
    rewrite (tab_put_run (TabImpl.with_content content) tab
      (TabImpl.with_title title o)) by apply lookup_insert_eq.
    unfold set_tabs. cbn. do 2 f_equal. apply insert_insert_eq. }
  split; [done|].
  step (tab_put_run (TabImpl.with_title title) tab o st Ho).
  rewrite (run_bind_Ok (tab_put (TabImpl.with_content content) (Some tab)) _ _ tt
    (set_tabs <[tab := TabImpl.mk title content]> st)); cycle 1.
  { rewrite (tab_put_run (TabImpl.with_content content) tab
      (TabImpl.with_title title o)) by apply lookup_insert_eq.
    unfold set_tabs. cbn. do 2 f_equal. apply insert_insert_eq. }
  set (st' := set_tabs _ st).
  assert (tabs st' !! tab = Some (TabImpl.mk title content)) as Ho'
    by apply lookup_insert_eq.
  rewrite (Tab_updateContent_exact (Some tab) _ h st' Ho' Hh).
  unfold tab_message, handle_in, tab_details.
  change (registry KTab st') with (_tabHandles st).
  change (Some tab ≫= (tabs st' !!.)) with (tabs st' !! tab).
  by rewrite Hh, Ho'.
Qed.

Lemma tab_writes_sent_together_witness :
  (tab_put (TabImpl.with_title (Some "Advanced")) (Some 4%positive);;
   tab_put (TabImpl.with_content (Some "grid")) (Some 4%positive);;
   Tab_updateContent (Some 4%positive)) scenario =
    (Ok tt,
     send_all [SetTabDetails 5
       {| td_title := Some "Advanced"; td_content := Some "grid" |}]
       (set_tabs <[4%positive := TabImpl.mk (Some "Advanced") (Some "grid")]> scenario)).
Proof.
  apply (tab_writes_sent_together 4%positive (TabImpl.mk (Some "General") (Some "form"))
    5%N (Some "Advanced") (Some "grid") scenario); by vm_compute.
Defined.

(** ** Failures and registrations *)

(** X12. The synchronization of [undefined] does not fail alike for buttons
    and tabs.  [updateButton(undefined)] has asked for the handle by the time
    [undefined.label] throws the [TypeError]: when the registry held no
    handle for [undefined], one has been allocated and stored, and stays.
    [undefined.updateContent()], in a tab position, throws at once and
    changes nothing. *)
Theorem failed_synchronization_of_undefined st :
  updateButton undefined st = (Throw TypeError, (getButtonHandle undefined st).2)
  ∧ (registry KButton st !! undefined = None →
     (getButtonHandle undefined st).2 =
       set_registry KButton <[undefined := _currentHandle st]>
         (set_currentHandle (λ h, h + 1)%N st))
  ∧ (∀ h, registry KButton st !! undefined = Some h →
     (getButtonHandle undefined st).2 = st)
  ∧ Tab_updateContent undefined st = (Throw TypeError, st).
Proof.
  split_and!.
  - apply updateButton_undefined.
  - intros Hnone. rewrite getButtonHandle_eq. by rewrite getOrAssign_None.
  - intros h Hh. rewrite getButtonHandle_eq.
    by rewrite (getOrAssign_Some KButton undefined st h).
  - apply Tab_updateContent_undefined.
Qed.

Lemma failed_synchronization_of_undefined_witness :
  updateButton undefined scenario =
    (Throw TypeError,
     set_registry KButton <[undefined := _currentHandle scenario]>
       (set_currentHandle (λ h, h + 1)%N scenario))
  ∧ Tab_updateContent undefined scenario = (Throw TypeError, scenario).
Proof.
  destruct (failed_synchronization_of_undefined scenario) as (Hrun & Hstate & _ & Ht).
  split; [|exact Ht].
  etrans; [exact Hrun|]. apply (f_equal (pair _)), Hstate. by vm_compute.
Defined.

(** X13. A callback registered for a button is the one a click with the
    button's handle calls; registering again for the same button replaces it
    (one callback per handle). *)
Theorem registerOnClickCallback_then_click v b b' st :
  ∃ h st',
    registerOnClickCallback v (OnClickFire b) st = (Ok tt, st')
    ∧ registry KButton st' !! v = Some h
    ∧ onButtonClick h st' = (Ok tt, set_fired (λ l, l ++ [b]) st')
    ∧ registerOnClickCallback v (OnClickFire b') st' =
        (Ok tt, set_onClickCallbacks <[h := OnClickFire b']> st')
    ∧ onButtonClick h (set_onClickCallbacks <[h := OnClickFire b']> st') =
        (Ok tt, set_fired (λ l, l ++ [b'])
           (set_onClickCallbacks <[h := OnClickFire b']> st')).
Proof.
  unfold registerOnClickCallback. rewrite getButtonHandle_eq.
  destruct (getOrAssign_run KButton v st) as (h & st1 & Hrun & _ & Hh & _).
  exists h, (set_onClickCallbacks <[h := OnClickFire b]> st1).
  step Hrun. split_and!.
  - done.
  - done.
  - apply onButtonClick_Some. apply lookup_insert_eq.
  - by step (getOrAssign_Some KButton v
      (set_onClickCallbacks <[h := OnClickFire b]> st1) h Hh).
  - apply onButtonClick_Some. apply lookup_insert_eq.
Qed.

(** ** What operations leave alone *)

Ltac keeps_same :=
  repeat first
    [ apply keeps_modify; intros ? <-; reflexivity
    | apply keeps_forEach; intros ? _
    | apply keeps_array_map; intros ? _
    | match goal with
      | |- keeps _ _ (mbind (λ '(_, _), _) _) => apply keeps_bind; [|intros []]
      end
    | keeps_step ].

(** X15. Nothing is sent to the main thread by an assignment to a field of
    a tab or of a dialog, by [createTab], or by the delivery of a click,
    whether the operation returns or throws. *)
Theorem silent_operations_send_nothing op st :
  is_silent op = true → sent (run_op op st).2 = sent st.
Proof.
  intros Hop.
  assert (keeps (λ s, sent s = sent st) (λ s, sent s = sent st) (run_op op)) as Hk.
  { destruct op; try discriminate Hop; cbn [run_op];
      unfold createTab, new_ref, getNewHandle, dialog_put, tab_put, the_dialog,
        the_tab, onButtonClick, call, fire;
      keeps_same. }
  specialize (Hk st eq_refl). by destruct (run_op op st) as [[[]|e] st'].
Qed.

Lemma silent_operations_send_nothing_witness :
  sent (run_op (DialogSetContent (Some 1%positive) (Some (ContentText "form"))) scenario).2
  = sent scenario.
Proof.
  apply (silent_operations_send_nothing
    (DialogSetContent (Some 1%positive) (Some (ContentText "form"))) scenario).
  reflexivity.
Defined.

(** X16. Only the delivery of a click fires an emitter: no factory, no field
    assignment and no synchronization does, whether it returns or throws. *)
Theorem only_clicks_fire op st :
  is_click op = false → fired (run_op op st).2 = fired st.
Proof.
  intros Hop.
  assert (keeps (λ s, fired s = fired st) (λ s, fired s = fired st) (run_op op)) as Hk.
  { destruct op; try discriminate Hop; cbn [run_op];
      unfold createDialog, new_DialogImpl, createTab, createButton,
        registerOnClickCallback, Dialog_open, Dialog_close, Dialog_updateContent,
        open, close, updateDialogContent, Tab_updateContent, updateTabContent,
        set_label, set_enabled, updateButton, proxy,
        dialog_put, tab_put, button_put, dialog_get, tab_get, button_get,
        the_dialog, the_tab, the_button,
        getDialogHandle, getTabHandle, getButtonHandle, getNewHandle, new_ref;
      keeps_same. }
  specialize (Hk st eq_refl). by destruct (run_op op st) as [[[]|e] st'].
Qed.

Lemma only_clicks_fire_witness :
  fired (run_op (DialogOpen (Some 1%positive)) scenario).2 = fired scenario.
Proof.
  apply (only_clicks_fire (DialogOpen (Some 1%positive)) scenario). reflexivity.
Defined.

(** X17. Handles are never reused for another object: a handle stored by
    later operations for a value that had none is greater than every handle
    that was stored before them. *)
Theorem later_handles_are_greater ops k v h k' v' h' st :
  wf st → closed_ops ops st = true →
  registry k st !! v = None → registry k (run_ops ops st) !! v = Some h →
  registry k' st !! v' = Some h' → (h' < h)%N.
Proof.
  intros Hwf Hops Hnone Hh Hh'.
  pose proof (grows_handles _ _ (grows_run_ops ops st Hwf Hops) k v h Hh Hnone).
  apply (wf_allocated _ Hwf) in Hh'. lia.
Qed.

Lemma later_handles_are_greater_witness : (4 < 7)%N.
Proof.
  apply (later_handles_are_greater [CreateButton "Help"] KButton (Some 5%positive) 7%N
    KDialog (Some 1%positive) 4%N
    (run_ops [CreateDialog "Connect"; CreateTab "General"] init)).
  - apply reachable_wf. by exists [CreateDialog "Connect"; CreateTab "General"].
  - by vm_compute.
  - by vm_compute.
  - by vm_compute.
  - by vm_compute.
Defined.

(** * The reach of the model *)

(** ** Programs that use positions at their declared types stay in the model *)

Lemma is_button_Some st r : is_button st (Some r) ↔ is_Some (buttons st !! r).
Proof. done. Qed.
Lemma is_tab_Some st r : is_tab st (Some r) ↔ is_Some (tabs st !! r).
Proof. done. Qed.
Lemma is_dialog_Some st r : is_dialog st (Some r) ↔ is_Some (dialogs st !! r).
Proof. done. Qed.

Lemma button_typed_closed st v :
  consistent st → button_typed st v → closed (heap_next st) v = true.
Proof.
  intros Hst [->|Hv]; [done|]. destruct v as [r|]; [|done].
  destruct (cons_buttons _ Hst r Hv) as (h & Hh & _).
  apply closed_Some, (wf_registered _ (cons_wf _ Hst) KButton r h Hh).
Qed.

Lemma tab_typed_closed st v :
  consistent st → tab_typed st v → closed (heap_next st) v = true.
Proof.
  intros Hst [->|Hv]; [done|]. destruct v as [r|]; [|done].
  destruct (cons_tabs _ Hst r Hv) as [h Hh].
  apply closed_Some, (wf_registered _ (cons_wf _ Hst) KTab r h Hh).
Qed.

Lemma dialog_typed_closed st v :
  consistent st → dialog_typed st v → closed (heap_next st) v = true.
Proof.
  intros Hst [->|Hv]; [done|]. destruct v as [r|]; [|done].
  destruct (cons_dialogs _ Hst r Hv) as [h Hh].
  apply closed_Some, (wf_registered _ (cons_wf _ Hst) KDialog r h Hh).
Qed.

Lemma Forall_typed_closed (P : option ObjRef → Prop) n l :
  (∀ v, P v → closed n v = true) → Forall P l → forallb (closed n) l = true.
Proof.
  intros HP. induction 1 as [|v l Hv _ IH]; [done|].
  cbn. by rewrite (HP v Hv), IH.
Qed.

Lemma typed_op_closed st op :
  consistent st → typed_op st op → closed_op (heap_next st) op = true.
Proof.
  intros Hst. destruct op; cbn; try done;
    eauto using dialog_typed_closed, tab_typed_closed, button_typed_closed.
  - intros [Hd Hv]. apply andb_true_iff. split; [by apply dialog_typed_closed|].
    destruct v as [[s|l]|]; try done. cbn in *.
    eapply Forall_typed_closed; [|exact Hv]. intros v. by apply tab_typed_closed.
  - intros [Hd Hv]. apply andb_true_iff.
    eauto using dialog_typed_closed, button_typed_closed.
  - intros [Hd Hv]. apply andb_true_iff.
    eauto using dialog_typed_closed, button_typed_closed.
  - intros [Hd Hv]. apply andb_true_iff. split; [by apply dialog_typed_closed|].
    destruct v as [l|]; try done. cbn in *.
    eapply Forall_typed_closed; [|exact Hv]. intros v. by apply button_typed_closed.
Qed.
Lemma button_typed_mono st st' v :
  (∀ r, is_Some (buttons st !! r) → is_Some (buttons st' !! r)) →
  button_typed st v → button_typed st' v.
Proof. intros H [->|Hv]; [by left|right]. destruct v as [r|]; [by apply H|done]. Qed.

Lemma tab_typed_mono st st' v :
  (∀ r, is_Some (tabs st !! r) → is_Some (tabs st' !! r)) →
  tab_typed st v → tab_typed st' v.
Proof. intros H [->|Hv]; [by left|right]. destruct v as [r|]; [by apply H|done]. Qed.

Lemma typed_mono st st' o :
  (∀ r, is_Some (buttons st !! r) → is_Some (buttons st' !! r)) →
  (∀ r, is_Some (tabs st !! r) → is_Some (tabs st' !! r)) →
  typed st o → typed st' o.
Proof.
  intros Hb Ht (H1 & H2 & H3 & H4). split_and!.
  - eapply Forall_impl; [exact H1|]. intros v. by apply tab_typed_mono.
  - eapply Forall_impl; [exact H2|]. intros v. by apply button_typed_mono.
  - by eapply button_typed_mono.
  - by eapply button_typed_mono.
Qed.

Lemma typed_grows st st' o : grows st st' → typed st o → typed st' o.
Proof.
  intros Hg. apply typed_mono.
  - apply (adv_buttons _ _ (grows_advances _ _ Hg)).
  - apply (grows_tabs _ _ Hg).
Qed.

Lemma typed_objects_same_dialogs st st' :
  grows st st' → dialogs st' = dialogs st → typed_objects st → typed_objects st'.
Proof.
  intros Hg Hd Hst r o. rewrite Hd. intros Ho. eapply typed_grows; [done|]. eauto.
Qed.

(** Only the assignments to a dialog's fields and [createDialog] change what
    dialogs hold. *)
Lemma dialogs_run_op op st :
  match op with
  | CreateDialog _ | DialogSetTitle _ _ | DialogSetContent _ _
  | DialogSetOkButton _ _ | DialogSetCancelButton _ _
  | DialogSetCustomButtons _ _ => True
  | _ => dialogs (run_op op st).2 = dialogs st
  end.
Proof.
  assert (∀ op', op' = op →
    match op with
    | CreateDialog _ | DialogSetTitle _ _ | DialogSetContent _ _
    | DialogSetOkButton _ _ | DialogSetCancelButton _ _
    | DialogSetCustomButtons _ _ => True
    | _ => keeps (λ s, dialogs s = dialogs st) (λ s, dialogs s = dialogs st)
             (run_op op')
    end) as Hk.
  { intros op' ->. destruct op; try done; cbn [run_op];
      unfold createTab, createButton,
        registerOnClickCallback, Dialog_open, Dialog_close, Dialog_updateContent,
        open, close, updateDialogContent, Tab_updateContent, updateTabContent,
        set_label, set_enabled, updateButton, proxy, onButtonClick, call, fire,
        tab_put, button_put, dialog_get, tab_get, button_get,
        the_dialog, the_tab, the_button,
        getDialogHandle, getTabHandle, getButtonHandle, getNewHandle, new_ref;
      keeps_same. }
  specialize (Hk op eq_refl).
  destruct op; try done; specialize (Hk st eq_refl);
    by destruct (run_op _ st) as [[[]|e] st'].
Qed.

Lemma typed_objects_dialog_put f d st :
  (∀ o, typed st o → typed st (f o)) →
  typed_objects st → typed_objects (dialog_put f d st).2.
Proof.
  intros Hf Hst. unfold dialog_put. rewrite run_bind.
  destruct d as [r|]; [|done].
  destruct (dialogs st !! r) as [o|] eqn:Ho.
  - rewrite (the_dialog_run r st o Ho). cbn. intros r' o'. cbn.
    rewrite lookup_insert. case_decide as Hr.
    + intros [= <-]. apply (Hf o). eauto.
    + apply Hst.
  - unfold the_dialog. rewrite run_bind. cbn. by rewrite Ho.
Qed.

Lemma typed_objects_createDialog title st :
  wf st → typed_objects st → typed_objects (createDialog title st).2.
Proof.
  intros Hwf Hst.
  pose proof (grows_createDialog title st Hwf) as Hg. revert Hg.
  pose proof (wf_fresh_ref KButton (Pos.succ (heap_next st)) st Hwf ltac:(lia)) as H1.
  pose proof (wf_fresh_ref KButton (Pos.succ (Pos.succ (heap_next st))) st Hwf
    ltac:(lia)) as H2.
  rewrite createDialog_run by done. cbn [snd].
  set (st' := mkState _ _ _ _ _ _ _ _ _ _ _). intros Hg r o. cbn.
  rewrite lookup_insert. case_decide as Hr.
  - intros [= <-]. split_and!; cbn; try done; right; apply is_button_Some;
      subst st'; cbn.
    + rewrite lookup_insert_ne by lia. rewrite lookup_insert_ne by lia.
      rewrite lookup_insert_eq. by eexists.
    + rewrite lookup_insert_eq. by eexists.
  - rewrite !lookup_insert_ne by done. intros Ho.
    eapply typed_grows; [exact Hg|]. eauto.
Qed.

Lemma typed_objects_run_op op st :
  consistent st → typed_objects st → typed_op st op →
  typed_objects (run_op op st).2.
Proof.
  intros Hc Hst Hop.
  pose proof (grows_run_op op st (cons_wf _ Hc)) as Hg.
  pose proof (dialogs_run_op op st) as Hd.
  destruct op; try (by eapply typed_objects_same_dialogs); cbn [run_op] in *.
  - rewrite run_bind.
    pose proof (typed_objects_createDialog title st (cons_wf _ Hc) Hst).
    by destruct (createDialog title st) as [[r|e] st'].
  - by apply typed_objects_dialog_put.
  - destruct Hop as [_ Hv]. apply typed_objects_dialog_put; [|done].
    intros o (H1 & H2 & H3 & H4). by split_and!.
  - destruct Hop as [_ Hv]. apply typed_objects_dialog_put; [|done].
    intros o (H1 & H2 & H3 & H4). by split_and!.
  - destruct Hop as [_ Hv]. apply typed_objects_dialog_put; [|done].
    intros o (H1 & H2 & H3 & H4). by split_and!.
  - destruct Hop as [_ Hv]. apply typed_objects_dialog_put; [|done].
    intros o (H1 & H2 & H3 & H4). by split_and!.
Qed.
Lemma updateDialogContent_modelled d o st :
  consistent st → dialogs st !! d = Some o → typed st o →
  (∃ st', updateDialogContent (Some d) st = (Ok tt, st'))
  ∨ (∃ st', updateDialogContent (Some d) st = (Throw TypeError, st')).
Proof.
  intros Hc Hd Ht. destruct (decide (well_typed st o)) as [Hwt|Hwt].
  - left. destruct (updateDialogContent_run d o st Hd Hwt) as (st' & Hrun & _). eauto.
  - right. by eapply updateDialogContent_Throw.
Qed.

Lemma run_op_modelled op st :
  consistent st → typed_objects st → typed_op st op →
  (run_op op st).1 ≠ Throw Unmodelled.
Proof.
  intros Hc Hst Hop. pose proof (cons_wf _ Hc) as Hwf.
  assert (∀ f d, dialog_typed st d → (dialog_put f d st).1 ≠ Throw Unmodelled) as Hput.
  { intros f [r|] [?|[o Ho]]; try done. cbn in Ho.
    unfold dialog_put. by rewrite run_bind, (the_dialog_run r st o Ho). }
  destruct op; cbn [run_op typed_op] in *; try (by apply Hput);
    try (by apply Hput, Hop).
  - rewrite run_bind, createDialog_run; [done|by apply (wf_fresh_ref KButton); [|lia]..].
  - by rewrite run_bind, createTab_run.
  - rewrite run_bind, createButton_run; [done|by apply (wf_fresh_ref KButton); [|lia]].
  - (* open *)
    destruct d as [r|]; [|done]. destruct Hop as [?|[o Ho]]; [done|]. cbn in Ho.
    unfold Dialog_open. rewrite run_bind, (the_dialog_run r st o Ho). cbn.
    unfold open. rewrite run_bind, getDialogHandle_eq.
    destruct (cons_dialogs _ Hc r) as [h Hh]; [by eexists|].
    rewrite (getOrAssign_Some KDialog (Some r) st h Hh). cbn. rewrite run_bind.
    destruct (updateDialogContent_modelled r o st Hc Ho (Hst r o Ho))
      as [[st' ->]|[st' ->]]; done.
  - (* close *)
    destruct d as [r|]; [|done]. destruct Hop as [?|[o Ho]]; [done|]. cbn in Ho.
    unfold Dialog_close. rewrite run_bind, (the_dialog_run r st o Ho). cbn.
    destruct (cons_dialogs _ Hc r) as [h Hh]; [by eexists|].
    by rewrite (close_exact (Some r) h st Hh).
  - (* updateContent *)
    destruct d as [r|]; [|done]. destruct Hop as [?|[o Ho]]; [done|]. cbn in Ho.
    unfold Dialog_updateContent. rewrite run_bind, (the_dialog_run r st o Ho). cbn.
    destruct (updateDialogContent_modelled r o st Hc Ho (Hst r o Ho))
      as [[st' ->]|[st' ->]]; done.
  - destruct t as [r|]; [|done]. destruct Hop as [?|[o Ho]]; [done|]. cbn in Ho.
    by rewrite (tab_put_run _ r o st Ho).
  - destruct t as [r|]; [|done]. destruct Hop as [?|[o Ho]]; [done|]. cbn in Ho.
    by rewrite (tab_put_run _ r o st Ho).
  - destruct Hop as [->|Ht]; [done|].
    by destruct (Tab_updateContent_Ok t st Ht) as (st' & -> & _).
  - destruct b as [r|]; [|done]. destruct Hop as [?|[o Ho]]; [done|]. cbn in Ho.
    by destruct (set_label_run r o v st Ho) as (h & st' & -> & _).
  - destruct b as [r|]; [|done]. destruct Hop as [?|[o Ho]]; [done|]. cbn in Ho.
    by destruct (set_enabled_run r o v st Ho) as (h & st' & -> & _).
  - destruct (_onClickCallbacks st !! handle) as [[b]|] eqn:Hh.
    + by rewrite (onButtonClick_Some handle b st Hh).
    + by rewrite (onButtonClick_None handle st Hh).
Qed.

(** A program that uses every position at its declared type never leaves
    the model: each of its operations returns, or throws an exception of the
    code. *)
Lemma typed_programs_stay_modelled ops : ∀ st,
  consistent st → typed_objects st → typed_ops ops st → modelled ops st.
Proof.
  induction ops as [|op ops IH]; intros st Hc Hst Hops; [done|].
  destruct Hops as [Hop Hops]. split; [by apply run_op_modelled|].
  apply IH; [|by apply typed_objects_run_op|done].
  by apply consistent_run_op; [|apply typed_op_closed].
Qed.

Theorem typed_programs_are_modelled ops :
  typed_ops ops init → modelled ops init.
Proof.
  apply typed_programs_stay_modelled; [apply consistent_init|].
  intros r o Ho. cbn in Ho. by rewrite lookup_empty in Ho.
Qed.
(** The scenario is such a program. *)
Example scenario_is_modelled : typed_ops scenario_ops init ∧ modelled scenario_ops init.
Proof.
  assert (typed_ops scenario_ops init) as Hops.
  { cbn [scenario_ops typed_ops typed_op]. split_and!; try done.
    - right. apply (bool_decide_unpack _). by vm_compute.
    - right. apply (bool_decide_unpack _). by vm_compute.
    - constructor; [|constructor]. right. apply (bool_decide_unpack _). by vm_compute.
    - right. apply (bool_decide_unpack _). by vm_compute.
    - constructor; [|constructor]. right. apply (bool_decide_unpack _). by vm_compute. }
  split; [done|]. by apply typed_programs_are_modelled.
Qed.
